(** * wradlib.ipol: interpolation classes and the missing-value drivers

    A shallow embedding of [src/wradlib/ipol.py] (classes [IpolBase],
    [Nearest], [Idw], [Linear]; functions [interpolate] and
    [interpolate_polar]) together with the part of numpy and of
    scipy.spatial.cKDTree that this code calls.

    - numbers are IEEE binary64 values (Rocq's primitive [float]), numpy's
      default [float64]; a [float32] array keeps its entries as the binary64
      values that are representable in single precision, and an [int32]
      array as the binary64 values that are whole numbers of 32 bits;
    - an n-dimensional array is its dtype, its shape and its entries in
      row-major order;
    - a Python exception is the [Raise] case of [result];
    - the C library's [pow], [cos] and [sin], the order in which [np.sum]
      adds, the inner product of the BLAS library behind [np.dot] and scipy's
      Delaunay-based [LinearNDInterpolator] are parameters of the
      development. *)

From Stdlib Require Import ZArith String Floats Lia.
From stdpp Require Import base list.

Set Default Proof Using "Type".
Set Warnings "-inexact-float".
Local Open Scope nat_scope.

(** ** Exceptions *)

Inductive exn : Type :=
  | AssertionError      (* a failed [assert]: the shape check of [IpolBase] *)
  | IndexError
  | ValueError          (* shapes that do not broadcast or align *)
  | TypeError
  | UnboundLocalError   (* a local variable read before assignment *)
  | ZeroDivisionError
  | Exception (msg : string).

Inductive result (A : Type) : Type :=
  | Ok (a : A)
  | Raise (e : exn).
Arguments Ok {A} a.
Arguments Raise {A} e.

Definition bind {A B} (m : result A) (k : A -> result B) : result B :=
  match m with
  | Ok a => k a
  | Raise e => Raise e
  end.

Notation "'let*' x ':=' m 'in' k" := (bind m (fun x => k))
  (at level 10, x pattern, m at level 200, k at level 200,
   format "'[v' 'let*'  x  ':='  m  'in' '/' k ']'").

Definition is_ok {A} (m : result A) : bool :=
  match m with Ok _ => true | Raise _ => false end.

(** [mapR f l]: run [f] over [l] from the left, stopping at the first
    exception. *)
Fixpoint mapR {A B} (f : A -> result B) (l : list A) : result (list B) :=
  match l with
  | [] => Ok []
  | x :: l' => let* y := f x in let* ys := mapR f l' in Ok (y :: ys)
  end.

(** ** numpy *)

Module np.

Inductive dtype : Type := float32 | float64 | int32.

#[global] Instance dtype_eq_dec : EqDecision dtype.
Proof. solve_decision. Defined.

(** Rounding of a binary64 value to the nearest binary32 value (ties to
    even, overflow to infinity): what a cast to 'f4' does to an entry. *)
Definition round_f4 (x : float) : float :=
  match Prim2SF x with
  | S754_finite s m e => SF2Prim (SpecFloat.binary_round 24 128 s m e)
  | _ => x
  end.

(** The whole part of a finite value, the fraction dropped. *)
Definition trunc (x : float) : option Z :=
  match Prim2SF x with
  | S754_zero _ => Some 0%Z
  | S754_finite s m e =>
      let a := if (0 <=? e)%Z then Z.shiftl (Zpos m) e else Z.shiftr (Zpos m) (- e) in
      Some (if s then (- a)%Z else a)
  | _ => None
  end.

(** The binary64 value of a whole number of at most 62 bits. *)
Definition of_int (z : Z) : float :=
  if (z <? 0)%Z then (- PrimFloat.of_uint63 (Uint63.of_Z (- z)))%float
  else PrimFloat.of_uint63 (Uint63.of_Z z).

(** Conversion of a float to int32 as the C cast on x86 does it: the
    fraction is dropped, and a NaN, an infinity or a value out of range
    gives -2**31. *)
Definition to_int32 (x : float) : float :=
  match trunc x with
  | Some z => if ((- 2147483648 <=? z) && (z <? 2147483648))%Z then of_int z
              else (-2147483648)%float
  | None => (-2147483648)%float
  end.

(** Entry conversion when an array of dtype [from] is written into one of
    dtype [to]: a float64 or an int32 entry is rounded once to come into
    float32, a float entry loses its fraction to come into int32, and every
    other conversion keeps the value. *)
Definition cast (from to : dtype) (x : float) : float :=
  match from, to with
  | float64, float32 | int32, float32 => round_f4 x
  | float32, int32 | float64, int32 => to_int32 x
  | _, _ => x
  end.

(** The dtype that holds the entries of both: what [np.result_type] gives
    for arrays. *)
Definition result_type (a b : dtype) : dtype :=
  match a, b with
  | float32, float32 => float32
  | int32, int32 => int32
  | _, _ => float64
  end.

Record ndarray : Type := mkarray {
  dtype_of : dtype;
  shape : list nat;
  data : list float            (* row-major; [length data = size shape] *)
}.

(** Number of entries of an array of shape [s]. *)
Definition size (s : list nat) : nat := foldr Nat.mul 1 s.

Definition wf (a : ndarray) : Prop := length (data a) = size (shape a).

Definition ndim (a : ndarray) : nat := length (shape a).

(** [len(a)]: the first-axis length; a 0-d array has none. *)
Definition len (a : ndarray) : result nat :=
  match shape a with
  | [] => Raise TypeError
  | n :: _ => Ok n
  end.

(** Entries of one first-axis item. *)
Definition row_size (a : ndarray) : nat := size (tail (shape a)).

Definition row (a : ndarray) (i : nat) : list float :=
  take (row_size a) (drop (i * row_size a) (data a)).

Definition nrows (a : ndarray) : nat := hd 0 (shape a).

(** [n] consecutive chunks of [sz] entries. *)
Fixpoint chunks {A} (n sz : nat) (l : list A) : list (list A) :=
  match n with
  | 0 => []
  | S n' => take sz l :: chunks n' sz (drop sz l)
  end.

Definition rows (a : ndarray) : list (list float) :=
  chunks (nrows a) (row_size a) (data a).

Definition array1 (dt : dtype) (l : list float) : ndarray :=
  mkarray dt [length l] l.

(** [a.ravel()]; a 0-d array (a numpy scalar) ravels to one entry. *)
Definition ravel (a : ndarray) : ndarray :=
  mkarray (dtype_of a) [size (shape a)] (data a).

(** [a.astype(dt)] *)
Definition astype (dt : dtype) (a : ndarray) : ndarray :=
  mkarray dt (shape a) (map (cast (dtype_of a) dt) (data a)).

(** [a.reshape(s)]: the same entries under another shape of the same size. *)
Definition reshape (a : ndarray) (s : list nat) : result ndarray :=
  if decide (size (shape a) = size s) then Ok (mkarray (dtype_of a) s (data a))
  else Raise ValueError.

Definition isfinite (a : ndarray) : list bool := map PrimFloat.is_finite (data a).
Definition isnan (a : ndarray) : list bool := map PrimFloat.is_nan (data a).

(** [np.where(cond)[0]] for a 1-d condition: positions that hold [true]. *)
Fixpoint where_from (i : nat) (c : list bool) : list nat :=
  match c with
  | [] => []
  | b :: c' => if b then i :: where_from (S i) c' else where_from (S i) c'
  end.
Definition where1 (c : list bool) : list nat := where_from 0 c.

Definition any (c : list bool) : bool := existsb id c.

(** [a[i]] for an integer [i >= 0]: the [i]-th first-axis item. *)
Definition getitem (a : ndarray) (i : nat) : result ndarray :=
  match shape a with
  | [] => Raise IndexError
  | n :: s => if i <? n then Ok (mkarray (dtype_of a) s (row a i))
              else Raise IndexError
  end.

(** [a[ix]] for a 1-d integer array [ix]: the listed first-axis items. *)
Definition take_rows (a : ndarray) (ix : list nat) : result ndarray :=
  match shape a with
  | [] => Raise IndexError
  | n :: s =>
      let* rs := mapR (fun i => if i <? n then Ok (row a i) else Raise IndexError) ix in
      Ok (mkarray (dtype_of a) (length ix :: s) (concat rs))
  end.

(** *** Broadcasting *)

(** Leading axes of length 1 are dropped from a value with more axes than
    its destination. *)
Fixpoint strip_ones (k : nat) (s : list nat) : list nat :=
  match k, s with
  | S k', 1 :: s' => strip_ones k' s'
  | _, _ => s
  end.

(** [expand vs s d]: entries [d] of shape [vs] repeated to shape [s], both
    of the same rank; an axis stretches only from length 1. *)
Fixpoint expand {A} (vs s : list nat) (d : list A) : option (list A) :=
  match vs, s with
  | [], [] => Some d
  | a :: vs', n :: s' =>
      if decide (a = n) then
        option_map (@concat A) (mapM (expand vs' s') (chunks a (size vs') d))
      else if decide (a = 1) then
        option_map (fun r => concat (replicate n r)) (expand vs' s' d)
      else None
  | _, _ => None
  end.

Definition broadcast_to {A} (vs : list nat) (d : list A) (s : list nat)
  : option (list A) :=
  let vs' := strip_ones (length vs - length s) vs in
  if length s <? length vs' then None
  else expand (replicate (length s - length vs') 1 ++ vs') s d.

(** The common shape of two operands, axes aligned from the right. *)
Fixpoint broadcast_rev (r1 r2 : list nat) : option (list nat) :=
  match r1, r2 with
  | [], r | r, [] => Some r
  | a :: r1', b :: r2' =>
      match broadcast_rev r1' r2' with
      | Some r =>
          if decide (a = b) then Some (a :: r)
          else if decide (a = 1) then Some (b :: r)
          else if decide (b = 1) then Some (a :: r)
          else None
      | None => None
      end
  end.
Definition broadcast_shapes (s1 s2 : list nat) : option (list nat) :=
  option_map (@reverse nat) (broadcast_rev (reverse s1) (reverse s2)).

Definition or_raise {A} (e : exn) (o : option A) : result A :=
  match o with Some a => Ok a | None => Raise e end.

(** [a[j] = v] for an integer [j]: [v] is converted to the dtype of [a] and
    broadcast to the shape of the item. *)
Definition setitem (a : ndarray) (j : nat) (v : ndarray) : result ndarray :=
  match shape a with
  | [] => Raise IndexError
  | n :: s =>
      if j <? n then
        let* d := or_raise ValueError
               (broadcast_to (shape v) (map (cast (dtype_of v) (dtype_of a)) (data v)) s) in
        Ok (mkarray (dtype_of a) (shape a)
              (take (j * size s) (data a) ++ d ++ drop (S j * size s) (data a)))
      else Raise IndexError
  end.

(** [a[ix] = v] for a 1-d array [a] and a 1-d integer array [ix]: [v] is
    converted and broadcast to [len(ix)] entries, written in order. *)
Fixpoint scatter (d : list float) (ix : list nat) (v : list float) : list float :=
  match ix, v with
  | i :: ix', x :: v' => scatter (<[i:=x]> d) ix' v'
  | _, _ => d
  end.

Definition setitem_ix (a : ndarray) (ix : list nat) (v : ndarray) : result ndarray :=
  if forallb (fun i => i <? length (data a)) ix then
    let* d := or_raise ValueError
           (broadcast_to (shape v) (map (cast (dtype_of v) (dtype_of a)) (data v))
              [length ix]) in
    Ok (mkarray (dtype_of a) (shape a) (scatter (data a) ix d))
  else Raise IndexError.

(** [l[ix]] on the entries of a 1-d array, [ix] a 1-d integer array. *)
Definition take_ix {A} (l : list A) (ix : list nat) : result (list A) :=
  mapR (fun i => or_raise IndexError (l !! i)) ix.

(** [np.delete(l, ix)] on a flattened array: the entries whose position is
    not listed. *)
Fixpoint delete_from (i : nat) (l : list float) (ix : list nat) : list float :=
  match l with
  | [] => []
  | x :: l' => if bool_decide (i ∈ ix) then delete_from (S i) l' ix
               else x :: delete_from (S i) l' ix
  end.
Definition delete (l : list float) (ix : list nat) : result (list float) :=
  if forallb (fun i => i <? length l) ix then Ok (delete_from 0 l ix)
  else Raise IndexError.

(** [np.tile(l, n)] and [np.repeat(l, n)] on 1-d arrays. *)
Definition tile (l : list float) (n : nat) : list float := concat (replicate n l).
Definition repeat (l : list float) (n : nat) : list float :=
  concat (map (replicate n) l).

(** [np.unique] of an index array: its values, ascending, once each. *)
Definition unique (l : list nat) : list nat :=
  filter (fun i => i ∈ l) (seq 0 (S (foldr Nat.max 0 l))).

(** 1-d operands of an elementwise product: equal lengths, or one of them
    of length 1. *)
Definition multiply (x y : list float) : result (list float) :=
  if decide (length x = length y) then Ok (zip_with PrimFloat.mul x y)
  else match x, y with
       | [a], _ => Ok (map (PrimFloat.mul a) y)
       | _, [b] => Ok (map (fun a => PrimFloat.mul a b) x)
       | _, _ => Raise ValueError
       end.

(** *** Arithmetic *)

Local Open Scope float_scope.

Definition of_nat (n : nat) : float := PrimFloat.of_uint63 (Uint63.of_Z (Z.of_nat n)).

(** Smallest integer not below [x] (0 for a NaN or an infinity). *)
Definition ceil (x : float) : Z :=
  match Prim2SF x with
  | S754_finite s m e =>
      let fl := if (0 <=? e)%Z then Z.shiftl (Zpos m) e else Z.shiftr (Zpos m) (- e) in
      let exact := if (0 <=? e)%Z then true else (Z.shiftl fl (- e) =? Zpos m)%Z in
      if s then (- fl)%Z else if exact then fl else (fl + 1)%Z
  | _ => 0%Z
  end.

(** [np.arange(start, stop, step)] on floats: [ceil((stop - start) / step)]
    entries; the first two are [start] and [start + step], the others
    [start + i * delta] with [delta] the difference of the first two. *)
Definition arange (start stop step : float) : list float :=
  let n := Z.to_nat (ceil ((stop - start) / step)) in
  let delta := (start + step) - start in
  map (fun i => match i with
                | 0%nat => start
                | 1%nat => start + step
                | _ => start + of_nat i * delta
                end) (seq 0 n).

(** [np.radians]: degrees times pi/180. *)
Definition radians (x : float) : float := x * (0x1.921fb54442d18p+1 / 180).

Section Libm.
Variable pow : float -> float -> float.

(** [x ** p] for a Python scalar exponent: numpy evaluates the exponents
    2, 1, -1, 0 and 0.5 by a product, a copy, a reciprocal, ones and a
    square root, and every other one by the C library's [pow]. *)
Definition power (x p : float) : float :=
  if p =? 2 then x * x
  else if p =? 1 then x
  else if p =? -1 then 1 / x
  else if p =? 0 then 1
  else if p =? 0.5 then PrimFloat.sqrt x
  else pow x p.
End Libm.

(** Column [j] of a block of [a] rows of [b] entries. *)
Definition column (b : nat) (blk : list float) (a j : nat) : list float :=
  map (fun i => default nan (blk !! (i * b + j)%nat)) (seq 0 a).

Section Blas.
(** The inner product of two float64 vectors of one length as the BLAS
    routine behind [np.dot] computes it: the order of the additions, and
    whether a product is rounded before it is added, are the library's. *)
Variable ddot : list float -> list float -> float.

(** [np.dot(w, v)] for a 1-d float64 [w]: the sum over the last axis of [w]
    and the LAST BUT ONE axis of [v] (its only axis when [v] is 1-d), in
    float64 whatever the dtype of [v]. *)
Definition dot (w : list float) (v : ndarray) : result ndarray :=
  match reverse (shape v) with
  | [] => Raise ValueError
  | [n] =>
      if decide (length w = n) then Ok (mkarray float64 [] [ddot w (data v)])
      else Raise ValueError
  | b :: a :: outer =>
      if decide (length w = a) then
        Ok (mkarray float64 (reverse outer ++ [b])
              (concat (map (fun blk => map (fun j => ddot w (column b blk a j)) (seq 0 b))
                         (chunks (size outer) (a * b) (data v)))))
      else Raise ValueError
  end.
End Blas.

(** The dtype of [np.where(cond, nan, a)]: that of [a], but float64 for an
    integer [a], which holds no NaN. *)
Definition with_nan (dt : dtype) : dtype :=
  match dt with
  | int32 => float64
  | _ => dt
  end.

(** [np.where(cond, x, a)] for a 1-d [cond] and the scalar [x = nan]:
    [cond] and [a] are broadcast against each other. *)
Definition where3 (cond : list bool) (x : float) (a : ndarray) : result ndarray :=
  let* s := or_raise ValueError (broadcast_shapes [length cond] (shape a)) in
  let* c := or_raise ValueError (broadcast_to [length cond] cond s) in
  let* d := or_raise ValueError (broadcast_to (shape a) (data a) s) in
  Ok (mkarray (with_nan (dtype_of a)) s
        (zip_with (fun (b : bool) y => if b then x else y) c d)).

Local Close Scope float_scope.

(** [np.where(c)] of an array of shape [s] given its flattened condition:
    for every [true] entry, its index along the first and along the last
    axis (what [np.where(c)[0]] and [np.where(c)[-1]] list). *)
Definition where_first_last (s : list nat) (c : list bool) : list (nat * nat) :=
  map (fun k => (k / size (tail s), k mod default 1 (last s))) (where1 c).

(** [a[..., i]] of a 2-d array: column [i]. *)
Definition getcol (a : ndarray) (i : nat) : result (list float) :=
  match shape a with
  | [n; m] => if i <? m then Ok (column m (data a) n i) else Raise IndexError
  | _ => Raise IndexError
  end.

(** [a[ix, i] = v]: for every listed first-axis index the item at second-axis
    index [i]; [v] is converted and broadcast to the shape of [a[ix, i]]. *)
Fixpoint scatter_blocks (d : list float) (sz : nat) (offs : list nat)
    (blocks : list (list float)) : list float :=
  match offs, blocks with
  | o :: offs', b :: blocks' =>
      scatter_blocks (take o d ++ b ++ drop (o + sz) d) sz offs' blocks'
  | _, _ => d
  end.

Definition setitem_col (a : ndarray) (ix : list nat) (i : nat) (v : ndarray)
  : result ndarray :=
  match shape a with
  | n0 :: n1 :: s2 =>
      if forallb (fun r => r <? n0) ix && (i <? n1) then
        let* d := or_raise ValueError
               (broadcast_to (shape v) (map (cast (dtype_of v) (dtype_of a)) (data v))
                  (length ix :: s2)) in
        Ok (mkarray (dtype_of a) (shape a)
              (scatter_blocks (data a) (size s2)
                 (map (fun r => (r * n1 + i) * size s2) ix)
                 (chunks (length ix) (size s2) d)))
      else Raise IndexError
  | _ => Raise IndexError
  end.

End np.

Export np(ndarray, mkarray, dtype_of, shape, data, float32, float64, int32).

(** ** scipy.spatial.cKDTree

    The index is an external collaborator; its documented contract is
    modelled by exhaustive search: [query(x, k)] returns for every query
    point the [k] nearest data points by Euclidean distance, nearest first,
    and reports a missing neighbour (fewer than [k] points closer than the
    infinite upper bound) as distance [inf] and index [n]. Points at equal
    distance come in index order. *)

Module cKDTree.
Local Open Scope float_scope.

Record t : Type := mk { n : nat; m : nat; points : list (list float) }.

(** [cKDTree(data)]: [data] has shape (n, m). *)
Definition build (a : ndarray) : result t :=
  match shape a with
  | [n; m] => Ok (mk n m (np.rows a))
  | _ => Raise ValueError
  end.

Definition distance (x y : list float) : float :=
  PrimFloat.sqrt (foldl PrimFloat.add 0 (zip_with (fun a b => (a - b) * (a - b)) x y)).

(** Insertion into a list sorted by distance, before the first entry that
    is not closer. *)
Fixpoint insert (p : float * nat) (l : list (float * nat)) : list (float * nat) :=
  match l with
  | [] => [p]
  | q :: l' => if p.1 <=? q.1 then p :: l else q :: insert p l'
  end.

Definition sort (l : list (float * nat)) : list (float * nat) := foldr insert [] l.

(** The data points closer than the upper bound [inf], nearest first. *)
Definition neighbours (tr : t) (x : list float) : list (float * nat) :=
  sort (filter (fun p => (p.1 <? infinity) = true)
          (imap (fun i y => (distance x y, i)) (points tr))).

Definition knn (tr : t) (k : nat) (x : list float) : list (float * nat) :=
  let found := take k (neighbours tr x) in
  found ++ replicate (k - length found) (infinity, n tr).

(** [tree.query(x, k)] for [x] of shape (T, m), as the rows of the (T, k)
    arrays of distances and of indices. For [k = 1] scipy returns these
    with the one-entry axis dropped. *)
Definition query (tr : t) (x : ndarray) (k : nat)
  : result (list (list float) * list (list nat)) :=
  match shape x with
  | [_; d] =>
      if decide (d = m tr) then
        if decide (k = 0%nat) then Raise ValueError
        else let r := map (knn tr k) (np.rows x) in
             Ok (map (map fst) r, map (map snd) r)
      else Raise ValueError
  | _ => Raise ValueError
  end.

End cKDTree.

(** ** wradlib.util *)

Module util.

(** Modelled from the spec: [wradlib.util._shape2size] is not among the
    sources. [Idw.__call__] uses it for the number of entries of its output,
    an array "with target-point count as first axis and source values'
    trailing shape preserved": the product of the lengths of the axes. *)
Definition _shape2size (shape : list nat) : nat := foldr Nat.mul 1 shape.

End util.

(** ** The interpolation classes *)

(** Coordinates as a caller may give them: a list or tuple of arrays, one
    per axis, or one array. *)
Inductive coords : Type :=
  | CoordSeq (items : list ndarray)
  | CoordArray (x : ndarray).

(** [len(x)] of a coordinate argument as given. *)
Definition coords_len (x : coords) : result nat :=
  match x with
  | CoordSeq items => Ok (length items)
  | CoordArray a => np.len a
  end.

(** [x[ix]] of a coordinate argument as given; a Python list takes no
    index array. *)
Definition coords_getitem (x : coords) (ix : list nat) : result coords :=
  match x with
  | CoordSeq _ => Raise TypeError
  | CoordArray a => let* r := np.take_rows a ix in Ok (CoordArray r)
  end.

Module IpolBase.

(** [assert len(vals) == self.numsources] *)
Definition _check_shape (numsources : nat) (vals : ndarray) : result unit :=
  let* n := np.len vals in
  if decide (n = numsources) then Ok tt else Raise AssertionError.

(** The dtype of [np.array(items)]: the one that holds the entries of every
    item. *)
Definition common_dtype (items : list ndarray) : np.dtype :=
  match items with
  | [] => float64
  | item :: items' => foldl np.result_type (dtype_of item) (map dtype_of items')
  end.

(** [np.array(cols).transpose()] for a list of equally long 1-d arrays. *)
Definition columns (dt : np.dtype) (cols : list (list float)) : result ndarray :=
  match cols with
  | [] => Ok (mkarray dt [0] [])
  | c :: _ =>
      if forallb (fun c' => length c' =? length c) cols then
        Ok (mkarray dt [length c; length cols]
              (concat (map (fun i => map (fun c' => default nan (c' !! i)) cols)
                         (seq 0 (length c)))))
      else Raise ValueError
  end.

Definition _make_coord_arrays (x : coords) : result ndarray :=
  match x with
  | CoordSeq items =>
      columns (common_dtype items) (map (fun item => data (np.ravel item)) items)
  | CoordArray a =>
      match shape a with
      | [n] => Ok (mkarray (dtype_of a) [n; 1] (data a))      (* x.reshape(-1,1) *)
      | [_; _] => Ok a
      | _ => Raise (Exception "Cannot deal wih 3-d arrays, yet.")
      end
  end.

End IpolBase.

Module Nearest.
Import IpolBase.
Local Open Scope float_scope.

Record t : Type := mk {
  numtargets : nat;
  numsources : nat;
  tree : cKDTree.t;
  dists : list float;      (* shape (numtargets,) *)
  ix : list nat            (* shape (numtargets,) *)
}.

Definition __init__ (src trg : coords) : result t :=
  let* src := _make_coord_arrays src in
  let* trg := _make_coord_arrays trg in
  let* numtargets := np.len trg in
  let* numsources := np.len src in
  let* tree := cKDTree.build src in
  let* q := cKDTree.query tree trg 1 in
  Ok (mk numtargets numsources tree
        (map (fun r => default infinity (head r)) q.1)
        (map (fun r => default (cKDTree.n tree) (head r)) q.2)).

Definition __call__ (self : t) (vals : ndarray) (maxdist : option float)
  : result ndarray :=
  let* _ := _check_shape (numsources self) vals in
  let* out := np.take_rows vals (ix self) in
  match maxdist with
  | None => Ok out
  | Some maxdist => np.where3 (map (fun d => maxdist <? d) (dists self)) nan out
  end.

End Nearest.

Module Idw.
Import IpolBase.
Local Open Scope float_scope.

Record t : Type := mk {
  numtargets : nat;
  numsources : nat;
  nnearest : nat;
  p : float;
  tree : cKDTree.t;
  dists : list (list float);    (* shape (numtargets, nnearest) *)
  ix : list (list nat)          (* shape (numtargets, nnearest) *)
}.

(** The query result is kept as rows of [nnearest] entries, which is also
    what the [np.newaxis] fix-up yields for [nnearest = 1]. *)
Definition __init__ (src trg : coords) (nnearest : nat) (p : float) : result t :=
  let* src := _make_coord_arrays src in
  let* trg := _make_coord_arrays trg in
  let* numtargets := np.len trg in
  let* numsources := np.len src in
  let* tree := cKDTree.build src in
  let* q := cKDTree.query tree trg nnearest in
  Ok (mk numtargets numsources nnearest p tree q.1 q.2).

Section Call.
(** [np.sum] of a 1-d float64 array: numpy adds the entries in an order of
    its own (in blocks, and pairwise from eight entries on). *)
Variable add_reduce : list float -> float.
Variable ddot : list float -> list float -> float.
Variable pow : float -> float -> float.

(** The weights of the general branch: [w = 1. / dist**p; w /= np.sum(w)]. *)
Definition weights (p : float) (dist : list float) : list float :=
  let w := map (fun d => 1 / np.power pow d p) dist in
  let s := add_reduce w in
  map (fun x => x / s) w.

(** One turn of the loop over [zip(self.dists, self.ix)]: the value [wz]
    of one target. *)
Definition target (self : t) (vals : ndarray) (dist : list float) (ix : list nat)
  : result ndarray :=
  let valid_dists := np.where1 (map PrimFloat.is_finite dist) in
  let* dist := np.take_ix dist valid_dists in
  let* ix := np.take_ix ix valid_dists in
  if decide (nnearest self = 1%nat) then
    np.take_rows vals ix
  else
    let* d0 := np.or_raise IndexError (head dist) in
    if d0 <? 0x1.b7cdfd9d7bdbbp-34 (* 1e-10 *) then
      let* i0 := np.or_raise IndexError (head ix) in
      np.getitem vals i0
    else
      let w := weights (p self) dist in
      let* v := np.take_rows vals ix in
      np.dot ddot w v.

Fixpoint loop (self : t) (vals : ndarray) (todo : list (list float * list nat))
    (jinterpol : nat) (interpol : ndarray) : result ndarray :=
  match todo with
  | [] => Ok interpol
  | (dist, ix) :: todo' =>
      let* wz := target self vals dist ix in
      let* interpol := np.setitem interpol jinterpol (np.ravel wz) in
      loop self vals todo' (S jinterpol) interpol
  end.

Definition __call__ (self : t) (vals : ndarray) : result ndarray :=
  match shape vals with
  | [] => Raise IndexError                 (* outshape[0] = ... *)
  | _ :: s =>
      let outshape := length (dists self) :: s in
      let* interpol :=
        np.reshape (np.array1 float64 (np.repeat [nan] (util._shape2size outshape)))
          outshape in
      let interpol := np.astype float32 interpol in
      loop self vals (zip (dists self) (ix self)) 0 interpol
  end.
End Call.

End Idw.

Module Linear.
Import IpolBase.

Record t : Type := mk {
  src : ndarray;
  trg : ndarray;
  numtargets : nat;
  numsources : nat
}.

(** The lengths are taken from the arguments as given. *)
Definition __init__ (src trg : coords) : result t :=
  let* s := _make_coord_arrays src in
  let* g := _make_coord_arrays trg in
  let* numtargets := coords_len trg in
  let* numsources := coords_len src in
  Ok (mk s g numtargets numsources).

Section Call.
(** [LinearNDInterpolator(src, vals, fill_value)(trg)] of scipy. *)
Variable LinearNDInterpolator : ndarray -> ndarray -> float -> ndarray -> result ndarray.

Definition __call__ (self : t) (vals : ndarray) (fill_value : float)
  : result ndarray :=
  let* _ := _check_shape (numsources self) vals in
  LinearNDInterpolator (src self) vals fill_value (trg self).
End Call.

End Linear.

(** A class that inherits from [IpolBase], with the extra constructor
    arguments already chosen: how to build an instance from source and target
    coordinates, and how to call it on values with every option left at its
    default. *)
Record Interpolator : Type := {
  instance : Type;
  init : coords -> coords -> result instance;
  call : instance -> ndarray -> result ndarray
}.

Definition Nearest_class : Interpolator :=
  {| init := Nearest.__init__;
     call := fun ip vals => Nearest.__call__ ip vals None |}.

Definition Idw_class (add_reduce : list float -> float)
    (ddot : list float -> list float -> float) (pow : float -> float -> float)
    (nnearest : nat) (p : float) : Interpolator :=
  {| init := fun src trg => Idw.__init__ src trg nnearest p;
     call := Idw.__call__ add_reduce ddot pow |}.

Definition Linear_class
    (LinearNDInterpolator : ndarray -> ndarray -> float -> ndarray -> result ndarray)
  : Interpolator :=
  {| init := Linear.__init__;
     call := fun ip vals => Linear.__call__ LinearNDInterpolator ip vals nan |}.

(** ** The drivers *)

(** The 2-d branch of [interpolate]: one turn of the loop over the columns
    [i] that hold a NaN in the first result. *)
Definition interpolate_column (src trg : coords) (vals : ndarray) (I : Interpolator)
    (nan_in_result : list (nat * nat)) (result0 : ndarray) (i : nat)
  : result ndarray :=
  let* col := np.getcol vals i in
  let ix_good := np.where1 (map PrimFloat.is_finite col) in
  let ix_broken_targets := map fst (filter (fun rc => rc.2 = i) nan_in_result) in
  let* s := coords_getitem src ix_good in
  let* g := coords_getitem trg ix_broken_targets in
  let* ip := init I s g in
  let* good := np.take_ix col ix_good in
  (* .reshape((len(ix_good), -1)) has no answer for an empty array *)
  let* v := match ix_good with
            | [] => Raise ValueError
            | _ => Ok (mkarray (dtype_of vals) [length ix_good; 1] good)
            end in
  let* tmp := call I ip v in
  np.setitem_col result0 ix_broken_targets i (np.ravel tmp).

Fixpoint interpolate_columns (src trg : coords) (vals : ndarray) (I : Interpolator)
    (nan_in_result : list (nat * nat)) (cols : list nat) (result0 : ndarray)
  : result ndarray :=
  match cols with
  | [] => Ok result0
  | i :: cols' =>
      let* r := interpolate_column src trg vals I nan_in_result result0 i in
      interpolate_columns src trg vals I nan_in_result cols' r
  end.

Definition interpolate (src trg : coords) (vals : ndarray) (I : Interpolator)
  : result ndarray :=
  match np.ndim vals with
  | 1 =>
      (* source values are one dimensional, we have just to remove invalid data *)
      let ix_valid := np.where1 (np.isfinite vals) in
      let* s := coords_getitem src ix_valid in
      let* ip := init I s trg in
      let* v := np.take_rows vals ix_valid in
      call I ip v
  | 2 =>
      let* ip := init I src trg in
      let* result0 := call I ip vals in
      let nan_in_result := np.where_first_last (shape result0) (np.isnan result0) in
      interpolate_columns src trg vals I nan_in_result
        (np.unique (map snd nan_in_result)) result0
  | _ =>
      if negb (np.any (np.isnan (np.ravel vals))) then
        Raise (Exception "At the moment, <interpolate> can only deal with NaN values in <vals> if vals has less than 3 dimension.")
      else
        (* if no NaN value are in <vals> we can safely apply the Interpolator as is *)
        let* ip := init I src trg in
        (* result = ip(vals[ix_valid]): [ix_valid] is bound in the 1-d branch only *)
        Raise UnboundLocalError
  end.

(** A boolean array: the [mask] argument of [interpolate_polar]. *)
Record mask_array : Type := mkmask { mask_shape : list nat; mask_data : list bool }.

Section Polar.
Variables cos sin : float -> float.
Local Open Scope float_scope.

(** Bin centres of the range bins, one copy per ray. *)
Definition polar_ranges (nrays nbins : nat) : list float :=
  np.tile (np.arange 0.5 (np.of_nat nbins + 0.5) 1) nrays.

(** Azimuth of every bin in radians, ray by ray. *)
Definition polar_angles (nrays nbins : nat) : list float :=
  np.repeat (map np.radians (np.arange 0 360 (360 / np.of_nat nrays))) nbins.

(** Cartesian coordinates [(binx, biny)] of every bin of a field of shape
    (nrays, nbins). *)
Definition bin_coordinates (nrays nbins : nat) : result (list float * list float) :=
  (* construct the ranges for every bin *)
  let ranges := polar_ranges nrays nbins in
  (* construct the angles for every bin *)
  if decide (nrays = 0%nat) then Raise ZeroDivisionError else
  let angles := polar_angles nrays nbins in
  (* calculate cartesian coordinates for every bin *)
  let* binx := np.multiply (map cos angles) ranges in
  let* biny := np.multiply (map sin angles) ranges in
  Ok (binx, biny).

(** [np.array([x, y]).transpose()] as a coordinate argument. *)
Definition xy (x y : list float) : coords :=
  CoordArray (mkarray float64 [length x; 2%nat]
                (concat (zip_with (fun a b => [a; b]) x y))).

(** What the fallback pass reads of the first one. *)
Record polar_pass : Type := mkpass {
  binx : list float;
  biny : list float;
  src_coord : coords;
  values_list : ndarray;
  filled_data : ndarray
}.

(** The mask that is used: the one given if it masks any bin, else the
    mask of the data itself, which for a plain array is all [False].
    ([data] is a plain 2-d array: the masked-array input that numpy.ma
    offers is not part of this model, nor is the warning printed when
    no mask is given.) *)
Definition used_mask (data : ndarray) (mask : option mask_array) : list bool :=
  match mask with
  | Some m => if np.any (mask_data m) then mask_data m
              else replicate (np.size (shape data)) false
  | None => replicate (np.size (shape data)) false
  end.

(** [interpolate_polar] up to and including the first filling of the
    masked bins by the chosen interpolator. *)
Definition first_pass (data : ndarray) (mask : option mask_array)
    (I : Interpolator) : result polar_pass :=
  let clutter_indices := np.where1 (used_mask data mask) in
  match shape data with
  | nrays :: nbins :: _ =>
      let* b := bin_coordinates nrays nbins in
      let binx := b.1 in
      let biny := b.2 in
      (* calculate cartesian coordinates for bins, which are not masked *)
      let* sx := np.delete binx clutter_indices in
      let* sy := np.delete biny clutter_indices in
      let src_coord := xy sx sy in
      (* calculate cartesian coordinates for bins, which are masked *)
      let* tx := np.take_ix binx clutter_indices in
      let* ty := np.take_ix biny clutter_indices in
      let trg_coord := xy tx ty in
      (* data values for bins, which are not masked *)
      let* values := np.delete (np.data data) clutter_indices in
      let values_list := np.array1 (dtype_of data) values in
      let filled_data := np.ravel data in
      (* interpolate masked bins *)
      let* filling := interpolate src_coord trg_coord values_list I in
      (* fill data with the interpolations *)
      let* filled_data := np.setitem_ix filled_data clutter_indices filling in
      Ok (mkpass binx biny src_coord values_list filled_data)
  | _ => Raise IndexError
  end.

(** The rest of [interpolate_polar]: in case of nans as processed at the
    rim when interpolating linear, these values are finally interpolated by
    nearest neighbour interpolation. *)
Definition fallback_pass (st : polar_pass) : result ndarray :=
  if np.any (np.isnan (filled_data st)) then
    let nans := np.where1 (np.isnan (filled_data st)) in
    let* tx := np.take_ix (binx st) nans in
    let* ty := np.take_ix (biny st) nans in
    let* filling := interpolate (src_coord st) (xy tx ty) (values_list st) Nearest_class in
    np.setitem_ix (filled_data st) nans filling
  else Ok (filled_data st).

Definition interpolate_polar (data : ndarray) (mask : option mask_array)
    (I : Interpolator) : result ndarray :=
  let* st := first_pass data mask I in
  let* filled_data := fallback_pass st in
  match shape data with
  | nrays :: nbins :: _ => np.reshape filled_data [nrays; nbins]
  | _ => Raise IndexError
  end.
End Polar.

(** * wradlib.ipol: the covariogram parser

    [parse_covariogram] reads a covariance model such as
    ['1.0 Nug(0.0) + 2.0 Exp(5.0)'] with eight regular expressions and
    returns the sum of the covariance functions that it names. A Python
    [str] is a list of characters. Python's [float], and the eight
    covariance functions [cov_nug] ... [cov_cau] of the module (on the lags
    and the list of the parameters that follow them), are parameters of
    this part. *)

From Stdlib Require Import Ascii.

(** ** The regular expressions *)

Module re.
Local Open Scope char_scope.

(** The patterns of [parse_covariogram] are sequences of two kinds of
    pieces: the capturing group [([\d\.]+)] and literal text. *)
Inductive piece : Type :=
  | group
  | text (s : list ascii).

Definition pattern : Type := list piece.

(** [[\d\.]]: a decimal digit or a dot. *)
Definition is_num (c : ascii) : bool :=
  match c with
  | "0" | "1" | "2" | "3" | "4" | "5" | "6" | "7" | "8" | "9" | "." => true
  | _ => false
  end.

(** Length of the longest run of [[\d\.]] characters that [s] starts with. *)
Fixpoint span (s : list ascii) : nat :=
  match s with
  | c :: s' => if is_num c then S (span s') else 0
  | [] => 0
  end.

(** [s] without the literal [l] that it starts with. *)
Fixpoint starts_with (l s : list ascii) : option (list ascii) :=
  match l, s with
  | [], _ => Some s
  | a :: l', c :: s' => if Ascii.eqb a c then starts_with l' s' else None
  | _ :: _, [] => None
  end.

(** A greedy [+] with backtracking: the group takes [k] characters, the
    longest run first, as long as the rest of the pattern [cont] does not
    match what follows; it takes one character at least. *)
Fixpoint backtrack (cont : list ascii -> option (list (list ascii))) (s : list ascii)
    (k : nat) : option (list (list ascii)) :=
  match k with
  | 0 => None
  | S k' =>
      match cont (drop k s) with
      | Some groups => Some (take k s :: groups)
      | None => backtrack cont s k'
      end
  end.

(** A match of the pattern that begins at the first character of [s]: the
    text of its groups. *)
Fixpoint match_here (p : pattern) (s : list ascii) : option (list (list ascii)) :=
  match p with
  | [] => Some []
  | text l :: p' =>
      match starts_with l s with
      | Some rest => match_here p' rest
      | None => None
      end
  | group :: p' => backtrack (match_here p') s (span s)
  end.

(** [pattern.search(s)]: the leftmost match; [m.groups()] of it. *)
Fixpoint search (p : pattern) (s : list ascii) : option (list (list ascii)) :=
  match match_here p s with
  | Some groups => Some groups
  | None =>
      match s with
      | [] => None
      | _ :: s' => search p s'
      end
  end.

End re.

(** [s.split(sep)] for a separator of one character. *)
Fixpoint split (sep : ascii) (s : list ascii) : list (list ascii) :=
  match s with
  | [] => [[]]
  | c :: s' =>
      if Ascii.eqb c sep then [] :: split sep s'
      else match split sep s' with
           | w :: ws => (c :: w) :: ws
           | [] => [[c]]
           end
  end.

(** [reduce(f, l)] without an initial value: from the left; an empty
    sequence is a TypeError. *)
Definition reduce {A} (f : A -> A -> result A) (l : list A) : result A :=
  match l with
  | [] => Raise TypeError
  | x :: l' => foldl (fun acc y => let* a := acc in f a y) (Ok x) l'
  end.

Module numpy.
Local Open Scope float_scope.

(** The sum of two entries in the dtype [dt] of the result: rounded to
    single precision in float32, and wrapped around to 32 bits in int32. *)
Definition add_entries (dt : np.dtype) (u v : float) : float :=
  match dt with
  | float64 => u + v
  | float32 => np.round_f4 (u + v)
  | int32 =>
      match np.trunc (u + v) with
      | Some z => np.of_int ((z + 2147483648) mod 4294967296 - 2147483648)%Z
      | None => u + v
      end
  end.

(** [np.add(a, b)]: the operands are broadcast against each other and added
    entry by entry, in single precision when both are float32. *)
Definition add (a b : ndarray) : result ndarray :=
  let* s := np.or_raise ValueError (np.broadcast_shapes (shape a) (shape b)) in
  let* x := np.or_raise ValueError (np.broadcast_to (shape a) (data a) s) in
  let* y := np.or_raise ValueError (np.broadcast_to (shape b) (data b) s) in
  let dt := np.result_type (dtype_of a) (dtype_of b) in
  Ok (mkarray dt s (zip_with (add_entries dt) x y)).

End numpy.

(** ** [parse_covariogram] *)

(** A covariance function of the lags alone. *)
Definition covariance : Type := ndarray -> result ndarray.

(** [lambda h: func(h, *params)] *)
Definition _make_cov (func : ndarray -> list float -> result ndarray)
    (params : list float) : covariance :=
  fun h => func h params.

(** [lambda h: reduce(np.add, [f(h) for f in funcs])] *)
Definition sum_of (funcs : list covariance) : covariance :=
  fun h => let* values := mapR (fun f => f h) funcs in reduce numpy.add values.

Definition patterns : list re.pattern :=
  let t := fun s => re.text (list_ascii_of_string s) in
  [ [re.group; t " Nug("%string; re.group; t ")"%string];                               (* nugget *)
    [re.group; t " Lin("%string; re.group; t ")"%string];                               (* linear *)
    [re.group; t " Sph("%string; re.group; t ")"%string];                               (* spherical *)
    [re.group; t " Exp("%string; re.group; t ")"%string];                               (* exponential *)
    [re.group; t " Gau("%string; re.group; t ")"%string];                               (* gaussian *)
    [re.group; t " Mat("%string; re.group; t ")^"%string; re.group];                    (* matern *)
    [re.group; t " Pow("%string; re.group; t ")"%string];                               (* power *)
    [re.group; t " Cau("%string; re.group; t ")^"%string; re.group; t "^"%string; re.group]    (* cauchy *)
  ].

Section Covariogram.
(** [float(p)] for the text of a group. *)
Variable float_of_str : list ascii -> result float.
Variables cov_nug cov_lin cov_sph cov_exp cov_gau cov_mat cov_pow cov_cau
  : ndarray -> list float -> result ndarray.

Definition cov_funs : list (ndarray -> list float -> result ndarray) :=
  [cov_nug; cov_lin; cov_sph; cov_exp; cov_gau; cov_mat; cov_pow; cov_cau].

(** The loop over all available patterns for one subpart: [funcs] grows by
    one function for every pattern found in it. *)
Fixpoint over_patterns (subpart : list ascii) (j : nat) (todo : list re.pattern)
    (funcs : list covariance) : result (list covariance) :=
  match todo with
  | [] => Ok funcs
  | pattern :: todo' =>
      match re.search pattern subpart with
      | Some groups =>
          let* params := mapR float_of_str groups in
          let* func := np.or_raise IndexError (cov_funs !! j) in
          over_patterns subpart (S j) todo' (funcs ++ [_make_cov func params])
      | None => over_patterns subpart (S j) todo' funcs
      end
  end.

(** The loop over the subparts. *)
Fixpoint over_subparts (subparts : list (list ascii)) (funcs : list covariance)
  : result (list covariance) :=
  match subparts with
  | [] => Ok funcs
  | subpart :: subparts' =>
      let* funcs := over_patterns subpart 0 patterns funcs in
      over_subparts subparts' funcs
  end.

Definition parse_covariogram (cov_model : list ascii) : result covariance :=
  (* first split along '+' *)
  let subparts := split "+"%char cov_model in
  (* then analyse subparts *)
  let* funcs := over_subparts subparts [] in
  (* return complete covariance function, which adds individual subparts *)
  Ok (sum_of funcs).

End Covariogram.

(** * Notions used in the statements *)

Arguments np.size : simpl never.

(** The sentence of the specification on 1-d values: the source rows paired
    with a non-finite value are dropped, coordinates and values alike; one
    interpolator is built on what is left and called on the values left. *)
Definition valid_rows (src vals : ndarray) : list (list float * float) :=
  filter (fun rv => PrimFloat.is_finite rv.2 = true) (zip (np.rows src) (data vals)).

Definition interpolate_valid_rows (src : ndarray) (trg : coords) (vals : ndarray)
    (I : Interpolator) : result ndarray :=
  let kept := valid_rows src vals in
  let* ip := init I (CoordArray (mkarray (dtype_of src) (length kept :: tail (shape src))
                                   (concat kept.*1))) trg in
  call I ip (mkarray (dtype_of vals) [length kept] kept.*2).

(** An interpolator class answers a problem with no target by an empty 1-d
    array. *)
Definition empty_answer (I : Interpolator) : Prop :=
  forall (s v : ndarray) (n : nat),
    shape s = [n; 2] -> shape v = [n] ->
    exists ip f,
      init I (CoordArray s) (xy [] []) = Ok ip /\ call I ip v = Ok f /\ shape f = [0].

(** The bin coordinates exist and there is one pair per bin. (They do not
    for a field without rays, and where [np.arange] rounds to one azimuth
    too many, as for 161 rays.) *)
Definition grid_ok (cos sin : float -> float) (nrays nbins : nat)
    (bx by_ : list float) : Prop :=
  bin_coordinates cos sin nrays nbins = Ok (bx, by_) /\
  length bx = nrays * nbins /\ length by_ = nrays * nbins.

(** Every pair of an x and a y coordinate of the bins is at a distance below
    infinity from every other such pair: no coordinate is NaN or infinite and
    no distance overflows. *)
Definition bins_near (bx by_ : list float) : Prop :=
  forall x y x' y', x ∈ bx -> y ∈ by_ -> x' ∈ bx -> y' ∈ by_ ->
    (cKDTree.distance [x; y] [x'; y'] <? infinity)%float = true.

(** A source bin of [interpolate_polar]: a bin that is not masked and holds
    a finite value. *)
Definition source_bin (field : ndarray) (mask : option mask_array) (k : nat) (v : float)
  : Prop :=
  used_mask field mask !! k = Some false /\ data field !! k = Some v /\
  PrimFloat.is_finite v = true.

(** What an evaluation of [Idw] on values with [n] first-axis items needs of
    the neighbours of a target: as many indices as distances (one of each
    where [nnearest] is 1), a neighbour at a finite distance, and every
    neighbour at a finite distance among the [n] items. *)
Definition usable (self : Idw.t) (n : nat) (q : list float * list nat) : Prop :=
  length q.1 = length q.2 /\
  (Idw.nnearest self = 1 -> length q.1 = 1) /\
  (exists d, d ∈ q.1 /\ PrimFloat.is_finite d = true) /\
  (forall k d i, q.1 !! k = Some d -> q.2 !! k = Some i ->
                 PrimFloat.is_finite d = true -> i < n).

Definition neighbours_within (self : Idw.t) (n : nat) : Prop :=
  Forall (usable self n) (zip (Idw.dists self) (Idw.ix self)).

(** The interpolator class returns arrays that hold as many entries as
    their shape says, when its values do. *)
Definition returns_wf (I : Interpolator) : Prop :=
  forall (ip : instance I) (v r : ndarray), np.wf v -> call I ip v = Ok r -> np.wf r.

(** ** Signs *)

(** A value that is NaN or has its sign bit clear: +0, a positive number or
    +infinity. *)
Definition SFnot_negative (x : spec_float) : bool :=
  match x with
  | S754_zero s | S754_infinity s | S754_finite s _ _ => negb s
  | S754_nan => true
  end.

Definition not_negative (x : float) : bool := SFnot_negative (Prim2SF x).

(** ** Covariance models as they are written *)

(** The text of a term: a pattern with the text of its groups filled in. *)
Fixpoint term_text (p : re.pattern) (groups : list (list ascii)) : list ascii :=
  match p, groups with
  | [], _ => []
  | re.text l :: p', _ => l ++ term_text p' groups
  | re.group :: p', g :: groups' => g ++ term_text p' groups'
  | re.group :: p', [] => term_text p' []
  end.

(** One text of digits and dots, not empty, for every group of the
    pattern. *)
Fixpoint fits (p : re.pattern) (groups : list (list ascii)) : Prop :=
  match p, groups with
  | [], _ => groups = []
  | re.text _ :: p', _ => fits p' groups
  | re.group :: p', g :: groups' =>
      g <> [] /\ forallb re.is_num g = true /\ fits p' groups'
  | re.group :: _, [] => False
  end.

(** Patterns in which a group is followed by the end or by a text that does
    not begin with a digit or a dot: the longest run is the group. *)
Fixpoint delimited (p : re.pattern) : bool :=
  match p with
  | [] => true
  | re.text _ :: p' => delimited p'
  | re.group :: p' =>
      match p' with
      | [] => true
      | re.text (c :: _) :: _ => negb (re.is_num c)
      | _ => false
      end && delimited p'
  end.

(** The patterns of the module begin with a group and a text in
    parentheses. *)
Definition opens (p : re.pattern) : Prop :=
  exists l p', p = re.group :: re.text l :: p' /\
    "("%char ∈ l /\ forallb (fun c => negb (re.is_num c)) l = true.

(** The characters of the texts of a pattern. *)
Definition texts (p : re.pattern) : list ascii :=
  concat (map (fun x => match x with re.text l => l | re.group => [] end) p).

Definition has (c : ascii) (s : list ascii) : bool := existsb (Ascii.eqb c) s.

(** [p'] has a character in its texts, no digit or dot, that the texts of
    [p] do not have. *)
Definition told_apart (p p' : re.pattern) : bool :=
  existsb (fun c => negb (re.is_num c) && negb (has c (texts p))) (texts p').

(** A term of a model: which of the eight patterns it is written after,
    the texts of its numbers, what is written in front of it and the blanks
    behind it. *)
Record term : Type := mk_term {
  junk : list ascii;
  which : nat;
  numbers : list (list ascii);
  blanks : nat
}.

(** The [j]-th pattern. *)
Definition pattern_of (j : nat) : re.pattern :=
  match patterns !! j with
  | Some p => p
  | None => []
  end.

Definition written (t : term) : list ascii :=
  junk t ++ term_text (pattern_of (which t)) (numbers t) ++ replicate (blanks t) " "%char.

(** What may stand in front of a term without changing how it is read: no
    parenthesis, no plus sign, and no digit or dot at the end. *)
Definition ignored (s : list ascii) : Prop :=
  ("("%char ∉ s) /\ ("+"%char ∉ s) /\ forall c, last s = Some c -> re.is_num c = false.

Definition well_written (t : term) : Prop :=
  which t < length patterns /\
  fits (pattern_of (which t)) (numbers t) /\
  ignored (junk t).

(** The terms joined by plus signs. *)
Fixpoint joined (parts : list (list ascii)) : list ascii :=
  match parts with
  | [] => []
  | [w] => w
  | w :: parts' => w ++ "+"%char :: joined parts'
  end.

(** ** Inputs used in the examples *)

Module Examples.
Local Open Scope float_scope.

(** [n] points on a line: an array of shape (n, 1). *)
Definition points (l : list float) : coords :=
  CoordArray (mkarray float64 [length l; 1%nat] l).

(** A 1-d float64 value array. *)
Definition values (l : list float) : ndarray := mkarray float64 [length l] l.

(** Stands for the C library's [pow] where an example never reaches it. *)
Definition unused_pow (x y : float) : float := nan.

(** Stands for [np.sum] in the examples: the entries added one after the
    other from the left, which is numpy's order for fewer than eight. *)
Definition add_reduce (l : list float) : float := foldl PrimFloat.add 0 l.

(** Stands for the inner product of the BLAS in the examples: every product
    rounded and added from the left. *)
Definition ddot (w v : list float) : float :=
  foldl PrimFloat.add 0 (zip_with PrimFloat.mul w v).

(** [Idw([[0],[1]], [[0]], nnearest=2, p=2.)]: the target lies on the first
    source point. *)
Definition on_source : Idw.t :=
  Idw.mk 1 2 2 2 (cKDTree.mk 2 1 [[0]; [1]]) [[0; 1]] [[0%nat; 1%nat]].

(** [Idw([[0],[4]], [[1]], nnearest=2, p=2.)]: the neighbours are at
    distances 1 and 3. *)
Definition between : Idw.t :=
  Idw.mk 1 2 2 2 (cKDTree.mk 2 1 [[0]; [4]]) [[1; 3]] [[0%nat; 1%nat]].

(** [Idw([[0],[2]], [[1]], nnearest=2, p=2.)]: the target lies midway
    between the two source points. *)
Definition midway : Idw.t :=
  Idw.mk 1 2 2 2 (cKDTree.mk 2 1 [[0]; [2]]) [[1; 1]] [[0%nat; 1%nat]].

(** [Idw([[2**-33],[1]], [[0]], nnearest=2, p=40.)]: the nearest source
    point is at a distance of 1.16e-10, the 40th power of which is below
    every double. *)
Definition tiny_and_one : Idw.t :=
  Idw.mk 1 2 2 40 (cKDTree.mk 2 1 [[0x1p-33]; [1]]) [[0x1p-33; 1]] [[0%nat; 1%nat]].

(** Whole numbers in an int32 array; 16777217 = 2**24 + 1 is no
    single-precision number. *)
Definition counts : ndarray := mkarray int32 [2%nat] [16777217; 6].

(** On a field of one ray every azimuth is 0, where the cosine is 1 and the
    sine is 0. *)
Definition cos_ray0 (x : float) : float := 1.
Definition sin_ray0 (x : float) : float := 0.

(** One ray of three range bins. *)
Definition ray (a b c : float) : ndarray := mkarray float64 [1%nat; 3%nat] [a; b; c].

Definition last_bin_masked : mask_array := mkmask [1%nat; 3%nat] [false; false; true].

(** Stands for Python's [float] where an example holds numbers of one
    digit only. *)
Definition digit (s : list ascii) : result float :=
  match s with
  | [c] => if ((48 <=? nat_of_ascii c) && (nat_of_ascii c <=? 57))%nat
           then Ok (np.of_nat (nat_of_ascii c - 48)%nat) else Raise ValueError
  | _ => Raise ValueError
  end.

(** Stands for the [k]-th covariance function: it answers with its
    parameters. *)
Definition cov (k : nat) (h : ndarray) (params : list float) : result ndarray :=
  Ok (mkarray float64 [S (length params)] (np.of_nat k :: params)).

End Examples.

(** * Properties *)

(** ** Lists, chunks and rows *)

Lemma bind_Ok {A B} (m : result A) (k : A -> result B) (b : B) :
  bind m k = Ok b <-> exists a, m = Ok a /\ k a = Ok b.
Proof.
  destruct m as [a|e]; simpl; split.
  - eauto.
  - intros (a' & [= <-] & H). done.
  - done.
  - intros (a' & [=] & _).
Qed.

Lemma mapR_Ok {A B} (f : A -> result B) (g : A -> B) (l : list A) :
  Forall (fun x => f x = Ok (g x)) l -> mapR f l = Ok (map g l).
Proof.
  induction 1 as [|x l Hx _ IH]; simpl; [done|]. by rewrite Hx, IH.
Qed.

Lemma mapR_Ok_inv {A B} (f : A -> result B) (l : list A) (r : list B) :
  mapR f l = Ok r -> Forall2 (fun x y => f x = Ok y) l r.
Proof.
  revert r. induction l as [|x l IH]; simpl; intros r H.
  - injection H as <-. constructor.
  - apply bind_Ok in H as (y & Hy & H). apply bind_Ok in H as (ys & Hys & [= <-]).
    constructor; auto.
Qed.

Lemma where_from_spec (c : list bool) (k i : nat) :
  i ∈ np.where_from k c <-> k <= i /\ c !! (i - k) = Some true.
Proof.
  revert k. induction c as [|b c IH]; intros k; simpl.
  - rewrite elem_of_nil. split; [done|]. intros [_ H]. by rewrite lookup_nil in H.
  - assert (Hrec : i ∈ np.where_from (S k) c <-> S k <= i /\ (b :: c) !! (i - k) = Some true).
    { rewrite IH. split; intros [Hle H]; split; try lia.
      - replace (i - k) with (S (i - S k)) by lia. done.
      - replace (i - k) with (S (i - S k)) in H by lia. done. }
    destruct b.
    + rewrite elem_of_cons, Hrec. split.
      * intros [->|[Hle H]]; [|split; [lia|done]].
        split; [lia|]. by rewrite Nat.sub_diag.
      * intros [Hle H]. destruct (decide (i = k)) as [->|]; [by left|right].
        split; [lia|done].
    + rewrite Hrec. split; intros [Hle H]; (split; [|done]); [lia|].
      destruct (decide (i = k)) as [->|]; [|lia]. by rewrite Nat.sub_diag in H.
Qed.

Lemma where1_spec (c : list bool) (i : nat) :
  i ∈ np.where1 c <-> c !! i = Some true.
Proof.
  unfold np.where1. rewrite where_from_spec, Nat.sub_0_r. split; [by intros []|]. split; [lia|done].
Qed.

Lemma where1_lt (c : list bool) (i : nat) : i ∈ np.where1 c -> i < length c.
Proof. rewrite where1_spec. apply lookup_lt_Some. Qed.

Lemma where1_Forall_lt (c : list bool) : Forall (fun i => i < length c) (np.where1 c).
Proof. apply Forall_forall. intros i. apply where1_lt. Qed.

Lemma where_from_replicate_false (n k : nat) : np.where_from k (replicate n false) = [].
Proof. revert k. induction n as [|n IH]; intros k; simpl; auto. Qed.

(** Selecting by the positions that satisfy [f] is filtering. *)
Lemma where_from_select {A B} (f : B -> bool) (g : nat -> A) (R : list A) (d : list B) (k : nat) :
  length R = length d ->
  (forall i x, R !! i = Some x -> g (k + i) = x) ->
  map g (np.where_from k (map f d)) = (filter (fun rv => f rv.2 = true) (zip R d)).*1.
Proof.
  revert R k. induction d as [|y d IH]; intros [|x R] k Hlen Hg; simplify_eq/=; [done|].
  assert (Hrec : map g (np.where_from (S k) (map f d))
                 = (filter (fun rv => f rv.2 = true) (zip R d)).*1).
  { apply IH; [done|]. intros i z Hz. rewrite <- (Hg (S i) z Hz). f_equal. lia. }
  rewrite filter_cons. simpl. destruct (f y) eqn:Hf.
  - rewrite decide_True by done. simpl. rewrite Hrec. f_equal.
    rewrite <- (Hg 0 x eq_refl). f_equal. lia.
  - rewrite decide_False by (by intros [=]). done.
Qed.

Lemma where_from_select_snd {A B} (f : B -> bool) (g : nat -> B) (R : list A) (d : list B) (k : nat) :
  length R = length d ->
  (forall i x, d !! i = Some x -> g (k + i) = x) ->
  map g (np.where_from k (map f d)) = (filter (fun rv => f rv.2 = true) (zip R d)).*2.
Proof.
  revert R k. induction d as [|y d IH]; intros [|x R] k Hlen Hg; simplify_eq/=; [done|].
  assert (Hrec : map g (np.where_from (S k) (map f d))
                 = (filter (fun rv => f rv.2 = true) (zip R d)).*2).
  { apply IH; [done|]. intros i z Hz. rewrite <- (Hg (S i) z Hz). f_equal. lia. }
  rewrite filter_cons. simpl. destruct (f y) eqn:Hf.
  - rewrite decide_True by done. simpl. rewrite Hrec. f_equal.
    rewrite <- (Hg 0 y eq_refl). f_equal. lia.
  - rewrite decide_False by (by intros [=]). done.
Qed.

Lemma chunks_length {A} (n sz : nat) (l : list A) : length (np.chunks n sz l) = n.
Proof. revert l. induction n as [|n IH]; intros l; simpl; auto. Qed.

Lemma chunks_lookup {A} (n sz : nat) (l : list A) (i : nat) :
  i < n -> np.chunks n sz l !! i = Some (take sz (drop (i * sz) l)).
Proof.
  revert l i. induction n as [|n IH]; intros l [|i] Hi; simpl; try lia.
  - done.
  - rewrite IH by lia. by rewrite drop_drop.
Qed.

Lemma chunks_concat {A} (sz : nat) (rs : list (list A)) :
  Forall (fun r => length r = sz) rs ->
  np.chunks (length rs) sz (concat rs) = rs.
Proof.
  induction 1 as [|r rs Hr _ IH]; simpl; [done|].
  rewrite take_app_length' by done. rewrite drop_app_length' by done. by rewrite IH.
Qed.

Lemma concat_chunks {A} (n sz : nat) (l : list A) :
  length l = n * sz -> concat (np.chunks n sz l) = l.
Proof.
  revert l. induction n as [|n IH]; intros l Hl; simpl.
  - by destruct l.
  - rewrite IH by (rewrite length_drop; lia). apply take_drop.
Qed.

Lemma take_ix_Ok {A} (l : list A) (ix : list nat) :
  Forall (fun i => i < length l) ix ->
  exists r, np.take_ix l ix = Ok r /\ length r = length ix /\ Forall (fun x => x ∈ l) r.
Proof.
  induction 1 as [|i ix Hi _ (r & Hr & Hlen & Hin)].
  - exists []. by repeat split.
  - destruct (lookup_lt_is_Some_2 l i Hi) as [x Hx].
    exists (x :: r). unfold np.take_ix in *. simpl. rewrite Hx, Hr. simpl.
    split; [done|]. split; [by rewrite Hlen|].
    constructor; [by eapply list_elem_of_lookup_2|done].
Qed.

Lemma size_nil : np.size [] = 1.
Proof. reflexivity. Qed.

Lemma size_cons (n : nat) (s : list nat) : np.size (n :: s) = n * np.size s.
Proof. reflexivity. Qed.

Lemma rows_lookup (a : ndarray) (n : nat) (s : list nat) (i : nat) :
  shape a = n :: s -> i < n -> np.rows a !! i = Some (np.row a i).
Proof.
  intros Hs Hi. unfold np.rows, np.row, np.nrows, np.row_size. rewrite Hs. simpl.
  by apply chunks_lookup.
Qed.

Lemma rows_length (a : ndarray) : length (np.rows a) = np.nrows a.
Proof. apply chunks_length. Qed.

Lemma row_length (a : ndarray) (n : nat) (s : list nat) (i : nat) :
  np.wf a -> shape a = n :: s -> i < n -> length (np.row a i) = np.size s.
Proof.
  unfold np.wf, np.row, np.row_size. intros Hwf Hs Hi. rewrite Hs in *. simpl in *.
  rewrite size_cons in Hwf. rewrite length_take, length_drop, Hwf. nia.
Qed.

Lemma row_1d (dt : np.dtype) (d : list float) (n i : nat) (x : float) :
  d !! i = Some x -> np.row (mkarray dt [n] d) i = [x].
Proof.
  intros Hx. unfold np.row, np.row_size. simpl. rewrite Nat.mul_1_r.
  rewrite (drop_S _ _ _ Hx). reflexivity.
Qed.

Lemma take_rows_Ok (a : ndarray) (n : nat) (s : list nat) (ix : list nat) :
  shape a = n :: s -> Forall (fun i => i < n) ix ->
  np.take_rows a ix = Ok (mkarray (dtype_of a) (length ix :: s) (concat (map (np.row a) ix))).
Proof.
  intros Hs Hix. unfold np.take_rows. rewrite Hs.
  rewrite (mapR_Ok _ (np.row a)); [done|].
  eapply Forall_impl; [exact Hix|]. intros i Hi. simpl.
  by apply Nat.ltb_lt in Hi as ->.
Qed.

Lemma take_rows_inv (a r : ndarray) (ix : list nat) :
  np.take_rows a ix = Ok r ->
  exists n s, shape a = n :: s /\ Forall (fun i => i < n) ix /\
    r = mkarray (dtype_of a) (length ix :: s) (concat (map (np.row a) ix)).
Proof.
  unfold np.take_rows. destruct (shape a) as [|n s] eqn:Hs; [done|].
  intros H. apply bind_Ok in H as (rs & Hrs & [= <-]).
  assert (Forall (fun i => i < n) ix /\ rs = map (np.row a) ix) as [Hix ->].
  { clear Hs. revert rs Hrs. induction ix as [|i ix IH]; simpl; intros rs Hrs.
    - by injection Hrs as <-.
    - apply bind_Ok in Hrs as (y & Hy & Hrs). apply bind_Ok in Hrs as (ys & Hys & [= <-]).
      destruct (i <? n) eqn:Hi; [|done]. injection Hy as <-.
      apply Nat.ltb_lt in Hi. destruct (IH _ Hys) as [? ->]. split; [by constructor|done]. }
  by exists n, s.
Qed.

Lemma take_rows_wf (a r : ndarray) (ix : list nat) :
  np.wf a -> np.take_rows a ix = Ok r -> np.wf r.
Proof.
  intros Hwf H. apply take_rows_inv in H as (n & s & Hs & Hix & ->).
  unfold np.wf. simpl. clear -Hwf Hs Hix.
  induction Hix as [|i ix Hi _ IH]; simpl; [by rewrite size_cons|].
  rewrite length_app, IH, (row_length a n s), !size_cons by done. simpl. lia.
Qed.

Lemma concat_singletons {A} (g : nat -> A) (h : nat -> list A) (ix : list nat) :
  Forall (fun i => h i = [g i]) ix -> concat (map h ix) = map g ix.
Proof. induction 1 as [|i ix Hi _ IH]; simpl; [done|]. by rewrite Hi, IH. Qed.

(** ** [interpolate] on 1-d values *)

Lemma interpolate_1d (src : ndarray) (trg : coords) (vals : ndarray) (I : Interpolator)
    (n : nat) (s : list nat) :
  shape src = n :: s -> shape vals = [n] -> length (data vals) = n ->
  interpolate (CoordArray src) trg vals I = interpolate_valid_rows src trg vals I.
Proof.
  intros Hsrc Hvals Hlen. unfold interpolate, interpolate_valid_rows, np.ndim.
  rewrite Hvals. simpl length. cbv iota. unfold np.isfinite.
  set (ix := np.where1 (map PrimFloat.is_finite (data vals))).
  assert (Hix : Forall (fun i => i < n) ix).
  { apply Forall_forall. intros i Hi. apply where1_lt in Hi. by rewrite length_map, Hlen in Hi. }
  assert (Hsel1 : map (np.row src) ix = (valid_rows src vals).*1).
  { apply where_from_select.
    - by rewrite rows_length; unfold np.nrows; rewrite Hsrc.
    - intros i x Hx. simpl.
      assert (i < n) by (apply lookup_lt_Some in Hx; by rewrite rows_length in Hx; unfold np.nrows in Hx; rewrite Hsrc in Hx).
      rewrite (rows_lookup src n s) in Hx by done. by injection Hx. }
  assert (Hsel2 : map (fun i => default nan (data vals !! i)) ix = (valid_rows src vals).*2).
  { apply where_from_select_snd.
    - by rewrite rows_length; unfold np.nrows; rewrite Hsrc.
    - intros i x Hx. simpl. by rewrite Hx. }
  assert (Hk : length (valid_rows src vals) = length ix).
  { by rewrite <- (length_fmap fst), <- Hsel1, length_map. }
  unfold coords_getitem. rewrite (take_rows_Ok src n s) by done. simpl.
  rewrite Hsrc. simpl. rewrite Hk, Hsel1.
  destruct (init I _ trg) as [ip|e]; [|done]. simpl.
  rewrite (take_rows_Ok vals n []) by done. simpl. rewrite <- Hsel2.
  rewrite (concat_singletons (fun i => default nan (data vals !! i))); [done|].
  eapply Forall_impl; [exact Hix|]. intros i Hi. simpl in *.
  destruct (data vals !! i) as [x|] eqn:Hx.
  - destruct vals as [dt sh d]. simpl in *. subst sh. by apply row_1d.
  - apply lookup_ge_None in Hx. lia.
Qed.

(** ** Broadcasting *)

Lemma size_app (s1 s2 : list nat) : np.size (s1 ++ s2) = np.size s1 * np.size s2.
Proof.
  induction s1 as [|n s1 IH]; simpl; [change (np.size []) with 1; lia|].
  rewrite !size_cons, IH. lia.
Qed.

Lemma size_replicate_1 (k : nat) : np.size (replicate k 1) = 1.
Proof. induction k as [|k IH]; [done|]. simpl replicate. rewrite size_cons, IH. lia. Qed.

Lemma size_reverse (s : list nat) : np.size (reverse s) = np.size s.
Proof.
  induction s as [|n s IH]; [done|].
  rewrite reverse_cons, size_app, IH, !size_cons, size_nil. lia.
Qed.

Lemma size_strip_ones (k : nat) (s : list nat) : np.size (np.strip_ones k s) = np.size s.
Proof.
  revert s. induction k as [|k IH]; intros [|[|[|n]] s]; simpl; try done.
  rewrite IH, (size_cons 1). lia.
Qed.

Lemma chunks_Forall_length {A} (n sz : nat) (l : list A) :
  length l = n * sz -> Forall (fun c => length c = sz) (np.chunks n sz l).
Proof.
  revert l. induction n as [|n IH]; intros l Hl; simpl; constructor.
  - rewrite length_take. lia.
  - apply IH. rewrite length_drop. lia.
Qed.

Lemma concat_length_uniform {A} (sz : nat) (rs : list (list A)) :
  Forall (fun r => length r = sz) rs -> length (concat rs) = length rs * sz.
Proof.
  induction 1 as [|r rs Hr _ IH]; simpl; [done|]. rewrite length_app, IH. lia.
Qed.

Lemma expand_length {A} (vs s : list nat) (d d' : list A) :
  np.expand vs s d = Some d' -> length d = np.size vs -> length d' = np.size s.
Proof.
  revert s d d'. induction vs as [|a vs IH]; intros [|n s] d d' H Hd; simplify_eq/=; [done|].
  rewrite size_cons in *. destruct (decide (a = n)) as [->|Hne].
  - destruct (mapM _ _) as [rs|] eqn:Hrs; simplify_eq/=.
    apply mapM_Some in Hrs.
    assert (Hc := chunks_Forall_length n (np.size vs) d Hd).
    assert (Forall (fun r => length r = np.size s) rs).
    { clear -IH Hrs Hc. induction Hrs as [|c r cs rs Hcr _ IH']; [constructor|].
      inversion Hc; subst. constructor; eauto. }
    rewrite (concat_length_uniform (np.size s)) by done.
    apply Forall2_length in Hrs. rewrite chunks_length in Hrs. by rewrite <- Hrs.
  - destruct (decide (a = 1)) as [->|]; [|done].
    destruct (np.expand vs s d) as [r|] eqn:Hr; simplify_eq/=.
    rewrite (concat_length_uniform (np.size s)).
    + by rewrite length_replicate.
    + apply Forall_replicate. apply (IH _ _ _ Hr). lia.
Qed.

Lemma broadcast_to_length {A} (vs s : list nat) (d d' : list A) :
  np.broadcast_to vs d s = Some d' -> length d = np.size vs -> length d' = np.size s.
Proof.
  unfold np.broadcast_to. destruct (_ <? _); [done|]. intros H Hd.
  apply (expand_length _ _ _ _ H).
  by rewrite size_app, size_replicate_1, size_strip_ones, Nat.mul_1_l.
Qed.

(** A flat value of as many entries as the destination has fills it as it
    is, whenever it can be broadcast at all. *)
Lemma expand_flat {A} (s : list nat) (d d' : list A) (N c : nat) :
  s <> [] -> N = c * np.size s -> 0 < N -> length d = N ->
  np.expand (replicate (length s - 1) 1 ++ [N]) s d = Some d' ->
  c = 1 /\ d' = d.
Proof.
  revert d d' c. induction s as [|n s IH]; [done|]. intros d d' c _ HN Hpos Hd.
  destruct s as [|n' s].
  - clear IH. simpl. rewrite size_cons, size_nil in HN.
    destruct (decide (N = n)) as [HNn|Hne].
    + subst N. intros H. assert (c = 1) as -> by nia. split; [done|].
      destruct (mapM _ _) as [rs|] eqn:Hrs; [|done]. injection H as <-.
      apply mapM_Some in Hrs.
      remember (np.chunks _ _ d) as cs eqn:Hcs.
      assert (rs = cs) as ->.
      { clear -Hrs. induction Hrs as [|x y xs ys Hxy _ IH]; [done|].
        injection Hxy as ->. by rewrite IH. }
      subst cs. apply concat_chunks. rewrite size_nil. lia.
    + destruct (decide (N = 1)) as [HN1|]; [|done]. intros _. exfalso.
      destruct n as [|[|n]], c as [|[|c]]; lia.
  - assert (Hrep : replicate (length (n :: n' :: s) - 1) 1 ++ [N]
                   = 1 :: (replicate (length (n' :: s) - 1) 1 ++ [N])).
    { simpl. by rewrite Nat.sub_0_r. }
    rewrite Hrep. rewrite size_cons in HN.
    cbn [np.expand]. destruct (decide (1 = n)) as [<-|Hne].
    + rewrite size_app, size_replicate_1. change (np.size [N]) with (N * 1).
      cbn [np.chunks]. replace (1 * (N * 1)) with N by lia.
      rewrite take_ge by lia. cbn [mapM]. unfold mbind, option_bind, mret, option_ret.
      destruct (np.expand _ (n' :: s) d) as [r|] eqn:Hr; [|done]. simpl.
      intros [= <-]. rewrite app_nil_r.
      apply (IH d r c); [done|lia|done|done|done].
    + rewrite decide_True by done.
      destruct (np.expand _ (n' :: s) d) as [r|] eqn:Hr; [|done].
      apply (IH d r (c * n)) in Hr; [|done|rewrite HN; apply Nat.mul_assoc|done|done].
      destruct Hr as [Hcn _]. intros _. exfalso.
      destruct c as [|[|c]], n as [|[|n]]; lia.
Qed.

Lemma broadcast_to_flat {A} (s : list nat) (d d' : list A) :
  length d = np.size s ->
  np.broadcast_to [np.size s] d s = Some d' -> d' = d.
Proof.
  intros Hd H.
  assert (Hlen : length d' = np.size s).
  { apply (broadcast_to_length _ _ _ _ H). rewrite size_cons. change (np.size []) with 1. lia. }
  destruct (decide (np.size s = 0)) as [H0|Hpos].
  { rewrite H0 in *. destruct d, d'; done. }
  revert H. unfold np.broadcast_to. destruct s as [|n s].
  - change (np.size []) with 1. simpl. by intros [= <-].
  - replace (length [np.size (n :: s)] - length (n :: s)) with 0 by (simpl; lia).
    cbn [np.strip_ones]. destruct (_ <? _) eqn:Hlt; [done|].
    change (length [np.size (n :: s)]) with 1. intros H.
    apply (expand_flat (n :: s) d d' _ 1) in H; [by destruct H|done|lia|lia|done].
Qed.

Lemma mapM_expand_nil {A} (cs : list (list A)) : mapM (np.expand (A:=A) [] []) cs = Some cs.
Proof. apply mapM_Some. induction cs; constructor; auto. Qed.

Lemma broadcast_to_same {A} (n : nat) (d : list A) :
  length d = n -> np.broadcast_to [n] d [n] = Some d.
Proof.
  intros Hd. unfold np.broadcast_to. simpl. rewrite decide_True by done.
  change (fun d0 : list A => Some d0) with (np.expand (A:=A) [] []).
  rewrite mapM_expand_nil. simpl. f_equal. apply concat_chunks. rewrite size_nil. lia.
Qed.

(** ** Writing one item of an array *)

Lemma take_concat_uniform {A} (sz j : nat) (rs : list (list A)) :
  Forall (fun r => length r = sz) rs -> take (j * sz) (concat rs) = concat (take j rs).
Proof.
  intros H. revert j. induction H as [|r rs Hr _ IH]; intros [|j]; simpl; try done.
  - by rewrite take_nil.
  - rewrite <- Hr at 1. by rewrite take_app_add', IH.
Qed.

Lemma drop_concat_uniform {A} (sz j : nat) (rs : list (list A)) :
  Forall (fun r => length r = sz) rs -> drop (j * sz) (concat rs) = concat (drop j rs).
Proof.
  intros H. revert j. induction H as [|r rs Hr _ IH]; intros [|j]; simpl; try done.
  - by rewrite drop_nil.
  - rewrite <- Hr at 1. by rewrite drop_app_add', IH.
Qed.

Lemma data_concat_rows (a : ndarray) (n : nat) (s : list nat) :
  np.wf a -> shape a = n :: s -> data a = concat (np.rows a).
Proof.
  unfold np.wf, np.rows, np.nrows, np.row_size. intros Hwf Hs. rewrite Hs in *. simpl.
  symmetry. apply concat_chunks. by rewrite Hwf, size_cons.
Qed.

Lemma rows_Forall_length (a : ndarray) (n : nat) (s : list nat) :
  np.wf a -> shape a = n :: s -> Forall (fun r => length r = np.size s) (np.rows a).
Proof.
  unfold np.wf, np.rows, np.nrows, np.row_size. intros Hwf Hs. rewrite Hs in *. simpl.
  apply chunks_Forall_length. by rewrite Hwf, size_cons.
Qed.

Lemma rows_of_concat (dt : np.dtype) (n : nat) (s : list nat) (rs : list (list float)) :
  length rs = n -> Forall (fun r => length r = np.size s) rs ->
  np.rows (mkarray dt (n :: s) (concat rs)) = rs.
Proof.
  intros <- H. unfold np.rows, np.nrows, np.row_size. simpl. by apply chunks_concat.
Qed.

Lemma setitem_inv (a v a' : ndarray) (j n : nat) (s : list nat) :
  shape a = n :: s -> np.setitem a j v = Ok a' ->
  j < n /\ exists d,
    np.broadcast_to (shape v) (map (np.cast (dtype_of v) (dtype_of a)) (data v)) s = Some d /\
    a' = mkarray (dtype_of a) (n :: s)
           (take (j * np.size s) (data a) ++ d ++ drop (S j * np.size s) (data a)).
Proof.
  intros Hs. unfold np.setitem. rewrite Hs. destruct (j <? n) eqn:Hj; [|done].
  apply Nat.ltb_lt in Hj. intros H. split; [done|].
  destruct (np.broadcast_to _ _ s) as [d|]; [|done]. simpl in H. injection H as <-. eauto.
Qed.

Lemma setitem_rows (a v a' : ndarray) (j n : nat) (s : list nat) :
  np.wf a -> np.wf v -> shape a = n :: s -> np.setitem a j v = Ok a' ->
  exists d,
    np.broadcast_to (shape v) (map (np.cast (dtype_of v) (dtype_of a)) (data v)) s = Some d /\
    j < n /\ length d = np.size s /\
    dtype_of a' = dtype_of a /\ shape a' = n :: s /\ np.wf a' /\
    np.rows a' = <[j:=d]> (np.rows a).
Proof.
  intros Hwf Hwfv Hs H. destruct (setitem_inv _ _ _ _ _ _ Hs H) as (Hj & d & Hd & ->).
  exists d. split; [done|]. split; [done|].
  assert (Hlen : length d = np.size s).
  { apply (broadcast_to_length _ _ _ _ Hd). by rewrite length_map. }
  split; [done|]. split; [done|]. split; [done|].
  assert (HF := rows_Forall_length a n s Hwf Hs).
  assert (Hn : length (np.rows a) = n) by (rewrite rows_length; unfold np.nrows; by rewrite Hs).
  rewrite (data_concat_rows a n s Hwf Hs).
  rewrite (take_concat_uniform _ _ _ HF), (drop_concat_uniform _ _ _ HF).
  assert (Hupd : concat (take j (np.rows a)) ++ d ++ concat (drop (S j) (np.rows a))
                 = concat (<[j:=d]> (np.rows a))).
  { rewrite insert_take_drop by lia. by rewrite concat_app, concat_cons. }
  rewrite Hupd.
  assert (HF' : Forall (fun r => length r = np.size s) (<[j:=d]> (np.rows a))).
  { apply Forall_insert; done. }
  split.
  - unfold np.wf. simpl. rewrite (concat_length_uniform (np.size s)) by done.
    by rewrite length_insert, Hn, size_cons.
  - apply rows_of_concat; [by rewrite length_insert|done].
Qed.

(** ** The loop of [Idw.__call__] *)

Lemma getitem_inv (a r : ndarray) (i : nat) :
  np.getitem a i = Ok r ->
  exists n s, shape a = n :: s /\ i < n /\ r = mkarray (dtype_of a) s (np.row a i).
Proof.
  unfold np.getitem. destruct (shape a) as [|n s]; [done|].
  destruct (i <? n) eqn:Hi; [|done]. apply Nat.ltb_lt in Hi. intros [= <-]. eauto.
Qed.

Lemma getitem_wf (a r : ndarray) (i : nat) : np.wf a -> np.getitem a i = Ok r -> np.wf r.
Proof.
  intros Hwf H. apply getitem_inv in H as (n & s & Hs & Hi & ->).
  unfold np.wf. simpl. by apply (row_length a n s).
Qed.

Lemma dot_wf (ddot : list float -> list float -> float) (w : list float)
    (v r : ndarray) : np.dot ddot w v = Ok r -> np.wf r.
Proof.
  unfold np.dot. destruct (reverse (shape v)) as [|b [|a outer]].
  - done.
  - destruct (decide _); [|done]. intros [= <-]. done.
  - destruct (decide _); [|done]. intros [= <-]. unfold np.wf. simpl.
    rewrite size_app, size_reverse, size_cons, size_nil.
    rewrite (concat_length_uniform b).
    + rewrite length_map, chunks_length. lia.
    + apply Forall_map, Forall_forall. intros blk _. simpl. by rewrite length_map, length_seq.
Qed.

Lemma target_wf (add_reduce : list float -> float)
    (ddot : list float -> list float -> float) (pow : float -> float -> float)
    (self : Idw.t) (vals wz : ndarray)
    (dist : list float) (ix : list nat) :
  np.wf vals -> Idw.target add_reduce ddot pow self vals dist ix = Ok wz -> np.wf wz.
Proof.
  intros Hwf. unfold Idw.target.
  intros H. apply bind_Ok in H as (dist' & _ & H). apply bind_Ok in H as (ix' & _ & H).
  destruct (decide (Idw.nnearest self = 1)).
  - by apply (take_rows_wf vals wz ix').
  - apply bind_Ok in H as (d0 & _ & H). destruct (PrimFloat.ltb d0 _).
    + apply bind_Ok in H as (i0 & _ & H). by apply (getitem_wf vals wz i0).
    + apply bind_Ok in H as (v & _ & H). by apply dot_wf in H.
Qed.

(** What the loop leaves in [interpol]: the items before [jinterpol] and after
    the listed targets are untouched, and the item of the [k]-th listed
    target is its value [wz], flattened, converted to the dtype of [interpol]
    and broadcast to the shape of an item. *)
Lemma loop_spec (add_reduce : list float -> float)
    (ddot : list float -> list float -> float) (pow : float -> float -> float)
    (self : Idw.t) (vals : ndarray)
    (todo : list (list float * list nat)) (j : nat) (interpol out : ndarray)
    (n : nat) (s : list nat) :
  np.wf vals -> np.wf interpol -> shape interpol = n :: s ->
  Idw.loop add_reduce ddot pow self vals todo j interpol = Ok out ->
  dtype_of out = dtype_of interpol /\ shape out = n :: s /\ np.wf out /\
  (forall i, i < j -> np.rows out !! i = np.rows interpol !! i) /\
  (forall k dist ix, todo !! k = Some (dist, ix) ->
     exists wz d,
       Idw.target add_reduce ddot pow self vals dist ix = Ok wz /\
       np.broadcast_to [np.size (shape wz)]
         (map (np.cast (dtype_of wz) (dtype_of interpol)) (data wz)) s = Some d /\
       np.rows out !! (j + k) = Some d).
Proof.
  intros Hvals. revert j interpol. induction todo as [|[dist ix] todo IH];
    intros j interpol Hwf Hs H; simpl in H.
  - injection H as <-. repeat split; done.
  - apply bind_Ok in H as (wz & Hwz & H). apply bind_Ok in H as (a1 & Ha1 & H).
    assert (Hwz_wf : np.wf (np.ravel wz)).
    { apply target_wf in Hwz; [|done]. unfold np.wf in *. simpl.
      by rewrite size_cons, size_nil, Nat.mul_1_r. }
    destruct (setitem_rows _ _ _ _ _ _ Hwf Hwz_wf Hs Ha1)
      as (d & Hd & Hj & Hlen & Hdt & Hs1 & Hwf1 & Hrows).
    destruct (IH (S j) a1 Hwf1 Hs1 H) as (Hdt' & Hs' & Hwf' & Hbefore & Hk).
    split; [congruence|]. split; [done|]. split; [done|]. split.
    + intros i Hi. rewrite Hbefore by lia. rewrite Hrows.
      apply list_lookup_insert_ne. lia.
    + intros [|k] dist' ix' Hlk; simpl in Hlk.
      * injection Hlk as <- <-. exists wz, d. split; [done|]. split; [exact Hd|].
        rewrite Nat.add_0_r, Hbefore by lia. rewrite Hrows.
        apply list_lookup_insert_eq. rewrite rows_length. unfold np.nrows. by rewrite Hs.
      * destruct (Hk k dist' ix' Hlk) as (wz' & d' & ? & ? & ?).
        exists wz', d'. rewrite Hdt in *. replace (j + S k) with (S j + k) by lia. done.
Qed.

(** ** [Idw.__call__] *)

(** The output array before the loop: NaN everywhere. *)
Lemma interpol_init (s : list nat) :
  np.reshape (np.array1 float64 (np.repeat [nan] (util._shape2size s))) s
  = Ok (mkarray float64 s (replicate (np.size s) nan)).
Proof.
  unfold np.reshape, np.repeat, np.array1. cbn [shape data dtype_of map concat].
  rewrite app_nil_r, length_replicate, size_cons, size_nil.
  change (util._shape2size s) with (np.size s).
  rewrite decide_True by lia. done.
Qed.

Lemma interpol_init_wf (s : list nat) :
  np.wf (np.astype float32 (mkarray float64 s (replicate (np.size s) nan))).
Proof. unfold np.wf. simpl. by rewrite length_map, length_replicate. Qed.

(** Every evaluation that returns: the output is a float32 array of shape
    (number of targets, ...) with the trailing shape of the values, and the
    item of target [j] is the value [wz] that the loop body computes for it,
    converted to float32. *)
Lemma Idw_call_spec (add_reduce : list float -> float)
    (ddot : list float -> list float -> float) (pow : float -> float -> float)
    (self : Idw.t) (vals out : ndarray) :
  np.wf vals -> Idw.__call__ add_reduce ddot pow self vals = Ok out ->
  dtype_of out = float32 /\
  shape out = length (Idw.dists self) :: tail (shape vals) /\
  np.wf out /\
  forall j dist ix, zip (Idw.dists self) (Idw.ix self) !! j = Some (dist, ix) ->
    exists wz d,
      Idw.target add_reduce ddot pow self vals dist ix = Ok wz /\
      np.broadcast_to [np.size (shape wz)]
        (map (np.cast (dtype_of wz) float32) (data wz)) (tail (shape vals)) = Some d /\
      np.row out j = d.
Proof.
  intros Hwf. unfold Idw.__call__. destruct (shape vals) as [|n s] eqn:Hs; [done|].
  rewrite interpol_init. cbn [bind]. intros H. simpl tail.
  eapply loop_spec in H; [|done|apply interpol_init_wf|reflexivity].
  destruct H as (Hdt & Hshape & Hwfo & _ & Hk).
  split; [done|]. split; [done|]. split; [done|].
  intros j dist ix Hj. destruct (Hk j dist ix Hj) as (wz & d & Hwz & Hd & Hrow).
  exists wz, d. split; [done|]. split; [exact Hd|].
  assert (j < length (Idw.dists self)).
  { apply lookup_lt_Some in Hj. rewrite length_zip in Hj. lia. }
  simpl in Hrow. rewrite (rows_lookup out _ s) in Hrow by done. by injection Hrow.
Qed.

Lemma take_ix_length {A} (l r : list A) (ix : list nat) :
  np.take_ix l ix = Ok r -> length r = length ix.
Proof. intros H. apply mapR_Ok_inv in H. by apply Forall2_length in H. Qed.

Lemma reverse_eq_nil {A} (l : list A) : reverse l = [] -> l = [].
Proof. intros H. apply (f_equal length) in H. rewrite length_reverse in H. by destruct l. Qed.

Lemma dot_shape_size (ddot : list float -> list float -> float) (w : list float)
    (v wz : ndarray) (k : nat) (s : list nat) :
  np.dot ddot w v = Ok wz -> shape v = k :: s -> length w = k ->
  np.size (shape wz) = np.size s /\ dtype_of wz = float64.
Proof.
  unfold np.dot. intros H Hs Hw. rewrite Hs, reverse_cons in H.
  destruct (reverse s) as [|b r] eqn:Hr.
  - apply reverse_eq_nil in Hr as ->. simpl in H.
    destruct (decide _); [|done]. by injection H as <-.
  - assert (Hsz : np.size s = np.size (b :: r)) by (by rewrite <- Hr, size_reverse).
    destruct r as [|a r]; simpl in H.
    + destruct (decide _); [|done]. injection H as <-. simpl. split; [|done].
      by rewrite Hsz.
    + destruct (decide (length w = a)) as [Ha|]; [|done]. injection H as <-. simpl.
      split; [|done].
      rewrite Hsz, size_app, size_reverse, size_app, !size_cons, size_nil. subst. lia.
Qed.

(** ** The spatial index *)

Lemma insert_elem_of (p q : float * nat) (l : list (float * nat)) :
  q ∈ cKDTree.insert p l <-> q = p \/ q ∈ l.
Proof.
  induction l as [|r l IH]; simpl.
  - rewrite list_elem_of_singleton, elem_of_nil. tauto.
  - destruct (PrimFloat.leb _ _).
    + by rewrite elem_of_cons.
    + rewrite !elem_of_cons, IH. tauto.
Qed.

Lemma sort_elem_of (q : float * nat) (l : list (float * nat)) :
  q ∈ cKDTree.sort l <-> q ∈ l.
Proof.
  unfold cKDTree.sort. induction l as [|p l IH]; simpl; [done|].
  by rewrite insert_elem_of, elem_of_cons, IH.
Qed.

(** A reported neighbour is a data point, with its index and its distance,
    closer than the infinite upper bound. *)
Lemma neighbours_elem_of (tr : cKDTree.t) (x : list float) (d : float) (i : nat) :
  (d, i) ∈ cKDTree.neighbours tr x <->
  exists y, cKDTree.points tr !! i = Some y /\ d = cKDTree.distance x y /\
            (d <? infinity)%float = true.
Proof.
  unfold cKDTree.neighbours. rewrite sort_elem_of, list_elem_of_filter. simpl.
  rewrite elem_of_lookup_imap. split.
  - intros (Hd & j & y & [= -> ->] & Hy). eauto.
  - intros (y & Hy & -> & Hd). split; [done|]. eauto.
Qed.

(** ** When [Idw.__call__] returns *)

Lemma setitem_Ok (a v : ndarray) (j n : nat) (s : list nat) (d : list float) :
  shape a = n :: s -> j < n ->
  np.broadcast_to (shape v) (map (np.cast (dtype_of v) (dtype_of a)) (data v)) s = Some d ->
  is_ok (np.setitem a j v) = true.
Proof.
  intros Hs Hj Hd. unfold np.setitem. rewrite Hs.
  apply Nat.ltb_lt in Hj. by rewrite Hj, Hd.
Qed.

(** A flat value fills an item of rank 0 or 1 of the same size. *)
Lemma broadcast_to_item {A} (s : list nat) (d : list A) :
  length s <= 1 -> length d = np.size s -> np.broadcast_to [np.size s] d s = Some d.
Proof.
  intros Hs Hd. destruct s as [|m [|? ?]]; [done| |simpl in Hs; lia].
  rewrite size_cons, size_nil, Nat.mul_1_r in *. by apply broadcast_to_same.
Qed.

Lemma dot_Ok (ddot : list float -> list float -> float) (w : list float)
    (v : ndarray) (k : nat) (s : list nat) :
  shape v = k :: s -> length s <= 1 -> length w = k -> is_ok (np.dot ddot w v) = true.
Proof.
  intros Hv Hs Hw. unfold np.dot. rewrite Hv.
  destruct s as [|m [|? ?]]; [| |simpl in Hs; lia]; simpl; by rewrite decide_True.
Qed.

Lemma is_ok_true {A} (r : result A) : is_ok r = true -> exists a, r = Ok a.
Proof. destruct r; [eauto|done]. Qed.

Lemma where_from_length (c : list bool) (k : nat) : length (np.where_from k c) <= length c.
Proof.
  revert k. induction c as [|b c IH]; intros k; simpl; [done|].
  specialize (IH (S k)). destruct b; simpl; lia.
Qed.

Lemma Forall2_Forall_transfer {A B} (P : A -> B -> Prop) (Q : A -> Prop) (R : B -> Prop)
    (l : list A) (k : list B) :
  (forall x y, P x y -> Q x -> R y) -> Forall2 P l k -> Forall Q l -> Forall R k.
Proof.
  intros HPQ H. induction H as [|x y l k Hxy _ IH]; intros HQ; [done|].
  apply Forall_cons in HQ as [Hx HQ]. constructor; eauto.
Qed.

(** The neighbours at a finite distance of a target that has one. *)
Lemma take_ix_valid (dist : list float) (ix : list nat) (n : nat) :
  length dist = length ix ->
  (exists d, d ∈ dist /\ PrimFloat.is_finite d = true) ->
  (forall k d i, dist !! k = Some d -> ix !! k = Some i ->
                 PrimFloat.is_finite d = true -> i < n) ->
  exists d0 dist' i0 ix',
    np.take_ix dist (np.where1 (map PrimFloat.is_finite dist)) = Ok (d0 :: dist') /\
    np.take_ix ix (np.where1 (map PrimFloat.is_finite dist)) = Ok (i0 :: ix') /\
    length dist' = length ix' /\ S (length dist') <= length dist /\
    Forall (fun i => i < n) (i0 :: ix').
Proof.
  intros Hlen (d & Hd & Hfin) Hn.
  set (valid := np.where1 (map PrimFloat.is_finite dist)).
  assert (Hvalid : Forall (fun i => i < length dist) valid).
  { rewrite <- (length_map PrimFloat.is_finite dist). apply where1_Forall_lt. }
  destruct (take_ix_Ok dist valid Hvalid) as (r1 & Hr1 & Hl1 & _).
  assert (Hvalid' : Forall (fun i => i < length ix) valid) by (by rewrite <- Hlen).
  destruct (take_ix_Ok ix valid Hvalid') as (r2 & Hr2 & Hl2 & _).
  assert (Hne : valid <> []).
  { apply list_elem_of_lookup in Hd as [k Hk].
    assert (k ∈ valid) as Hin.
    { apply where1_spec. by rewrite list_lookup_fmap, Hk, <- Hfin. }
    intros E. rewrite E in Hin. by apply elem_of_nil in Hin. }
  assert (Hle : length valid <= length dist).
  { rewrite <- (length_map PrimFloat.is_finite dist). apply where_from_length. }
  assert (Hr2n : Forall (fun i => i < n) r2).
  { apply mapR_Ok_inv in Hr2.
    eapply (Forall2_Forall_transfer _ (fun k => k ∈ valid)); [|exact Hr2|].
    - intros k i Hki Hk. apply where1_spec in Hk. rewrite list_lookup_fmap in Hk.
      destruct (dist !! k) as [dk|] eqn:Hdk; [|done]. injection Hk as Hk.
      simpl in Hki. destruct (ix !! k) as [ik|] eqn:Hik; [|done].
      injection Hki as <-. eauto.
    - by apply Forall_forall. }
  destruct r1 as [|d0 dist']; [by destruct valid|].
  destruct r2 as [|i0 ix']; [by destruct valid|].
  exists d0, dist', i0, ix'. simpl in *. repeat split; [done|done|lia|lia|done].
Qed.

Lemma weights_length (add_reduce : list float -> float) (pow : float -> float -> float)
    (p : float) (dist : list float) :
  length (Idw.weights add_reduce pow p dist) = length dist.
Proof. unfold Idw.weights. by rewrite !length_map. Qed.

(** The loop body returns for a target with a usable neighbour row, on
    values of rank 1 or 2; its value has the size of an item. *)
Lemma target_Ok (add_reduce : list float -> float)
    (ddot : list float -> list float -> float) (pow : float -> float -> float)
    (self : Idw.t) (vals : ndarray)
    (dist : list float) (ix : list nat) (n : nat) (s : list nat) :
  np.wf vals -> shape vals = n :: s -> length s <= 1 ->
  length dist = length ix ->
  (Idw.nnearest self = 1 -> length dist = 1) ->
  (exists d, d ∈ dist /\ PrimFloat.is_finite d = true) ->
  (forall k d i, dist !! k = Some d -> ix !! k = Some i ->
                 PrimFloat.is_finite d = true -> i < n) ->
  exists wz, Idw.target add_reduce ddot pow self vals dist ix = Ok wz /\ np.wf wz /\
             np.size (shape wz) = np.size s.
Proof.
  intros Hwf Hs Hrank Hlen Hone Hfin Hn.
  destruct (take_ix_valid dist ix n Hlen Hfin Hn)
    as (d0 & dist' & i0 & ix' & Hdist & Hix & Hlen' & Hle & Hlt).
  unfold Idw.target. rewrite Hdist, Hix. cbn [bind].
  destruct (decide (Idw.nnearest self = 1)) as [H1|H1].
  - rewrite (Hone H1) in Hle. destruct dist'; [|simpl in Hle; lia].
    destruct ix'; [|done].
    pose proof (take_rows_Ok vals n s [i0] Hs Hlt) as Hv.
    eexists. split; [exact Hv|]. split; [by eapply take_rows_wf|].
    simpl. rewrite size_cons. lia.
  - simpl. destruct (PrimFloat.ltb d0 _); simpl.
    + apply Forall_cons in Hlt as [Hi0 _].
      assert (Hg : np.getitem vals i0 = Ok (mkarray (dtype_of vals) s (np.row vals i0))).
      { unfold np.getitem. rewrite Hs. apply Nat.ltb_lt in Hi0. by rewrite Hi0. }
      eexists. split; [exact Hg|]. split; [by eapply getitem_wf|done].
    + pose proof (take_rows_Ok vals n s (i0 :: ix') Hs Hlt) as Hv. rewrite Hv. cbn [bind].
      set (w := Idw.weights add_reduce pow (Idw.p self) (d0 :: dist')).
      set (v := mkarray _ _ _).
      assert (Hw : length w = length (i0 :: ix')).
      { unfold w. rewrite weights_length. simpl. by rewrite Hlen'. }
      destruct (is_ok_true _ (dot_Ok ddot w v _ s eq_refl Hrank Hw)) as [wz Hwz].
      exists wz. split; [done|]. split; [by eapply dot_wf|].
      by destruct (dot_shape_size ddot w v wz _ s Hwz eq_refl Hw).
Qed.

Lemma loop_Ok (add_reduce : list float -> float)
    (ddot : list float -> list float -> float) (pow : float -> float -> float)
    (self : Idw.t) (vals : ndarray)
    (todo : list (list float * list nat)) (j : nat) (interpol : ndarray)
    (numtargets n : nat) (s : list nat) :
  np.wf vals -> shape vals = n :: s -> length s <= 1 ->
  np.wf interpol -> shape interpol = numtargets :: s -> j + length todo <= numtargets ->
  Forall (usable self n) todo ->
  is_ok (Idw.loop add_reduce ddot pow self vals todo j interpol) = true.
Proof.
  intros Hwf Hs Hrank. revert j interpol.
  induction todo as [|[dist ix] todo IH]; intros j interpol Hwfi Hsi Hj Hall; [done|].
  apply Forall_cons in Hall as [(Hlen & Hone & Hfin & Hn) Hall]. simpl in *.
  destruct (target_Ok add_reduce ddot pow self vals dist ix n s Hwf Hs Hrank Hlen Hone Hfin Hn)
    as (wz & Hwz & Hwfz & Hsz).
  rewrite Hwz. cbn [bind].
  assert (Hd : np.broadcast_to (shape (np.ravel wz))
                 (map (np.cast (dtype_of (np.ravel wz)) (dtype_of interpol))
                    (data (np.ravel wz))) s
               = Some (map (np.cast (dtype_of wz) (dtype_of interpol)) (data wz))).
  { simpl. rewrite Hsz. apply broadcast_to_item; [done|].
    rewrite length_map. unfold np.wf in Hwfz. congruence. }
  assert (Hj' : j < numtargets) by lia.
  destruct (is_ok_true _ (setitem_Ok interpol (np.ravel wz) j numtargets s _ Hsi Hj' Hd))
    as [a1 Ha1].
  rewrite Ha1. cbn [bind].
  assert (Hwfr : np.wf (np.ravel wz)).
  { unfold np.wf in *. simpl. by rewrite size_cons, size_nil, Nat.mul_1_r. }
  destruct (setitem_rows _ _ _ _ _ _ Hwfi Hwfr Hsi Ha1) as (_ & _ & _ & _ & _ & Hs1 & Hwf1 & _).
  apply IH; [done|done|lia|done].
Qed.

(** An evaluation on values of rank 1 or 2 whose items cover the usable
    neighbours of every target returns. *)
Lemma Idw_call_Ok (add_reduce : list float -> float)
    (ddot : list float -> list float -> float) (pow : float -> float -> float)
    (self : Idw.t) (vals : ndarray)
    (n : nat) (s : list nat) :
  np.wf vals -> shape vals = n :: s -> length s <= 1 ->
  length (Idw.ix self) = length (Idw.dists self) ->
  neighbours_within self n ->
  is_ok (Idw.__call__ add_reduce ddot pow self vals) = true.
Proof.
  intros Hwf Hs Hrank Hlen Hall. unfold Idw.__call__. rewrite Hs, interpol_init. cbn [bind].
  eapply loop_Ok; [done|done|done|apply interpol_init_wf|reflexivity| |exact Hall].
  rewrite length_zip. lia.
Qed.

(** The neighbour table that the constructor builds is usable on values
    with at least as many items as there are source points, where every
    target has a neighbour at a finite distance. *)
Lemma Idw_init_neighbours (src trg : coords) (nnearest : nat) (p : float) (self : Idw.t)
    (n : nat) :
  Idw.__init__ src trg nnearest p = Ok self ->
  Idw.numsources self <= n ->
  Forall (fun dist => exists d, d ∈ dist /\ PrimFloat.is_finite d = true) (Idw.dists self) ->
  length (Idw.ix self) = length (Idw.dists self) /\ neighbours_within self n.
Proof.
  unfold Idw.__init__. intros H Hn Hfin.
  apply bind_Ok in H as (src' & _ & H). apply bind_Ok in H as (trg' & _ & H).
  apply bind_Ok in H as (nt & _ & H). apply bind_Ok in H as (ns & Hns & H).
  apply bind_Ok in H as (tree & Htree & H). apply bind_Ok in H as (q & Hq & [= <-]).
  simpl in *.
  unfold cKDTree.build in Htree. unfold np.len in Hns.
  destruct (shape src') as [|n0 [|m [|? ?]]] eqn:Hsrc; try done.
  injection Hns as <-. injection Htree as <-.
  unfold cKDTree.query in Hq. destruct (shape trg') as [|? [|dm [|? ?]]]; try done.
  destruct (decide _); [|done]. destruct (decide _); [done|]. injection Hq as <-.
  simpl in *. split; [by rewrite !length_map|].
  unfold neighbours_within. simpl.
  apply Forall_forall. intros [dist ix] Hin.
  apply list_elem_of_lookup in Hin as [j Hj].
  apply lookup_zip_with_Some in Hj as (dist0 & ix0 & [= <- <-] & Hdj & Hij).
  rewrite !list_lookup_fmap in Hdj. rewrite !list_lookup_fmap in Hij.
  destruct (np.rows trg' !! j) as [x|] eqn:Hx; [|done]. simpl in Hdj, Hij.
  injection Hdj as <-. injection Hij as <-.
  set (tr := cKDTree.mk n0 m (np.rows src')).
  assert (Hk : length (cKDTree.knn tr nnearest x) = nnearest).
  { unfold cKDTree.knn. rewrite length_app, length_replicate.
    pose proof (length_take_le (cKDTree.neighbours tr x) nnearest). rewrite length_take. lia. }
  unfold usable. simpl. rewrite !length_map. repeat split.
  - congruence.
  - rewrite Forall_forall in Hfin. apply Hfin.
    apply list_elem_of_fmap. exists (cKDTree.knn tr nnearest x). split; [done|].
    apply list_elem_of_fmap. exists x. split; [done|]. by eapply list_elem_of_lookup_2.
  - intros k d i Hd Hi Hf.
    rewrite list_lookup_fmap in Hd. rewrite list_lookup_fmap in Hi.
    destruct (cKDTree.knn tr nnearest x !! k) as [[d' i']|] eqn:Hki; [|done].
    simpl in Hd, Hi. injection Hd as ->. injection Hi as ->.
    apply list_elem_of_lookup_2 in Hki. unfold cKDTree.knn in Hki.
    apply elem_of_app in Hki as [Hki|Hki].
    + apply elem_of_take in Hki as (? & Hki & _). apply list_elem_of_lookup_2 in Hki.
      apply neighbours_elem_of in Hki as (y & Hy & _). simpl in Hy.
      apply lookup_lt_Some in Hy. rewrite rows_length in Hy. unfold np.nrows in Hy.
      rewrite Hsrc in Hy. simpl in Hy. lia.
    + apply elem_of_replicate in Hki as [[= -> ->] _]. done.
Qed.

(** ** [interpolate] on value arrays of rank 3 and more *)

(** C1 (the code departs from the claim). For a value array of rank >= 3
    [interpolate] never returns: when the array holds no NaN it raises the
    exception that announces NaN values as unsupported, and when it holds a
    NaN it builds the interpolator and then fails on the unbound local
    [ix_valid]. The claim asks for the opposite: a result without NaN
    entries, the error with them. *)
Theorem interpolate_rank3_raises (src trg : coords) (I : Interpolator)
    (dt : np.dtype) (n0 n1 n2 : nat) (s : list nat) (d : list float) :
  let vals := mkarray dt (n0 :: n1 :: n2 :: s) d in
  interpolate src trg vals I =
    (if np.any (map PrimFloat.is_nan d)
     then let* _ := init I src trg in Raise UnboundLocalError
     else Raise (Exception "At the moment, <interpolate> can only deal with NaN values in <vals> if vals has less than 3 dimension."))
  /\ is_ok (interpolate src trg vals I) = false.
Proof.
  cbn zeta. unfold interpolate, np.ndim. cbn [shape length np.isnan np.ravel data].
  destruct (np.any _); cbn [negb].
  - split; [reflexivity|]. destruct (init I src trg); reflexivity.
  - split; reflexivity.
Qed.

(** The smallest instance: a 1x1x1 array holding 1.0, no NaN anywhere. *)
Lemma interpolate_rank3_finite_example :
  interpolate (Examples.points [0; 10]%float) (Examples.points [5]%float)
    (mkarray float64 [1; 1; 1] [1%float]) Nearest_class
  = Raise (Exception "At the moment, <interpolate> can only deal with NaN values in <vals> if vals has less than 3 dimension.").
Proof. reflexivity. Qed.

(** ** Evaluation without the shape check *)

(** C2 (the code departs from the claim). [Idw.__call__] never calls
    [_check_shape]: built on two source points and called on three values it
    returns a result, where [Nearest.__call__] on the same input fails the
    assertion. More generally an interpolator built by the constructor
    returns a result on every value array of rank 1 or 2 with MORE items
    than there are source points, when every target has a neighbour at a
    finite distance. *)
Theorem Idw_call_unchecked_length (add_reduce : list float -> float)
    (ddot : list float -> list float -> float) (pow : float -> float -> float) :
  (let* ip := Idw.__init__ (Examples.points [0; 1]%float) (Examples.points [0]%float) 2 2%float in
   Idw.__call__ add_reduce ddot pow ip (Examples.values [5; 6; 7]%float))
  = Ok (mkarray float32 [1] [5%float])
  /\
  (let* ip := Nearest.__init__ (Examples.points [0; 1]%float) (Examples.points [0]%float) in
   Nearest.__call__ ip (Examples.values [5; 6; 7]%float) None)
  = Raise AssertionError
  /\
  (forall src trg nnearest p self vals n s,
     Idw.__init__ src trg nnearest p = Ok self ->
     np.wf vals -> shape vals = n :: s -> length s <= 1 ->
     Idw.numsources self < n ->
     Forall (fun dist => exists d, d ∈ dist /\ PrimFloat.is_finite d = true)
       (Idw.dists self) ->
     exists out, Idw.__call__ add_reduce ddot pow self vals = Ok out).
Proof.
  split; [vm_compute; reflexivity|]. split; [vm_compute; reflexivity|].
  intros src trg nnearest p self vals n s Hinit Hwf Hs Hrank Hn Hfin.
  destruct (Idw_init_neighbours src trg _ _ self n Hinit (Nat.lt_le_incl _ _ Hn) Hfin)
    as [Hlen Hall].
  apply is_ok_true. exact (Idw_call_Ok add_reduce ddot pow self vals n s Hwf Hs Hrank Hlen Hall).
Qed.

(** ** The distance threshold of [Nearest] on values with several columns *)

(** C6 (the code departs from the claim). With a threshold, [np.where]
    aligns the per-target condition with the LAST axis of the values: two
    targets at distances 1 and 4 from their nearest source, threshold 2 and
    two value columns give NaN in the second column of both rows, not a NaN
    row for the second target. *)
Theorem Nearest_maxdist_two_columns :
  (let* ip := Nearest.__init__ (Examples.points [0; 10]%float) (Examples.points [1; 4]%float) in
   Nearest.__call__ ip (mkarray float64 [2; 2] [1; 2; 3; 4]%float) (Some 2%float))
  = Ok (mkarray float64 [2; 2] [1; nan; 1; nan]%float).
Proof. vm_compute. reflexivity. Qed.

(** ** [Idw] on value arrays of rank 3 *)

(** C9 (the code departs from the claim). For values of shape (2, 2, 2)
    the flattened item [wz.ravel()] of 4 entries does not broadcast into the
    (2, 2) slot [interpol[j]]: the evaluation raises instead of returning an
    array of shape (1, 2, 2), for a target on a source point and for one
    between two source points alike. *)
Theorem Idw_call_rank3_raises (add_reduce : list float -> float)
    (ddot : list float -> list float -> float) (pow : float -> float -> float) :
  (let* ip := Idw.__init__ (Examples.points [0; 1]%float) (Examples.points [0]%float) 2 2%float in
   Idw.__call__ add_reduce ddot pow ip (mkarray float64 [2; 2; 2] [1; 2; 3; 4; 5; 6; 7; 8]%float))
  = Raise ValueError
  /\
  (let* ip := Idw.__init__ (Examples.points [0; 1]%float) (Examples.points [0.5]%float) 2 2%float in
   Idw.__call__ add_reduce ddot pow ip (mkarray float64 [2; 2; 2] [1; 2; 3; 4; 5; 6; 7; 8]%float))
  = Raise ValueError.
Proof. split; vm_compute; reflexivity. Qed.

(** The two example interpolators are what the constructor builds. *)
Lemma on_source_init :
  Idw.__init__ (Examples.points [0; 1]%float) (Examples.points [0]%float) 2 2%float
  = Ok Examples.on_source.
Proof. reflexivity. Qed.

Lemma between_init :
  Idw.__init__ (Examples.points [0; 4]%float) (Examples.points [1]%float) 2 2%float
  = Ok Examples.between.
Proof. reflexivity. Qed.

(** ** A target on a source point *)

(** C4 (amended). In an evaluation of [Idw] with [nnearest] other than 1
    that returns, a target whose first retained (finite) distance is below
    1e-10 gets the value row of that first retained source converted to
    float32: a float64 value is rounded to single precision, not passed
    through exactly. The other neighbours and the power play no part. *)
Theorem Idw_coincident_row (add_reduce : list float -> float)
    (ddot : list float -> list float -> float) (pow : float -> float -> float)
    (self : Idw.t)
    (vals out : ndarray) (j : nat) (dist : list float) (ix : list nat)
    (d0 : float) (dist' : list float) (i0 : nat) (ix' : list nat) :
  np.wf vals ->
  Idw.__call__ add_reduce ddot pow self vals = Ok out ->
  zip (Idw.dists self) (Idw.ix self) !! j = Some (dist, ix) ->
  Idw.nnearest self <> 1 ->
  np.take_ix dist (np.where1 (map PrimFloat.is_finite dist)) = Ok (d0 :: dist') ->
  np.take_ix ix (np.where1 (map PrimFloat.is_finite dist)) = Ok (i0 :: ix') ->
  (d0 <? 1e-10)%float = true ->
  np.row out j = map (np.cast (dtype_of vals) float32) (np.row vals i0).
Proof.
  intros Hwf Hcall Hj Hnn Hdist Hix Hd0.
  destruct (Idw_call_spec add_reduce ddot pow self vals out Hwf Hcall) as (_ & _ & _ & Hrows).
  destruct (Hrows j dist ix Hj) as (wz & d & Hwz & Hd & ->).
  unfold Idw.target in Hwz. rewrite Hdist, Hix in Hwz. simpl in Hwz.
  rewrite decide_False in Hwz by done. simpl in Hwz. rewrite Hd0 in Hwz.
  apply getitem_inv in Hwz as (n & s & Hs & Hi0 & ->). simpl in Hd.
  rewrite Hs in Hd. simpl in Hd.
  apply broadcast_to_flat in Hd; [done|].
  rewrite length_map. by apply (row_length vals n s).
Qed.

Lemma Idw_coincident_row_witness :
  let vals := Examples.values [0.1; 6]%float in
  let out := mkarray float32 [1] [0.10000000149011612%float] in
  Idw.__call__ Examples.add_reduce Examples.ddot Examples.unused_pow Examples.on_source vals
  = Ok out /\
  np.row out 0 = map (np.cast (dtype_of vals) float32) (np.row vals 0).
Proof.
  cbv zeta.
  assert (Hcall : Idw.__call__ Examples.add_reduce Examples.ddot Examples.unused_pow
                    Examples.on_source
                    (Examples.values [0.1; 6]%float)
                  = Ok (mkarray float32 [1] [0.10000000149011612%float]))
    by (vm_compute; reflexivity).
  split; [exact Hcall|].
  apply (Idw_coincident_row Examples.add_reduce Examples.ddot Examples.unused_pow
           Examples.on_source _ _ 0
           [0; 1]%float [0; 1] 0%float [1%float] 0 [1]);
    [reflexivity|exact Hcall|reflexivity|discriminate|reflexivity|reflexivity|reflexivity].
Defined.

(** C4 as stated fails: the target lies on the source whose value is 0.1,
    and receives 0.100000001490116..., the nearest float32. *)
Lemma Idw_coincident_not_exact :
  (forall (add_reduce : list float -> float) (ddot : list float -> list float -> float)
       (pow : float -> float -> float),
     (let* ip := Idw.__init__ (Examples.points [0; 1]%float) (Examples.points [0]%float)
                   2 2%float in
      Idw.__call__ add_reduce ddot pow ip (Examples.values [0.1; 6]%float))
     = Ok (mkarray float32 [1] [0.10000000149011612%float]))
  /\ (0.10000000149011612 =? 0.1)%float = false.
Proof. split; [intros add_reduce ddot pow|]; vm_compute; reflexivity. Qed.

(** ** The dtype of what [Idw.__call__] returns *)

(** The value of one target has the dtype of the values, or float64 where
    it is a weighted sum. *)
Lemma target_dtype (add_reduce : list float -> float)
    (ddot : list float -> list float -> float) (pow : float -> float -> float)
    (self : Idw.t) (vals wz : ndarray) (dist : list float) (ix : list nat) :
  Idw.target add_reduce ddot pow self vals dist ix = Ok wz ->
  dtype_of wz = dtype_of vals \/ dtype_of wz = float64.
Proof.
  unfold Idw.target. intros H.
  apply bind_Ok in H as (dist' & _ & H). apply bind_Ok in H as (ix' & _ & H).
  destruct (decide (Idw.nnearest self = 1)) as [Hone|Hone].
  - left. apply take_rows_inv in H as (n & s & _ & _ & ->). done.
  - apply bind_Ok in H as (d0 & _ & H). destruct (PrimFloat.ltb d0 _).
    + left. apply bind_Ok in H as (i0 & _ & H).
      apply getitem_inv in H as (n & s & _ & _ & ->). done.
    + right. apply bind_Ok in H as (v & _ & H). unfold np.dot in H.
      destruct (reverse (shape v)) as [|b [|a outer]]; [done| |];
        destruct (decide _); try done; by injection H as <-.
Qed.

(** C10. Whatever the dtype of the values (float32, float64 or int32), an
    evaluation of [Idw] that returns yields a float32 array of shape (number
    of targets, trailing shape of the values). The item of every target is
    the value [wz] that the loop computed for it, which has the dtype of the
    values or is a float64 weighted sum, with every entry ROUNDED TO SINGLE
    PRECISION by [np.round_f4] unless it comes from float32 values and is a
    single-precision number already. The evaluation does return for an
    interpolator built by the constructor, on values of rank 1 or 2 with one
    item per source point, when every target has a neighbour at a finite
    distance. *)
Theorem Idw_call_float32 (add_reduce : list float -> float)
    (ddot : list float -> list float -> float) (pow : float -> float -> float)
    (self : Idw.t) (vals : ndarray) :
  np.wf vals ->
  (forall out, Idw.__call__ add_reduce ddot pow self vals = Ok out ->
     dtype_of out = float32 /\
     shape out = length (Idw.dists self) :: tail (shape vals) /\
     forall j dist ix, zip (Idw.dists self) (Idw.ix self) !! j = Some (dist, ix) ->
       exists wz d,
         Idw.target add_reduce ddot pow self vals dist ix = Ok wz /\
         (dtype_of wz = dtype_of vals \/ dtype_of wz = float64) /\
         np.broadcast_to [np.size (shape wz)]
           (map (fun x => match dtype_of wz with
                          | float32 => x
                          | float64 | int32 => np.round_f4 x
                          end) (data wz))
           (tail (shape vals)) = Some d /\
         np.row out j = d) /\
  (forall src trg s,
     Idw.__init__ src trg (Idw.nnearest self) (Idw.p self) = Ok self ->
     shape vals = Idw.numsources self :: s -> length s <= 1 ->
     Forall (fun dist => exists d, d ∈ dist /\ PrimFloat.is_finite d = true)
       (Idw.dists self) ->
     exists out, Idw.__call__ add_reduce ddot pow self vals = Ok out).
Proof.
  intros Hwf. split.
  - intros out H.
    destruct (Idw_call_spec add_reduce ddot pow self vals out Hwf H) as (Hdt & Hs & _ & Hrows).
    split; [done|]. split; [done|]. intros j dist ix Hj.
    destruct (Hrows j dist ix Hj) as (wz & d & Hwz & Hd & Hrow).
    exists wz, d. split; [done|]. split; [by eapply target_dtype|]. split; [|done].
    exact Hd.
  - intros src trg s Hinit Hs Hrank Hfin.
    destruct (Idw_init_neighbours src trg _ _ self (Idw.numsources self) Hinit
                (Nat.le_refl _) Hfin) as [Hlen Hall].
    apply is_ok_true.
    exact (Idw_call_Ok add_reduce ddot pow self vals _ s Hwf Hs Hrank Hlen Hall).
Qed.

Lemma Idw_call_float32_witness :
  let vals := Examples.values [0.1; 6]%float in
  (np.wf vals /\
   exists out,
     Idw.__call__ Examples.add_reduce Examples.ddot Examples.unused_pow
       Examples.on_source vals = Ok out /\
     dtype_of out = float32 /\ shape out = [1] /\
     data out = [0.10000000149011612%float]) /\
  (np.wf Examples.counts /\
   exists out,
     Idw.__call__ Examples.add_reduce Examples.ddot Examples.unused_pow
       Examples.on_source Examples.counts = Ok out /\
     dtype_of out = float32 /\ shape out = [1] /\
     data out = [16777216%float]) /\
  np.round_f4 0.1 = 0.10000000149011612%float /\
  np.round_f4 16777217 = 16777216%float.
Proof.
  cbv zeta.
  assert (Hfin : Forall (fun dist => exists d, d ∈ dist /\ PrimFloat.is_finite d = true)
                   (Idw.dists Examples.on_source)).
  { constructor; [|constructor]. exists 0%float. split; [left|reflexivity]. }
  split; [|split; [|split; vm_compute; reflexivity]].
  - assert (Hwf : np.wf (Examples.values [0.1; 6]%float)) by reflexivity.
    split; [exact Hwf|].
    destruct (Idw_call_float32 Examples.add_reduce Examples.ddot Examples.unused_pow
                Examples.on_source _ Hwf) as [Hout Hret].
    destruct (Hret (Examples.points [0; 1]%float) (Examples.points [0]%float) []
                on_source_init eq_refl (Nat.le_0_l 1) Hfin) as [out Hcall].
    exists out. split; [exact Hcall|].
    destruct (Hout out Hcall) as (Hdt & Hs & _). split; [exact Hdt|]. split; [exact Hs|].
    vm_compute in Hcall. injection Hcall as <-. reflexivity.
  - assert (Hwf : np.wf Examples.counts) by reflexivity.
    split; [exact Hwf|].
    destruct (Idw_call_float32 Examples.add_reduce Examples.ddot Examples.unused_pow
                Examples.on_source _ Hwf) as [Hout Hret].
    destruct (Hret (Examples.points [0; 1]%float) (Examples.points [0]%float) []
                on_source_init eq_refl (Nat.le_0_l 1) Hfin) as [out Hcall].
    exists out. split; [exact Hcall|].
    destruct (Hout out Hcall) as (Hdt & Hs & _). split; [exact Hdt|]. split; [exact Hs|].
    vm_compute in Hcall. injection Hcall as <-. reflexivity.
Defined.

(** ** Binary64 arithmetic: signs, the order, and a quotient

    Read off the specification of the operations in [SpecFloat]. *)

Section Floats.
Local Open Scope float_scope.

Lemma binary_round_aux_sign (prec emax : Z) (s : bool) (m e : Z) (l : location) :
  match binary_round_aux prec emax s m e l with
  | S754_zero s' | S754_infinity s' | S754_finite s' _ _ => s' = s
  | S754_nan => True
  end.
Proof.
  unfold binary_round_aux. destruct (shr_fexp prec emax m e l) as [mrs' e'].
  destruct (shr_fexp prec emax _ e' loc_Exact) as [mrs'' e''].
  destruct (shr_m mrs''); [done| |done]. by destruct (Z.leb _ _).
Qed.

Lemma binary_round_aux_not_negative (prec emax : Z) (m e : Z) (l : location) :
  SFnot_negative (binary_round_aux prec emax false m e l) = true.
Proof.
  pose proof (binary_round_aux_sign prec emax false m e l) as H.
  destruct (binary_round_aux _ _ _ _ _ _); simpl; by subst.
Qed.

Lemma binary_round_not_negative (prec emax : Z) (m : positive) (e : Z) :
  SFnot_negative (binary_round prec emax false m e) = true.
Proof.
  unfold binary_round. destruct (shl_align _ _ _) as [mz ez].
  apply binary_round_aux_not_negative.
Qed.

Lemma SFadd_not_negative (x y : spec_float) :
  SFnot_negative x = true -> SFnot_negative y = true ->
  SFnot_negative (SFadd prec emax x y) = true.
Proof.
  destruct x as [[]|[]| |[] mx ex], y as [[]|[]| |[] my ey]; simpl; try done.
  intros _ _. unfold binary_normalize. simpl.
  apply binary_round_not_negative.
Qed.

Lemma SFmul_same_sign (x : spec_float) : SFnot_negative (SFmul prec emax x x) = true.
Proof.
  destruct x as [[]|[]| |[] mx ex]; simpl; try done; apply binary_round_aux_not_negative.
Qed.

Lemma SFmul_not_negative (x y : spec_float) :
  SFnot_negative x = true -> SFnot_negative y = true ->
  SFnot_negative (SFmul prec emax x y) = true.
Proof.
  destruct x as [[]|[]| |[] mx ex], y as [[]|[]| |[] my ey]; simpl; try done.
  intros _ _. apply binary_round_aux_not_negative.
Qed.

Lemma SFdiv_not_negative (x y : spec_float) :
  SFnot_negative x = true -> SFnot_negative y = true ->
  SFnot_negative (SFdiv prec emax x y) = true.
Proof.
  destruct x as [[]|[]| |[] mx ex], y as [[]|[]| |[] my ey]; simpl; try done.
  intros _ _. destruct (SFdiv_core_binary _ _ _ _ _ _) as [[mz ez] lz].
  apply binary_round_aux_not_negative.
Qed.

Lemma SFsqrt_not_negative (x : spec_float) :
  SFnot_negative (SFsqrt prec emax x) = true \/ exists s, x = S754_zero s.
Proof.
  destruct x as [s|[]| |[] mx ex]; simpl; eauto. left.
  destruct (SFsqrt_core_binary _ _ _ _) as [[mz ez] lz].
  apply binary_round_aux_not_negative.
Qed.

Lemma add_not_negative (x y : float) :
  not_negative x = true -> not_negative y = true -> not_negative (x + y) = true.
Proof. unfold not_negative. rewrite FloatAxioms.add_spec. apply SFadd_not_negative. Qed.

Lemma mul_not_negative (x y : float) :
  not_negative x = true -> not_negative y = true -> not_negative (x * y) = true.
Proof. unfold not_negative. rewrite FloatAxioms.mul_spec. apply SFmul_not_negative. Qed.

Lemma square_not_negative (x : float) : not_negative (x * x) = true.
Proof. unfold not_negative. rewrite FloatAxioms.mul_spec. apply SFmul_same_sign. Qed.

Lemma div_not_negative (x y : float) :
  not_negative x = true -> not_negative y = true -> not_negative (x / y) = true.
Proof. unfold not_negative. rewrite FloatAxioms.div_spec. apply SFdiv_not_negative. Qed.

Lemma sqrt_not_negative (x : float) :
  not_negative x = true -> not_negative (sqrt x) = true.
Proof.
  unfold not_negative. rewrite FloatAxioms.sqrt_spec. intros Hx.
  destruct (SFsqrt_not_negative (Prim2SF x)) as [H|[s Hs]]; [done|].
  rewrite Hs in *. simpl in *. done.
Qed.

Lemma SFcompare_refl (x : spec_float) :
  x <> S754_nan -> SFcompare x x = Some Eq.
Proof.
  destruct x as [s|[]| |[] m e]; simpl; try done; intros _.
  - by rewrite Z.compare_refl, Pos.compare_cont_refl.
  - by rewrite Z.compare_refl, Pos.compare_cont_refl.
Qed.

Lemma is_nan_spec (x : float) : is_nan x = true <-> Prim2SF x = S754_nan.
Proof.
  unfold is_nan. split.
  - rewrite FloatAxioms.eqb_spec. unfold SFeqb. intros H.
    destruct (Prim2SF x) as [s|s| |s m e] eqn:Hx; [| |done|];
      by rewrite SFcompare_refl in H.
  - intros H. rewrite FloatAxioms.eqb_spec, H. reflexivity.
Qed.

Lemma not_negative_cases (x : float) :
  not_negative x = true -> is_nan x = true \/ (0 <=? x) = true.
Proof.
  unfold not_negative. intros H. destruct (Prim2SF x) as [s|s| |s m e] eqn:Hx.
  - right. rewrite FloatAxioms.leb_spec, Hx. reflexivity.
  - right. rewrite FloatAxioms.leb_spec, Hx. destruct s; [done|reflexivity].
  - left. by apply is_nan_spec.
  - right. rewrite FloatAxioms.leb_spec, Hx. destruct s; [done|reflexivity].
Qed.

Lemma SFleb_trans (x y z : spec_float) :
  SFleb x y = true -> SFleb y z = true -> SFleb x z = true.
Proof.
  unfold SFleb.
  destruct x as [[]|[]| |[] m1 e1], y as [[]|[]| |[] m2 e2], z as [[]|[]| |[] m3 e3];
    simpl; try done.
  all: change (Pos.compare_cont Eq ?a ?b) with (Pos.compare a b).
  all: destruct (Z.compare_spec e1 e2), (Z.compare_spec e2 e3), (Z.compare_spec e1 e3);
    try done; try lia.
  all: destruct (Pos.compare_spec m1 m2), (Pos.compare_spec m2 m3), (Pos.compare_spec m1 m3);
    simpl; try done; try lia.
Qed.

Lemma SFleb_total (x y : spec_float) :
  x <> S754_nan -> y <> S754_nan -> SFleb x y = false -> SFleb y x = true.
Proof.
  unfold SFleb.
  destruct x as [[]|[]| |[] m1 e1], y as [[]|[]| |[] m2 e2]; simpl; try done.
  all: change (Pos.compare_cont Eq ?a ?b) with (Pos.compare a b).
  all: destruct (Z.compare_spec e1 e2), (Z.compare_spec e2 e1); try done; try lia.
  all: destruct (Pos.compare_spec m1 m2), (Pos.compare_spec m2 m1); simpl; try done; try lia.
Qed.

Lemma leb_trans (x y z : float) :
  (x <=? y) = true -> (y <=? z) = true -> (x <=? z) = true.
Proof. rewrite !leb_spec. apply SFleb_trans. Qed.

Lemma leb_total (x y : float) :
  is_nan x = false -> is_nan y = false -> (x <=? y) = false -> (y <=? x) = true.
Proof.
  rewrite !leb_spec. intros Hx Hy. apply SFleb_total.
  - intros H. apply is_nan_spec in H. congruence.
  - intros H. apply is_nan_spec in H. congruence.
Qed.

Lemma leb_refl (x : float) : is_nan x = false -> (x <=? x) = true.
Proof.
  intros Hx. rewrite FloatAxioms.leb_spec. unfold SFleb. rewrite SFcompare_refl; [done|].
  intros H. apply is_nan_spec in H. congruence.
Qed.

Lemma ltb_not_nan (x y : float) : (x <? y) = true -> is_nan x = false.
Proof.
  rewrite FloatAxioms.ltb_spec. unfold SFltb. intros H.
  destruct (is_nan x) eqn:Hx; [|done]. apply is_nan_spec in Hx. by rewrite Hx in H.
Qed.

Lemma SFdiv_same (s : bool) (m : positive) (e : Z) :
  SFdiv prec emax (S754_finite s m e) (S754_finite s m e) = Prim2SF 1.
Proof.
  unfold SFdiv, SFdiv_core_binary.
  replace (Zdigits2 (Z.pos m) + e - (Zdigits2 (Z.pos m) + e))%Z with 0%Z by lia.
  rewrite Z.sub_diag.
  change (Z.min (fexp prec emax 0) 0) with (-53)%Z.
  change (0 - -53)%Z with 53%Z. cbv iota.
  rewrite Z.shiftl_mul_pow2 by done.
  assert (Hdiv : Z.div_eucl (Z.pos m * 2 ^ 53) (Z.pos m) = (2 ^ 53, 0)%Z).
  { pose proof (Z.div_mul (2 ^ 53) (Z.pos m)) as Hq.
    pose proof (Z.mod_mul (2 ^ 53) (Z.pos m)) as Hr.
    rewrite (Z.mul_comm (2 ^ 53)) in Hq, Hr.
    unfold Z.div in Hq. unfold Z.modulo in Hr.
    destruct (Z.div_eucl (Z.pos m * 2 ^ 53) (Z.pos m)) as [q r].
    simpl in Hq, Hr. rewrite Hq, Hr by done. done. }
  rewrite Hdiv.
  replace (new_location (Z.pos m) 0) with loc_Exact
    by (unfold new_location; by destruct (Z.even (Z.pos m))).
  destruct s; vm_compute; reflexivity.
Qed.

Lemma is_finite_spec (x : float) :
  PrimFloat.is_finite x = true -> (x =? 0) = false ->
  exists s m e, Prim2SF x = S754_finite s m e.
Proof.
  unfold PrimFloat.is_finite, PrimFloat.is_infinity, PrimFloat.is_nan.
  rewrite !FloatAxioms.eqb_spec, abs_spec. unfold SFeqb.
  change (Prim2SF 0) with (S754_zero false).
  change (Prim2SF infinity) with (S754_infinity false).
  destruct (Prim2SF x) as [s|s| |s m e]; simpl; [done|by destruct s|done|eauto].
Qed.

Lemma div_same (x : float) :
  PrimFloat.is_finite x = true -> (x =? 0) = false -> x / x = 1.
Proof.
  intros Hf Hz. destruct (is_finite_spec x Hf Hz) as (s & m & e & Hx).
  apply Prim2SF_inj. rewrite FloatAxioms.div_spec, Hx. apply SFdiv_same.
Qed.

End Floats.

(** ** The weighted branch *)

Lemma power_not_negative (pow : float -> float -> float) (x p : float) :
  (forall x y, not_negative x = true -> not_negative (pow x y) = true) ->
  not_negative x = true -> not_negative (np.power pow x p) = true.
Proof.
  intros Hpow Hx. unfold np.power.
  repeat match goal with |- context [if ?b then _ else _] => destruct b end.
  - apply square_not_negative.
  - done.
  - by apply div_not_negative.
  - reflexivity.
  - by apply sqrt_not_negative.
  - by apply Hpow.
Qed.

(** Weights of distances that are not negative are not negative, under a
    summation and a [pow] that keep the sign. *)
Lemma weights_not_negative (add_reduce : list float -> float)
    (pow : float -> float -> float) (p : float) (dist : list float) :
  (forall l, Forall (fun x => not_negative x = true) l -> not_negative (add_reduce l) = true) ->
  (forall x y, not_negative x = true -> not_negative (pow x y) = true) ->
  Forall (fun d => not_negative d = true) dist ->
  Forall (fun x => not_negative x = true) (Idw.weights add_reduce pow p dist).
Proof.
  intros Hsum Hpow Hdist. unfold Idw.weights.
  assert (Hu : Forall (fun x => not_negative x = true)
                 (map (fun d => (1 / np.power pow d p)%float) dist)).
  { apply Forall_map. eapply Forall_impl; [exact Hdist|]. intros d Hd. simpl.
    apply div_not_negative; [reflexivity|]. by apply power_not_negative. }
  apply Forall_map. eapply Forall_impl; [exact Hu|]. intros x Hx. simpl.
  apply div_not_negative; [done|]. by apply Hsum.
Qed.

(** The plain loop keeps the sign. *)
Lemma foldl_add_not_negative (l : list float) (acc : float) :
  not_negative acc = true -> Forall (fun x => not_negative x = true) l ->
  not_negative (foldl PrimFloat.add acc l) = true.
Proof.
  revert acc. induction l as [|x l IH]; intros acc Hacc Hl; [done|].
  apply Forall_cons in Hl as [Hx Hl]. simpl. apply IH; [|done].
  by apply add_not_negative.
Qed.

Lemma add_reduce_not_negative (l : list float) :
  Forall (fun x => not_negative x = true) l -> not_negative (Examples.add_reduce l) = true.
Proof. intros Hl. unfold Examples.add_reduce. by apply foldl_add_not_negative. Qed.

(** No distance of the spatial index is negative. *)
Lemma distance_not_negative (x y : list float) :
  not_negative (cKDTree.distance x y) = true.
Proof.
  unfold cKDTree.distance. apply sqrt_not_negative, foldl_add_not_negative; [reflexivity|].
  apply Forall_forall. intros z Hz. apply elem_of_lookup_zip_with in Hz as (i & a & b & -> & _).
  apply square_not_negative.
Qed.

Lemma knn_not_negative (tr : cKDTree.t) (k : nat) (x : list float) :
  Forall (fun d => not_negative d = true) (map fst (cKDTree.knn tr k x)).
Proof.
  apply Forall_map, Forall_forall. intros [d i] Hin. simpl.
  unfold cKDTree.knn in Hin. apply elem_of_app in Hin as [Hin|Hin].
  - apply elem_of_take in Hin as (j & Hin & _). apply list_elem_of_lookup_2 in Hin.
    apply neighbours_elem_of in Hin as (y & _ & -> & _). apply distance_not_negative.
  - apply elem_of_replicate in Hin as [[= -> ->] _]. reflexivity.
Qed.

Lemma Idw_init_not_negative (src trg : coords) (nnearest : nat) (p : float) (self : Idw.t) :
  Idw.__init__ src trg nnearest p = Ok self ->
  Forall (Forall (fun d => not_negative d = true)) (Idw.dists self).
Proof.
  unfold Idw.__init__. intros H.
  apply bind_Ok in H as (s & _ & H). apply bind_Ok in H as (g & _ & H).
  apply bind_Ok in H as (nt & _ & H). apply bind_Ok in H as (ns & _ & H).
  apply bind_Ok in H as (tree & _ & H). apply bind_Ok in H as (q & Hq & [= <-]). simpl.
  unfold cKDTree.query in Hq. destruct (shape g) as [|? [|? [|]]]; try done.
  destruct (decide _); [|done]. destruct (decide _); [done|]. injection Hq as <-. simpl.
  apply Forall_map, Forall_map, Forall_forall. intros x _. apply knn_not_negative.
Qed.

Lemma take_ix_elem_of {A} (l r : list A) (ix : list nat) (x : A) :
  np.take_ix l ix = Ok r -> x ∈ r -> x ∈ l.
Proof.
  intros H Hx. apply mapR_Ok_inv in H. apply list_elem_of_lookup in Hx as [k Hk].
  destruct (Forall2_lookup_r _ _ _ _ _ H Hk) as (i & _ & Hi).
  destruct (l !! i) eqn:Hl; [|done]. injection Hi as ->. by eapply list_elem_of_lookup_2.
Qed.

Lemma midway_init :
  Idw.__init__ (Examples.points [0; 2]%float) (Examples.points [1]%float) 2 2%float
  = Ok Examples.midway.
Proof. reflexivity. Qed.

(** C5 (amended). In an evaluation of [Idw] with [nnearest] other than 1
    that returns, a target whose first retained distance is not below 1e-10
    has the weights [w = u / np.sum(u)] with [u = 1 / d**p] over its retained
    neighbours, and its output row is [np.dot] of these weights with the
    value rows of the retained neighbours, rounded to single precision. For
    an interpolator built by the constructor every weight is NaN or not
    below 0, whenever the summation and [pow] return a NaN or a value with a
    clear sign bit on such values (as numpy's and the C library's do). The
    weights are not made to sum to 1 beyond the one division: a single
    retained neighbour has the weight 1 exactly, where [1 / d**p] is finite
    and not 0 and the summation returns a single entry as it is. *)
Theorem Idw_weighted_row (add_reduce : list float -> float)
    (ddot : list float -> list float -> float) (pow : float -> float -> float)
    (self : Idw.t)
    (vals out : ndarray) (j : nat) (dist : list float) (ix : list nat)
    (d0 : float) (dist' : list float) (ix' : list nat) :
  np.wf vals ->
  Idw.__call__ add_reduce ddot pow self vals = Ok out ->
  zip (Idw.dists self) (Idw.ix self) !! j = Some (dist, ix) ->
  Idw.nnearest self <> 1 ->
  np.take_ix dist (np.where1 (map PrimFloat.is_finite dist)) = Ok (d0 :: dist') ->
  np.take_ix ix (np.where1 (map PrimFloat.is_finite dist)) = Ok ix' ->
  (d0 <? 1e-10)%float = false ->
  let u := map (fun d => (1 / np.power pow d (Idw.p self))%float) (d0 :: dist') in
  let w := map (fun x => (x / add_reduce u)%float) u in
  (exists v wz,
     np.take_rows vals ix' = Ok v /\
     np.dot ddot w v = Ok wz /\
     np.row out j = map np.round_f4 (data wz)) /\
  (forall src trg,
     Idw.__init__ src trg (Idw.nnearest self) (Idw.p self) = Ok self ->
     (forall l, Forall (fun x => not_negative x = true) l ->
                not_negative (add_reduce l) = true) ->
     (forall x y, not_negative x = true -> not_negative (pow x y) = true) ->
     Forall (fun x => PrimFloat.is_nan x = true \/ (0 <=? x)%float = true) w) /\
  (forall u0, u = [u0] -> add_reduce [u0] = u0 ->
     PrimFloat.is_finite u0 = true -> (u0 =? 0)%float = false -> w = [1%float]).
Proof.
  intros Hwf Hcall Hj Hnn Hdist Hix Hd0 u w.
  change w with (Idw.weights add_reduce pow (Idw.p self) (d0 :: dist')).
  split; [|split].
  - destruct (Idw_call_spec add_reduce ddot pow self vals out Hwf Hcall) as (_ & _ & _ & Hrows).
    destruct (Hrows j dist ix Hj) as (wz & d & Hwz & Hd & ->).
    unfold Idw.target in Hwz. rewrite Hdist, Hix in Hwz. simpl in Hwz.
    rewrite decide_False in Hwz by done. simpl in Hwz. rewrite Hd0 in Hwz.
    apply bind_Ok in Hwz as (v & Hv & Hwz). exists v, wz. split; [done|]. split; [done|].
    destruct (take_rows_inv _ _ _ Hv) as (n & s & Hs & _ & Hv').
    assert (Hlen : length (Idw.weights add_reduce pow (Idw.p self) (d0 :: dist'))
                   = length ix').
    { rewrite weights_length. apply take_ix_length in Hdist, Hix. congruence. }
    destruct (dot_shape_size ddot _ v wz (length ix') s Hwz) as [Hsz Hdt]; [by subst v|done|].
    rewrite Hs in Hd. simpl in Hd. rewrite Hsz, Hdt in Hd.
    apply broadcast_to_flat in Hd; [done|].
    rewrite length_map. apply dot_wf in Hwz. unfold np.wf in Hwz. by rewrite Hwz.
  - intros src trg Hinit Hsum Hpow.
    assert (Hall : Forall (fun d => not_negative d = true) (d0 :: dist')).
    { pose proof (Idw_init_not_negative _ _ _ _ _ Hinit) as Hd.
      rewrite Forall_forall in Hd. apply list_elem_of_lookup_2, elem_of_zip_l in Hj.
      specialize (Hd dist Hj). rewrite Forall_forall in Hd.
      apply Forall_forall. intros d Hin. apply Hd. by eapply take_ix_elem_of. }
    eapply Forall_impl; [exact (weights_not_negative _ _ _ _ Hsum Hpow Hall)|].
    intros x. apply not_negative_cases.
  - intros u0 Hu Hone Hfin Hnz. unfold Idw.weights. fold u. rewrite Hu, Hone. simpl.
    by rewrite div_same.
Qed.

Lemma Idw_weighted_row_witness :
  let vals := Examples.values [1; 3]%float in
  let out := mkarray float32 [1] [2%float] in
  let w := [0.5; 0.5]%float in
  Idw.__call__ Examples.add_reduce Examples.ddot Examples.unused_pow Examples.midway vals
  = Ok out /\
  (exists v wz,
     np.take_rows vals [0; 1] = Ok v /\
     np.dot Examples.ddot w v = Ok wz /\
     np.row out 0 = map np.round_f4 (data wz)) /\
  Forall (fun x => PrimFloat.is_nan x = true \/ (0 <=? x)%float = true) w.
Proof.
  cbv zeta.
  assert (Hcall : Idw.__call__ Examples.add_reduce Examples.ddot Examples.unused_pow
                    Examples.midway (Examples.values [1; 3]%float)
                  = Ok (mkarray float32 [1] [2%float]))
    by (vm_compute; reflexivity).
  split; [exact Hcall|].
  destruct (Idw_weighted_row Examples.add_reduce Examples.ddot Examples.unused_pow
              Examples.midway (Examples.values [1; 3]%float)
              (mkarray float32 [1] [2%float]) 0
              [1; 1]%float [0; 1] 1%float [1%float] [0; 1]
              eq_refl Hcall eq_refl) as (Hrow & Hsign & _);
    [discriminate|reflexivity|reflexivity|reflexivity|].
  split; [exact Hrow|].
  exact (Hsign (Examples.points [0; 2]%float) (Examples.points [1]%float) midway_init
           add_reduce_not_negative (fun _ _ _ => eq_refl)).
Defined.

(** C5 as stated fails. For neighbours at distances 1 and 3 and power 2 the
    weights are the doubles next to 0.9 and 0.1: they add up to
    0.99999999999999989 in double precision and to 1 - 7 * 2**-56 exactly,
    not to 1. And where the 40th power of the distance 2**-33 of the nearest
    neighbour underflows to 0, the weights of the two neighbours are NaN and
    0: the first is not a number at all, and no sum of them is 1. Both rows
    of distances are what the constructor builds. *)
Lemma Idw_weights_not_normalised :
  Idw.__init__ (Examples.points [0; 4]%float) (Examples.points [1]%float) 2 2%float
  = Ok Examples.between /\
  Idw.dists Examples.between = [[1; 3]]%float /\
  Idw.__init__ (Examples.points [0x1p-33; 1]%float) (Examples.points [0]%float) 2 40%float
  = Ok Examples.tiny_and_one /\
  Idw.dists Examples.tiny_and_one = [[0x1p-33; 1]]%float /\
  (forall pow : float -> float -> float,
     Idw.weights Examples.add_reduce pow 2 [1; 3]%float
     = [0.89999999999999991; 0.099999999999999992]%float) /\
  (0.89999999999999991 + 0.099999999999999992)%float = 0.99999999999999989%float /\
  (0.99999999999999989 =? 1)%float = false /\
  Prim2SF 0.89999999999999991 = S754_finite false 8106479329266892 (-53) /\
  Prim2SF 0.099999999999999992 = S754_finite false 7205759403792793 (-56) /\
  (8106479329266892 * 2 ^ 3 + 7205759403792793 = 2 ^ 56 - 7)%Z /\
  (forall pow : float -> float -> float,
     pow 0x1p-33%float 40%float = 0%float -> pow 1%float 40%float = 1%float ->
     Idw.weights Examples.add_reduce pow 40 [0x1p-33; 1]%float = [nan; 0%float]) /\
  (0x1p-33 <? 1e-10)%float = false /\
  (0 <=? nan)%float = false /\ (nan + 0 =? 1)%float = false.
Proof.
  split; [reflexivity|]. split; [reflexivity|]. split; [reflexivity|]. split; [reflexivity|].
  split; [intros pow; vm_compute; reflexivity|].
  split; [vm_compute; reflexivity|].
  split; [vm_compute; reflexivity|].
  split; [vm_compute; reflexivity|].
  split; [vm_compute; reflexivity|].
  split; [reflexivity|].
  split; [|split; [|split]; vm_compute; reflexivity].
  intros pow Hp0 Hp1. unfold Idw.weights, np.power. cbn [map].
  replace (40 =? 2)%float with false by (vm_compute; reflexivity).
  replace (40 =? 1)%float with false by (vm_compute; reflexivity).
  replace (40 =? -1)%float with false by (vm_compute; reflexivity).
  replace (40 =? 0)%float with false by (vm_compute; reflexivity).
  replace (40 =? 0.5)%float with false by (vm_compute; reflexivity).
  rewrite Hp0, Hp1. vm_compute. reflexivity.
Qed.

(** ** [interpolate_polar] without masked bins *)

Lemma where1_replicate_false (n : nat) : np.where1 (replicate n false) = [].
Proof. apply where_from_replicate_false. Qed.

Lemma where1_none (c : list bool) : np.any c = false -> np.where1 c = [].
Proof.
  unfold np.any, np.where1. generalize 0. induction c as [|[] c IH]; intros k; simpl; try done.
  apply IH.
Qed.

Lemma delete_from_nil (k : nat) (l : list float) : np.delete_from k l [] = l.
Proof.
  revert k. induction l as [|x l IH]; intros k; simpl; [done|]. by rewrite IH.
Qed.

Lemma delete_nil (l : list float) : np.delete l [] = Ok l.
Proof. unfold np.delete. simpl. by rewrite delete_from_nil. Qed.

Lemma xy_wf (x y : list float) (a : ndarray) :
  length x = length y -> xy x y = CoordArray a -> np.wf a /\ shape a = [length x; 2].
Proof.
  intros Hlen [= <-]. split; [|done]. unfold np.wf. simpl.
  rewrite size_cons, size_cons, size_nil.
  rewrite (concat_length_uniform 2).
  - rewrite length_zip_with. lia.
  - clear Hlen. revert y. induction x as [|a x IH]; intros [|b y]; simpl; constructor; auto.
Qed.

Lemma Nearest_empty_answer : empty_answer Nearest_class.
Proof.
  intros s v n Hs Hv. simpl. unfold Nearest.__init__, IpolBase._make_coord_arrays.
  rewrite Hs. simpl. unfold np.len, cKDTree.build. rewrite Hs. simpl.
  eexists _, _. split; [reflexivity|].
  unfold Nearest.__call__, IpolBase._check_shape, np.len, np.take_rows. rewrite Hv. simpl.
  rewrite decide_True by done. simpl. split; reflexivity.
Qed.

Lemma Idw_empty_answer (add_reduce : list float -> float)
    (ddot : list float -> list float -> float) (pow : float -> float -> float)
    (k : nat) (p : float) :
  k <> 0 -> empty_answer (Idw_class add_reduce ddot pow k p).
Proof.
  intros Hk s v n Hs Hv. simpl. unfold Idw.__init__, IpolBase._make_coord_arrays.
  rewrite Hs. simpl. unfold np.len, cKDTree.build. rewrite Hs. simpl.
  unfold cKDTree.query. simpl. rewrite decide_False by done. simpl.
  eexists _, _. split; [reflexivity|].
  unfold Idw.__call__. rewrite Hv. simpl. split; reflexivity.
Qed.

Lemma cast_same (dt : np.dtype) (x : float) : np.cast dt dt x = x.
Proof. by destruct dt. Qed.

Lemma map_cast_same (dt : np.dtype) (l : list float) : map (np.cast dt dt) l = l.
Proof. induction l as [|x l IH]; simpl; [done|]. by rewrite cast_same, IH. Qed.

Lemma interpolate_no_target (I : Interpolator) (x y : list float) (dt : np.dtype)
    (d : list float) :
  empty_answer I -> length x = length d ->
  exists f, interpolate (xy x y) (xy [] []) (np.array1 dt d) I = Ok f /\ shape f = [0].
Proof.
  intros HI Hlen. unfold xy at 1.
  rewrite (interpolate_1d _ _ _ _ (length d) [2]); [|by simpl; rewrite Hlen|done|done].
  unfold interpolate_valid_rows. cbn [shape tail dtype_of].
  match goal with
  | |- context [init I (CoordArray ?s) _] =>
      match goal with
      | |- context [call I _ ?v] =>
          destruct (HI s v (length (valid_rows
                     (mkarray float64 [length x; 2]
                        (concat (zip_with (fun a b => [a; b]) x y)))
                     (np.array1 dt d))) eq_refl eq_refl)
            as (ip & f & Hinit & Hcall & Hf)
      end
  end.
  exists f. split; [|done]. rewrite Hinit. cbn [bind]. exact Hcall.
Qed.

(** C7 (amended). A 2-d field without NaN entries comes back unchanged
    when no bin is masked (no mask given, or one that is all [False]), for
    every interpolator class that answers a problem without targets by an
    empty array, as [Nearest] and [Idw] do, provided the bin grid exists. (A
    NaN in an unmasked bin does not come back: the fallback pass replaces
    it.) *)
Theorem interpolate_polar_no_mask (cos sin : float -> float) (field : ndarray)
    (mask : option mask_array) (I : Interpolator) (nrays nbins : nat)
    (bx by_ : list float) :
  shape field = [nrays; nbins] -> np.wf field ->
  np.any (np.isnan field) = false ->
  match mask with Some m => np.any (mask_data m) = false | None => True end ->
  grid_ok cos sin nrays nbins bx by_ ->
  empty_answer I ->
  interpolate_polar cos sin field mask I = Ok field.
Proof.
  intros Hs Hwf Hnan Hmask (Hgrid & Hbx & Hby) HI.
  assert (Hsize : length (data field) = nrays * nbins).
  { unfold np.wf in Hwf. by rewrite Hwf, Hs, !size_cons, size_nil, Nat.mul_1_r. }
  assert (Hclutter : np.where1 (used_mask field mask) = []).
  { unfold used_mask. destruct mask as [m|]; [rewrite Hmask|]; apply where1_replicate_false. }
  unfold interpolate_polar, first_pass. rewrite Hclutter, Hs, Hgrid. simpl.
  rewrite !delete_from_nil.
  (* the first pass: an interpolator on the finite bins, no target *)
  destruct (interpolate_no_target I bx by_ (dtype_of field) (data field) HI)
    as (f & Hfill & Hf); [congruence|].
  rewrite Hfill. simpl.
  unfold np.setitem_ix. simpl. rewrite Hf. unfold np.broadcast_to. simpl.
  (* no NaN is left: the fallback pass is skipped *)
  unfold fallback_pass. simpl. unfold np.isnan in *. simpl. rewrite Hnan.
  unfold np.reshape. simpl. rewrite Hs.
  rewrite decide_True by (rewrite !size_cons, size_nil; lia).
  destruct field as [dt sh d]. simpl in *. by subst sh.
Qed.

(** ** Nearest neighbours in the plane *)

(** The head of the sorted list is a nearest entry: no entry is closer. *)
Lemma sort_head_min (l : list (float * nat)) (h : float * nat) :
  Forall (fun q => PrimFloat.is_nan q.1 = false) l ->
  head (cKDTree.sort l) = Some h ->
  forall q, q ∈ l -> (h.1 <=? q.1)%float = true.
Proof.
  revert h. induction l as [|a l IH]; intros h Hnan Hh q Hq; [by apply elem_of_nil in Hq|].
  apply Forall_cons in Hnan as [Ha Hnan].
  change (cKDTree.sort (a :: l)) with (cKDTree.insert a (cKDTree.sort l)) in Hh.
  destruct (cKDTree.sort l) as [|h0 s] eqn:Hs.
  - (* [l] is empty *)
    assert (l = []) as ->.
    { destruct l as [|b l]; [done|]. assert (Hb : b ∈ cKDTree.sort (b :: l)).
      { apply sort_elem_of. left. }
      rewrite Hs in Hb. by apply elem_of_nil in Hb. }
    simpl in Hh. injection Hh as <-. apply list_elem_of_singleton in Hq as ->.
    by apply leb_refl.
  - assert (Hh0 : h0 ∈ l) by (apply sort_elem_of; rewrite Hs; left).
    assert (Hn0 : PrimFloat.is_nan h0.1 = false).
    { rewrite Forall_forall in Hnan. by apply Hnan. }
    specialize (IH h0 Hnan eq_refl). simpl in Hh.
    destruct (PrimFloat.leb a.1 h0.1) eqn:Hle; simpl in Hh; injection Hh as <-.
    + apply elem_of_cons in Hq as [->|Hq]; [by apply leb_refl|].
      eapply leb_trans; [exact Hle|]. by apply IH.
    + apply elem_of_cons in Hq as [->|Hq]; [by apply leb_total|]. by apply IH.
Qed.

(** [query(x, k=1)]: where a data point is closer than the upper bound,
    the point reported is one of the data points, and no data point is
    closer to [x]. *)
Lemma knn_one_min (tr : cKDTree.t) (x : list float) :
  (exists y, y ∈ cKDTree.points tr /\ (cKDTree.distance x y <? infinity)%float = true) ->
  exists i y,
    cKDTree.knn tr 1 x = [(cKDTree.distance x y, i)] /\
    cKDTree.points tr !! i = Some y /\
    forall i' y', cKDTree.points tr !! i' = Some y' ->
      (cKDTree.distance x y' <? infinity)%float = true ->
      (cKDTree.distance x y <=? cKDTree.distance x y')%float = true.
Proof.
  intros (y0 & Hy0 & Hd0). apply list_elem_of_lookup in Hy0 as [i0 Hi0].
  assert (Hin : (cKDTree.distance x y0, i0) ∈ cKDTree.neighbours tr x).
  { apply neighbours_elem_of. eauto. }
  destruct (cKDTree.neighbours tr x) as [|[d i] l] eqn:Hn.
  { by apply elem_of_nil in Hin. }
  assert (Hhd : (d, i) ∈ cKDTree.neighbours tr x) by (rewrite Hn; left).
  apply neighbours_elem_of in Hhd as (y & Hy & -> & Hfin).
  exists i, y. split; [|split; [done|]].
  - unfold cKDTree.knn. by rewrite Hn.
  - intros i' y' Hy' Hfin'.
    unfold cKDTree.neighbours in Hn.
    refine (sort_head_min _ (cKDTree.distance x y, i) _ _ (cKDTree.distance x y', i') _).
    + apply Forall_forall. intros q Hq. apply list_elem_of_filter in Hq as [Hq _].
      by apply ltb_not_nan in Hq.
    + by rewrite Hn.
    + apply list_elem_of_filter. split; [done|]. apply elem_of_lookup_imap. eauto.
Qed.

(** ** [Nearest] on the bins of a polar field *)

Lemma xy_rows (x y : list float) :
  length x = length y ->
  np.rows (mkarray float64 [length x; 2] (concat (zip_with (fun a b => [a; b]) x y)))
  = zip_with (fun a b => [a; b]) x y.
Proof.
  intros Hlen. apply rows_of_concat.
  - rewrite length_zip_with. lia.
  - clear Hlen. revert y. induction x as [|a x IH]; intros [|b y]; simpl; constructor; auto.
Qed.

Lemma zip_with_pair_elem_of (x y : list float) (r : list float) :
  r ∈ zip_with (fun a b => [a; b]) x y -> exists a b, r = [a; b] /\ a ∈ x /\ b ∈ y.
Proof.
  revert y. induction x as [|a x IH]; intros [|b y]; simpl; try (intros H; by apply elem_of_nil in H).
  intros [->|H]%elem_of_cons.
  - exists a, b. split; [done|]. split; left.
  - destruct (IH _ H) as (a' & b' & -> & ? & ?). exists a', b'. split; [done|]. split; by right.
Qed.

Lemma valid_rows_snd_finite (src vals : ndarray) :
  Forall (fun v => PrimFloat.is_finite v = true /\ v ∈ data vals) (valid_rows src vals).*2.
Proof.
  apply Forall_forall. intros v Hv. apply list_elem_of_fmap in Hv as ([r v'] & -> & Hin).
  unfold valid_rows in Hin. apply list_elem_of_filter in Hin as [Hfin Hin]. simpl in *.
  split; [done|]. apply elem_of_zip_r in Hin. done.
Qed.

Lemma valid_rows_fst (src vals : ndarray) (r : list float) :
  r ∈ (valid_rows src vals).*1 -> r ∈ np.rows src.
Proof.
  intros Hr. apply list_elem_of_fmap in Hr as ([r' v'] & -> & Hin).
  unfold valid_rows in Hin. apply list_elem_of_filter in Hin as [_ Hin].
  by apply elem_of_zip_l in Hin.
Qed.

Lemma valid_rows_nonempty (src vals : ndarray) (k : nat) (v : float) :
  length (np.rows src) = length (data vals) ->
  data vals !! k = Some v -> PrimFloat.is_finite v = true ->
  valid_rows src vals <> [].
Proof.
  intros Hlen Hk Hfin.
  destruct (lookup_lt_is_Some_2 (np.rows src) k) as [r Hr].
  { rewrite Hlen. by apply lookup_lt_Some in Hk. }
  assert (Hin : (r, v) ∈ valid_rows src vals).
  { unfold valid_rows. apply list_elem_of_filter. split; [done|].
    apply list_elem_of_lookup. exists k. by apply lookup_zip_with_Some; eauto. }
  intros Hnil. rewrite Hnil in Hin. by apply elem_of_nil in Hin.
Qed.

Lemma take_rows_1d_data (dt : np.dtype) (d : list float) (ix : list nat) :
  Forall (fun i => i < length d) ix ->
  np.take_rows (mkarray dt [length d] d) ix
  = Ok (mkarray dt [length ix] (map (fun i => default nan (d !! i)) ix)).
Proof.
  intros Hix. rewrite (take_rows_Ok _ (length d) []) by done. simpl. do 2 f_equal.
  apply concat_singletons. eapply Forall_impl; [exact Hix|]. intros i Hi. simpl in *.
  destruct (d !! i) as [x|] eqn:Hx.
  - by apply row_1d.
  - apply lookup_ge_None in Hx. lia.
Qed.

Lemma valid_rows_lookup (src vals : ndarray) (i : nat) (r : list float) (v : float) :
  valid_rows src vals !! i = Some (r, v) ->
  PrimFloat.is_finite v = true /\
  exists k, np.rows src !! k = Some r /\ data vals !! k = Some v.
Proof.
  intros Hi. apply list_elem_of_lookup_2 in Hi. unfold valid_rows in Hi.
  apply list_elem_of_filter in Hi as [Hfin Hin]. split; [done|].
  apply elem_of_lookup_zip_with in Hin as (k & r' & v' & [= -> ->] & Hr & Hv). eauto.
Qed.

Lemma valid_rows_elem_of (src vals : ndarray) (k : nat) (r : list float) (v : float) :
  np.rows src !! k = Some r -> data vals !! k = Some v -> PrimFloat.is_finite v = true ->
  exists i, valid_rows src vals !! i = Some (r, v).
Proof.
  intros Hr Hv Hfin. apply list_elem_of_lookup. unfold valid_rows.
  apply list_elem_of_filter. split; [done|].
  apply elem_of_lookup_zip_with. exists k, r, v. done.
Qed.

(** [interpolate] with [Nearest] on 1-d values: every target gets the
    value of a source point with a finite value, and no source point with a
    finite value is closer to the target. *)
Lemma interpolate_nearest_xy (sx sy tx ty : list float) (dt : np.dtype)
    (vals : list float) :
  length sx = length vals -> length sy = length vals -> length tx = length ty ->
  (exists k v, vals !! k = Some v /\ PrimFloat.is_finite v = true) ->
  (forall x y x' y', x ∈ tx -> y ∈ ty -> x' ∈ sx -> y' ∈ sy ->
     (cKDTree.distance [x; y] [x'; y'] <? infinity)%float = true) ->
  exists f,
    interpolate (xy sx sy) (xy tx ty) (np.array1 dt vals) Nearest_class
    = Ok (mkarray dt [length tx] f) /\
    length f = length tx /\
    forall j a b, tx !! j = Some a -> ty !! j = Some b ->
      exists k x y v,
        sx !! k = Some x /\ sy !! k = Some y /\ vals !! k = Some v /\
        PrimFloat.is_finite v = true /\ f !! j = Some v /\
        forall k' x' y' v',
          sx !! k' = Some x' -> sy !! k' = Some y' -> vals !! k' = Some v' ->
          PrimFloat.is_finite v' = true ->
          (cKDTree.distance [a; b] [x; y] <=? cKDTree.distance [a; b] [x'; y'])%float = true.
Proof.
  intros Hsx Hsy Ht (k & v & Hk & Hfin) Hnear. unfold xy at 1.
  rewrite (interpolate_1d _ _ _ _ (length vals) [2]); [|by simpl; rewrite Hsx|done|done].
  unfold interpolate_valid_rows. cbn [shape tail dtype_of].
  set (src := mkarray float64 [length sx; 2] _).
  set (kept := valid_rows src (np.array1 dt vals)).
  assert (Hrows : np.rows src = zip_with (fun a b => [a; b]) sx sy).
  { apply xy_rows. congruence. }
  assert (Hkept_len2 : Forall (fun r => length r = np.size [2]) kept.*1).
  { apply Forall_forall. intros r Hr. apply valid_rows_fst in Hr. rewrite Hrows in Hr.
    by apply zip_with_pair_elem_of in Hr as (a & b & -> & _). }
  assert (Hne : kept <> []).
  { apply (valid_rows_nonempty src (np.array1 dt vals) k v); [|done|done].
    rewrite Hrows, length_zip_with. simpl. lia. }
  set (tree := cKDTree.mk (length kept) 2 kept.*1).
  set (targets := zip_with (fun a b => [a; b]) tx ty).
  (* every target has a nearest source *)
  assert (Hknn : forall a b, a ∈ tx -> b ∈ ty ->
            exists i y, cKDTree.knn tree 1 [a; b] = [(cKDTree.distance [a; b] y, i)] /\
              kept.*1 !! i = Some y /\
              forall i' y', kept.*1 !! i' = Some y' ->
                (cKDTree.distance [a; b] y <=? cKDTree.distance [a; b] y')%float = true).
  { intros a b Ha Hb.
    assert (Hall : forall i' y', kept.*1 !! i' = Some y' ->
              (cKDTree.distance [a; b] y' <? infinity)%float = true).
    { intros i' y' Hy'. apply list_elem_of_lookup_2, valid_rows_fst in Hy'.
      rewrite Hrows in Hy'. apply zip_with_pair_elem_of in Hy' as (a' & b' & -> & Ha' & Hb').
      by apply Hnear. }
    destruct (knn_one_min tree [a; b]) as (i & y & Hknn & Hy & Hmin).
    { destruct kept as [|[r0 v0] kept'] eqn:Hkept; [done|]. exists r0. split; [left|].
      by apply (Hall 0). }
    exists i, y. split; [done|]. split; [done|]. intros i' y' Hy'. apply (Hmin i'); [done|].
    by eapply Hall. }
  set (ix := map (fun r => default (cKDTree.n tree) (head r))
               (map (map snd) (map (cKDTree.knn tree 1) targets))).
  assert (Hix : Forall (fun i => i < length kept) ix).
  { unfold ix. rewrite !Forall_map. apply Forall_forall. intros t Hin.
    apply zip_with_pair_elem_of in Hin as (a & b & -> & Ha & Hb).
    destruct (Hknn a b Ha Hb) as (i & y & -> & Hy & _). simpl.
    apply lookup_lt_Some in Hy. by rewrite length_fmap in Hy. }
  assert (Hixlen : length ix = length tx).
  { unfold ix, targets. rewrite !length_map, length_zip_with. lia. }
  exists (map (fun i => default nan (kept.*2 !! i)) ix).
  split; [|split].
  - (* the constructor *)
    cbn [init call Nearest_class]. unfold Nearest.__init__, xy.
    cbn [IpolBase._make_coord_arrays shape bind np.len cKDTree.build].
    rewrite (rows_of_concat float64 (length kept) [2] kept.*1);
      [|by rewrite length_fmap|done].
    unfold cKDTree.query. cbn [shape cKDTree.m]. rewrite decide_True by done.
    rewrite decide_False by done. cbn [bind fst snd].
    rewrite (xy_rows tx ty Ht). fold tree targets ix.
    (* the call *)
    unfold Nearest.__call__, IpolBase._check_shape.
    cbn [np.len shape bind Nearest.numsources].
    rewrite decide_True by done. cbn [bind Nearest.ix].
    rewrite <- (length_fmap snd kept).
    rewrite take_rows_1d_data by (by rewrite length_fmap).
    by rewrite Hixlen.
  - by rewrite length_map.
  - intros j a b Ha Hb.
    destruct (Hknn a b) as (i & y & Hk1 & Hy & Hmin);
      [by eapply list_elem_of_lookup_2|by eapply list_elem_of_lookup_2|].
    assert (Hj : ix !! j = Some i).
    { unfold ix, targets. rewrite !list_lookup_fmap.
      rewrite (proj2 (lookup_zip_with_Some _ tx ty j [a; b]));
        [|by exists a, b]. simpl. by rewrite Hk1. }
    rewrite list_lookup_fmap in Hy.
    destruct (kept !! i) as [[r v0]|] eqn:Hi; [|done]. simpl in Hy. injection Hy as ->.
    destruct (valid_rows_lookup _ _ _ _ _ Hi) as (Hfin0 & k0 & Hr0 & Hv0).
    rewrite Hrows in Hr0. apply lookup_zip_with_Some in Hr0 as (x0 & y0 & -> & Hx0 & Hy0).
    exists k0, x0, y0, v0. repeat split; try done.
    + rewrite list_lookup_fmap, Hj. simpl. by rewrite list_lookup_fmap, Hi.
    + intros k' x' y' v' Hx' Hy' Hv' Hfin'.
      destruct (valid_rows_elem_of src (np.array1 dt vals) k' [x'; y'] v') as [i' Hi'];
        [|done|done|].
      { rewrite Hrows. apply lookup_zip_with_Some. by exists x', y'. }
      apply (Hmin i'). fold kept in Hi'. by rewrite list_lookup_fmap, Hi'.
Qed.

(** ** Writing and deleting by position *)

Lemma scatter_length (d : list float) (ix : list nat) (v : list float) :
  length (np.scatter d ix v) = length d.
Proof.
  revert d v. induction ix as [|i ix IH]; intros d [|x v]; simpl; try done.
  by rewrite IH, length_insert.
Qed.

Lemma scatter_notin (d : list float) (ix : list nat) (v : list float) (k : nat) :
  k ∉ ix -> np.scatter d ix v !! k = d !! k.
Proof.
  revert d v. induction ix as [|i ix IH]; intros d [|x v] Hk; simpl; try done.
  apply not_elem_of_cons in Hk as [Hki Hk]. rewrite IH by done.
  by apply list_lookup_insert_ne.
Qed.

Lemma scatter_in (d : list float) (ix : list nat) (v : list float) (j k : nat) (x : float) :
  NoDup ix -> ix !! j = Some k -> v !! j = Some x -> k < length d ->
  np.scatter d ix v !! k = Some x.
Proof.
  revert d v j. induction ix as [|i ix IH]; intros d [|y v] [|j] Hnd Hj Hx Hk;
    simplify_eq/=.
  - apply NoDup_cons in Hnd as [Hni _]. rewrite scatter_notin by done.
    by apply list_lookup_insert_eq.
  - apply NoDup_cons in Hnd as [_ Hnd]. apply (IH _ _ j); try done.
    by rewrite length_insert.
Qed.

Lemma where_from_NoDup (c : list bool) (k : nat) : NoDup (np.where_from k c).
Proof.
  revert k. induction c as [|b c IH]; intros k; simpl; [constructor|].
  destruct b; [|done]. constructor; [|done].
  rewrite where_from_spec. lia.
Qed.

Lemma where1_NoDup (c : list bool) : NoDup (np.where1 c).
Proof. apply where_from_NoDup. Qed.

Lemma forallb_lt (n : nat) (ix : list nat) :
  forallb (fun i => i <? n) ix = true <-> Forall (fun i => i < n) ix.
Proof.
  induction ix as [|i ix IH]; simpl; [by split; [constructor|]|].
  rewrite andb_true_iff, IH, Forall_cons, Nat.ltb_lt. done.
Qed.

Lemma setitem_ix_inv (a v a' : ndarray) (ix : list nat) :
  np.setitem_ix a ix v = Ok a' ->
  Forall (fun i => i < length (data a)) ix /\
  exists d,
    np.broadcast_to (shape v) (map (np.cast (dtype_of v) (dtype_of a)) (data v)) [length ix]
    = Some d /\
    a' = mkarray (dtype_of a) (shape a) (np.scatter (data a) ix d).
Proof.
  unfold np.setitem_ix. destruct (forallb _ ix) eqn:Hix; [|done].
  apply forallb_lt in Hix. intros H. split; [done|].
  destruct (np.broadcast_to _ _ _) as [d|]; [|done]. injection H as <-. eauto.
Qed.

Lemma delete_inv (l r : list float) (ix : list nat) :
  np.delete l ix = Ok r -> r = np.delete_from 0 l ix.
Proof. unfold np.delete. destruct (forallb _ _); [|done]. by intros [= <-]. Qed.

Lemma delete_Ok (l : list float) (ix : list nat) :
  Forall (fun i => i < length l) ix -> np.delete l ix = Ok (np.delete_from 0 l ix).
Proof. intros H. unfold np.delete. apply forallb_lt in H. by rewrite H. Qed.

Lemma delete_from_subset (k : nat) (l : list float) (ix : list nat) (x : float) :
  x ∈ np.delete_from k l ix -> x ∈ l.
Proof.
  revert k. induction l as [|y l IH]; intros k; simpl; [done|].
  destruct (bool_decide _).
  - intros H. right. by eapply IH.
  - intros [->|H]%elem_of_cons; [left|right; by eapply IH].
Qed.

Lemma delete_from_length_eq (k : nat) (l l' : list float) (ix : list nat) :
  length l = length l' ->
  length (np.delete_from k l ix) = length (np.delete_from k l' ix).
Proof.
  revert k l'. induction l as [|y l IH]; intros k [|y' l'] Hlen; simplify_eq/=; [done|].
  destruct (bool_decide _); simpl; auto.
Qed.

Lemma delete_from_keeps (k j : nat) (l : list float) (ix : list nat) (x : float) :
  l !! j = Some x -> (k + j) ∉ ix -> x ∈ np.delete_from k l ix.
Proof.
  revert k j. induction l as [|y l IH]; intros k [|j] Hj Hni; simplify_eq/=.
  - rewrite Nat.add_0_r in Hni. rewrite bool_decide_eq_false_2 by done. left.
  - assert (x ∈ np.delete_from (S k) l ix).
    { apply (IH _ j); [done|]. by replace (S k + j) with (k + S j) by lia. }
    destruct (bool_decide _); [done|by right].
Qed.

Lemma is_finite_not_nan (x : float) :
  PrimFloat.is_finite x = true -> PrimFloat.is_nan x = false.
Proof. unfold PrimFloat.is_finite. by destruct (PrimFloat.is_nan x). Qed.

(** ** The two passes of [interpolate_polar] *)

(** What a first pass that returned has left. *)
Lemma first_pass_inv (cos sin : float -> float) (field : ndarray)
    (mask : option mask_array) (I : Interpolator) (nrays nbins : nat)
    (bx by_ : list float) (st : polar_pass) :
  shape field = [nrays; nbins] ->
  bin_coordinates cos sin nrays nbins = Ok (bx, by_) ->
  first_pass cos sin field mask I = Ok st ->
  let clutter := np.where1 (used_mask field mask) in
  binx st = bx /\ biny st = by_ /\
  src_coord st = xy (np.delete_from 0 bx clutter) (np.delete_from 0 by_ clutter) /\
  values_list st
  = np.array1 (dtype_of field) (np.delete_from 0 (data field) clutter) /\
  dtype_of (filled_data st) = dtype_of field /\
  shape (filled_data st) = [np.size (shape field)] /\
  length (data (filled_data st)) = length (data field).
Proof.
  intros Hs Hgrid H clutter. unfold first_pass in H. fold clutter in H.
  rewrite Hs, Hgrid in H. cbn [bind fst snd] in H.
  apply bind_Ok in H as (sx & Hsx & H). apply bind_Ok in H as (sy & Hsy & H).
  apply bind_Ok in H as (tx & Htx & H). apply bind_Ok in H as (ty & Hty & H).
  apply bind_Ok in H as (values & Hvalues & H).
  apply bind_Ok in H as (filling & Hfilling & H).
  apply bind_Ok in H as (fd & Hfd & H). injection H as <-. simpl.
  apply delete_inv in Hsx as ->, Hsy as ->, Hvalues as ->.
  apply setitem_ix_inv in Hfd as (_ & d & _ & ->). simpl.
  rewrite scatter_length, Hs. done.
Qed.

Lemma delete_from_lookup3 (k : nat) (a b c : list float) (ix : list nat) (i : nat)
    (x y z : float) :
  length a = length b -> length a = length c ->
  np.delete_from k a ix !! i = Some x -> np.delete_from k b ix !! i = Some y ->
  np.delete_from k c ix !! i = Some z ->
  exists j, ((k + j) ∉ ix) /\ a !! j = Some x /\ b !! j = Some y /\ c !! j = Some z.
Proof.
  revert k b c i. induction a as [|a0 a IH]; intros k [|b0 b] [|c0 c] i Hb Hc;
    simplify_eq/=; [done|].
  destruct (bool_decide (k ∈ ix)) eqn:Hk.
  - intros Hx Hy Hz. destruct (IH (S k) b c i Hb Hc Hx Hy Hz) as (j & Hj & ? & ? & ?).
    exists (S j). replace (k + S j) with (S k + j) by lia. done.
  - apply bool_decide_eq_false in Hk. destruct i as [|i]; simpl.
    + intros [= <-] [= <-] [= <-]. exists 0. by rewrite Nat.add_0_r.
    + intros Hx Hy Hz. destruct (IH (S k) b c i Hb Hc Hx Hy Hz) as (j & Hj & ? & ? & ?).
      exists (S j). replace (k + S j) with (S k + j) by lia. done.
Qed.

Lemma delete_from_keeps3 (k j : nat) (a b c : list float) (ix : list nat) (x y z : float) :
  a !! j = Some x -> b !! j = Some y -> c !! j = Some z -> (k + j) ∉ ix ->
  exists i, np.delete_from k a ix !! i = Some x /\ np.delete_from k b ix !! i = Some y /\
            np.delete_from k c ix !! i = Some z.
Proof.
  revert k j b c. induction a as [|a0 a IH]; intros k [|j] [|b0 b] [|c0 c] Hx Hy Hz Hni;
    simplify_eq/=.
  - rewrite Nat.add_0_r in Hni. rewrite bool_decide_eq_false_2 by done. by exists 0.
  - destruct (IH (S k) j b c Hx Hy Hz) as (i & ? & ? & ?).
    { by replace (S k + j) with (k + S j) by lia. }
    destruct (bool_decide _); [by exists i|by exists (S i)].
Qed.

Lemma take_ix_lookup {A} (l r : list A) (ix : list nat) (j i : nat) :
  np.take_ix l ix = Ok r -> ix !! j = Some i -> r !! j = l !! i /\ is_Some (l !! i).
Proof.
  intros H Hj. apply mapR_Ok_inv in H.
  destruct (Forall2_lookup_l _ _ _ _ _ H Hj) as (x & Hx & Hi).
  destruct (l !! i) as [x'|]; [|done]. injection Hi as ->. split; [done|by eexists].
Qed.

Lemma used_mask_length (field : ndarray) (mask : option mask_array) (n : nat) :
  np.size (shape field) = n ->
  match mask with Some m => length (mask_data m) = n | None => True end ->
  length (used_mask field mask) = n.
Proof.
  intros Hn Hm. unfold used_mask. destruct mask as [m|]; [|by rewrite length_replicate].
  destruct (np.any _); [done|by rewrite length_replicate].
Qed.

(** A bin that is not listed as masked is not masked. *)
Lemma not_clutter (c : list bool) (j : nat) :
  j < length c -> (j ∉ np.where1 c) <-> c !! j = Some false.
Proof.
  intros Hj. rewrite where1_spec. destruct (lookup_lt_is_Some_2 c j Hj) as [[] Hb];
    rewrite Hb; split; congruence.
Qed.

(** The first pass with [Nearest] returns. *)
Lemma first_pass_nearest_Ok (cos sin : float -> float) (field : ndarray)
    (mask : option mask_array) (nrays nbins : nat) (bx by_ : list float) :
  shape field = [nrays; nbins] -> np.wf field ->
  match mask with Some m => length (mask_data m) = nrays * nbins | None => True end ->
  grid_ok cos sin nrays nbins bx by_ ->
  bins_near bx by_ ->
  (exists k x, source_bin field mask k x) ->
  exists st, first_pass cos sin field mask Nearest_class = Ok st.
Proof.
  intros Hs Hwf Hmask (Hgrid & Hbx & Hby) Hnear (k & x & Hmk & Hxk & Hfin).
  assert (Hsize : length (data field) = nrays * nbins).
  { unfold np.wf in Hwf. by rewrite Hwf, Hs, !size_cons, size_nil, Nat.mul_1_r. }
  assert (Hmlen : length (used_mask field mask) = nrays * nbins).
  { apply used_mask_length; [|done]. rewrite Hs, !size_cons, size_nil. lia. }
  unfold first_pass. set (clutter := np.where1 (used_mask field mask)).
  assert (Hcl : Forall (fun i => i < nrays * nbins) clutter).
  { rewrite <- Hmlen. apply where1_Forall_lt. }
  rewrite Hs, Hgrid. cbn [bind fst snd].
  rewrite (delete_Ok bx), (delete_Ok by_), (delete_Ok (data field))
    by (by rewrite ?Hbx, ?Hby, ?Hsize).
  cbn [bind].
  destruct (take_ix_Ok bx clutter) as (tx & Htx & Htxlen & Htxin); [by rewrite Hbx|].
  destruct (take_ix_Ok by_ clutter) as (ty & Hty & Htylen & Htyin); [by rewrite Hby|].
  rewrite Htx, Hty. cbn [bind].
  destruct (interpolate_nearest_xy (np.delete_from 0 bx clutter) (np.delete_from 0 by_ clutter)
              tx ty (dtype_of field) (np.delete_from 0 (data field) clutter))
    as (f & Hf & Hflen & _).
  { apply delete_from_length_eq. congruence. }
  { apply delete_from_length_eq. congruence. }
  { congruence. }
  { assert (Hin : x ∈ np.delete_from 0 (data field) clutter).
    { apply (delete_from_keeps 0 k); [done|].
      unfold clutter. rewrite where1_spec. simpl. congruence. }
    apply list_elem_of_lookup in Hin as [k' Hk']. by exists k', x. }
  { intros a b a' b' Ha Hb Ha' Hb'. rewrite Forall_forall in Htxin, Htyin.
    apply Hnear; eauto using delete_from_subset. }
  rewrite Hf. cbn [bind].
  unfold np.setitem_ix. cbn [np.ravel data shape dtype_of].
  rewrite (proj2 (forallb_lt _ _)) by (by rewrite Hsize).
  rewrite map_cast_same, Htxlen, broadcast_to_same by congruence.
  cbn [np.or_raise bind]. eauto.
Qed.

(** C3 (amended). For a 2-d field and a mask of its shape, when at least
    one bin is a source (not masked, with a finite value) and the bin grid
    exists with all its distances finite: the first pass with [Nearest], the
    default, returns; and whenever the first pass with the chosen
    interpolator has returned, [interpolate_polar] returns an array of the
    shape of the field WITHOUT NaN ENTRIES. An entry that is not NaN after
    the first pass is kept as it is (an infinite one included), and every
    NaN entry, masked or not, is replaced by the value of a NEAREST source
    bin: no source bin is closer to it. *)
Theorem interpolate_polar_no_nan (cos sin : float -> float) (field : ndarray)
    (mask : option mask_array) (I : Interpolator) (nrays nbins : nat)
    (bx by_ : list float) :
  shape field = [nrays; nbins] -> np.wf field ->
  match mask with Some m => length (mask_data m) = nrays * nbins | None => True end ->
  grid_ok cos sin nrays nbins bx by_ ->
  bins_near bx by_ ->
  (exists k x, source_bin field mask k x) ->
  (exists st, first_pass cos sin field mask Nearest_class = Ok st) /\
  forall st, first_pass cos sin field mask I = Ok st ->
    exists out,
      interpolate_polar cos sin field mask I = Ok out /\
      shape out = [nrays; nbins] /\
      Forall (fun x => PrimFloat.is_nan x = false) (data out) /\
      (forall i x, data (filled_data st) !! i = Some x -> PrimFloat.is_nan x = false ->
         data out !! i = Some x) /\
      (forall i x, data (filled_data st) !! i = Some x -> PrimFloat.is_nan x = true ->
         exists a b k v xk yk,
           bx !! i = Some a /\ by_ !! i = Some b /\
           source_bin field mask k v /\ bx !! k = Some xk /\ by_ !! k = Some yk /\
           data out !! i = Some v /\
           forall k' v' x' y',
             source_bin field mask k' v' -> bx !! k' = Some x' -> by_ !! k' = Some y' ->
             (cKDTree.distance [a; b] [xk; yk]
              <=? cKDTree.distance [a; b] [x'; y'])%float = true).
Proof.
  intros Hs Hwf Hmask Hgrid0 Hnear Hsrc.
  split; [by apply (first_pass_nearest_Ok cos sin field mask nrays nbins bx by_)|].
  destruct Hgrid0 as (Hgrid & Hbx & Hby). destruct Hsrc as (k & x & Hmk & Hxk & Hfin).
  intros st Hfirst.
  assert (Hsize : length (data field) = nrays * nbins).
  { unfold np.wf in Hwf. by rewrite Hwf, Hs, !size_cons, size_nil, Nat.mul_1_r. }
  assert (Hmlen : length (used_mask field mask) = nrays * nbins).
  { apply used_mask_length; [|done]. rewrite Hs, !size_cons, size_nil. lia. }
  destruct (first_pass_inv cos sin field mask I nrays nbins bx by_ st Hs Hgrid Hfirst)
    as (Hbinx & Hbiny & Hsrc & Hvals & Hdt & Hshape & Hlen).
  set (clutter := np.where1 (used_mask field mask)) in *.
  unfold interpolate_polar. rewrite Hfirst, Hs. cbn [bind].
  assert (Hreshape : forall d, np.reshape (mkarray (dtype_of field) [np.size (shape field)] d)
                                 [nrays; nbins]
                               = Ok (mkarray (dtype_of field) [nrays; nbins] d)).
  { intros d. unfold np.reshape. cbn [shape]. rewrite decide_True; [done|].
    rewrite Hs, !size_cons, size_nil. lia. }
  unfold fallback_pass. destruct (np.any (np.isnan (filled_data st))) eqn:Hany.
  2:{ (* no NaN after the first pass *)
    cbn [bind]. destruct (filled_data st) as [dt sh d] eqn:Hfd. simpl in *. subst dt sh.
    rewrite Hreshape. eexists. split; [reflexivity|]. split; [done|]. simpl.
    assert (HF : Forall (fun x => PrimFloat.is_nan x = false) d).
    { clear -Hany. unfold np.any, np.isnan in Hany. simpl in Hany.
      induction d as [|y d IH]; [constructor|]. simpl in Hany.
      apply orb_false_elim in Hany as [Hy Hd]. constructor; auto. }
    split; [done|]. split; [done|].
    intros i y Hi Hy. rewrite Forall_forall in HF.
    rewrite HF in Hy; [done|]. by eapply list_elem_of_lookup_2. }
  set (fd := filled_data st) in *.
  set (nans := np.where1 (np.isnan fd)).
  assert (Hnans : Forall (fun i => i < length (data fd)) nans).
  { unfold nans, np.isnan. rewrite <- (length_map PrimFloat.is_nan (data fd)).
    apply where1_Forall_lt. }
  rewrite Hbinx, Hbiny.
  destruct (take_ix_Ok bx nans) as (tx & Htx & Htxlen & Htxin); [by rewrite Hbx, <- Hsize, <- Hlen|].
  destruct (take_ix_Ok by_ nans) as (ty & Hty & Htylen & Htyin); [by rewrite Hby, <- Hsize, <- Hlen|].
  rewrite Htx, Hty. cbn [bind]. rewrite Hsrc, Hvals.
  destruct (interpolate_nearest_xy (np.delete_from 0 bx clutter) (np.delete_from 0 by_ clutter)
              tx ty (dtype_of field) (np.delete_from 0 (data field) clutter))
    as (f & Hf & Hflen & Hfmin).
  { apply delete_from_length_eq. congruence. }
  { apply delete_from_length_eq. congruence. }
  { congruence. }
  { assert (Hin : x ∈ np.delete_from 0 (data field) clutter).
    { apply (delete_from_keeps 0 k); [done|].
      unfold clutter. rewrite where1_spec. simpl. congruence. }
    apply list_elem_of_lookup in Hin as [k' Hk']. by exists k', x. }
  { intros a b a' b' Ha Hb Ha' Hb'. rewrite Forall_forall in Htxin, Htyin.
    apply Hnear; eauto using delete_from_subset. }
  rewrite Hf. cbn [bind].
  (* the NaN entries are overwritten *)
  unfold np.setitem_ix. rewrite (proj2 (forallb_lt _ _) Hnans).
  cbn [shape data dtype_of]. rewrite Hdt, map_cast_same.
  rewrite Htxlen, broadcast_to_same by congruence. unfold np.or_raise. cbn [bind].
  rewrite Hshape, Hreshape.
  eexists. split; [reflexivity|]. split; [done|]. cbn [data].
  assert (Hin : forall i j, nans !! j = Some i ->
            exists a b k v xk yk,
              bx !! i = Some a /\ by_ !! i = Some b /\
              source_bin field mask k v /\ bx !! k = Some xk /\ by_ !! k = Some yk /\
              np.scatter (data fd) nans f !! i = Some v /\
              forall k' v' x' y',
                source_bin field mask k' v' -> bx !! k' = Some x' -> by_ !! k' = Some y' ->
                (cKDTree.distance [a; b] [xk; yk]
                 <=? cKDTree.distance [a; b] [x'; y'])%float = true).
  { intros i j Hj.
    destruct (take_ix_lookup _ _ _ _ _ Htx Hj) as [Hta [a Ha]].
    destruct (take_ix_lookup _ _ _ _ _ Hty Hj) as [Htb [b Hb]].
    rewrite Ha in Hta. rewrite Hb in Htb.
    destruct (Hfmin j a b Hta Htb) as (k0 & xk & yk & v & Hxk0 & Hyk0 & Hv0 & Hfv & Hfj & Hmin).
    destruct (delete_from_lookup3 0 bx by_ (data field) clutter k0 xk yk v)
      as (kb & Hkb & Hbxk & Hbyk & Hdk); [congruence|congruence|done|done|done|].
    simpl in Hkb.
    assert (Hkm : used_mask field mask !! kb = Some false).
    { apply not_clutter; [|done]. rewrite Hmlen, <- Hbx. by eapply lookup_lt_Some. }
    exists a, b, kb, v, xk, yk. repeat split; try done.
    - apply (scatter_in _ _ _ j); [apply where1_NoDup|done|done|].
      rewrite Forall_forall in Hnans. apply Hnans. by eapply list_elem_of_lookup_2.
    - intros k' v' x' y' (Hm' & Hd' & Hf') Hx' Hy'.
      destruct (delete_from_keeps3 0 k' bx by_ (data field) clutter x' y' v')
        as (i' & Hi1 & Hi2 & Hi3); [done|done|done| |].
      { simpl. apply not_clutter; [|done]. rewrite Hmlen, <- Hbx. by eapply lookup_lt_Some. }
      by apply (Hmin i' x' y' v'). }
  assert (Hout : forall i y, data fd !! i = Some y -> PrimFloat.is_nan y = false ->
            np.scatter (data fd) nans f !! i = Some y).
  { intros i y Hi Hy. rewrite scatter_notin; [done|].
    unfold nans, np.isnan. rewrite where1_spec, list_lookup_fmap, Hi. simpl. congruence. }
  assert (Hnan_in : forall i y, data fd !! i = Some y -> PrimFloat.is_nan y = true ->
            exists j, nans !! j = Some i).
  { intros i y Hi Hy. apply list_elem_of_lookup. unfold nans, np.isnan.
    rewrite where1_spec, list_lookup_fmap, Hi. simpl. congruence. }
  split; [|split].
  - apply Forall_forall. intros y Hy. apply list_elem_of_lookup in Hy as [i Hi].
    assert (Hi' : i < length (data fd)).
    { apply lookup_lt_Some in Hi. by rewrite scatter_length in Hi. }
    destruct (lookup_lt_is_Some_2 _ _ Hi') as [z Hz].
    destruct (PrimFloat.is_nan z) eqn:Hnz.
    + destruct (Hnan_in i z Hz Hnz) as [j Hj].
      destruct (Hin i j Hj) as (a & b & kb & v & xk & yk & _ & _ & (_ & _ & Hfv) & _ & _ & Hv & _).
      rewrite Hi in Hv. injection Hv as <-. by apply is_finite_not_nan.
    + rewrite (Hout i z Hz Hnz) in Hi. by injection Hi as <-.
  - exact Hout.
  - intros i y Hi Hy. destruct (Hnan_in i y Hi Hy) as [j Hj]. exact (Hin i j Hj).
Qed.

(** ** Fields of one ray *)

Lemma one_ray_angles (nbins : nat) : polar_angles 1 nbins = replicate nbins 0%float.
Proof.
  unfold polar_angles, np.repeat.
  replace (map np.radians (np.arange 0 360 (360 / np.of_nat 1))) with [0%float]
    by (vm_compute; reflexivity).
  simpl. apply app_nil_r.
Qed.

(** The bin coordinates of one ray under any cosine and sine that are exact
    at 0. *)
Lemma one_ray_grid3 (cos sin : float -> float) :
  cos 0%float = 1%float -> sin 0%float = 0%float ->
  bin_coordinates cos sin 1 3 = Ok ([0.5; 1.5; 2.5]%float, [0; 0; 0]%float).
Proof.
  intros Hc Hs. unfold bin_coordinates. rewrite one_ray_angles. simpl.
  rewrite Hc, Hs. vm_compute. reflexivity.
Qed.

Lemma one_ray_grid2 (cos sin : float -> float) :
  cos 0%float = 1%float -> sin 0%float = 0%float ->
  bin_coordinates cos sin 1 2 = Ok ([0.5; 1.5]%float, [0; 0]%float).
Proof.
  intros Hc Hs. unfold bin_coordinates. rewrite one_ray_angles. simpl.
  rewrite Hc, Hs. vm_compute. reflexivity.
Qed.

(** C3 as stated fails. An infinite value in an unmasked bin stays in the
    output, which looks for NaN only; and when the only unmasked bin holds a
    NaN there is an unmasked bin but no source, and the call raises. *)
Lemma interpolate_polar_keeps_inf :
  (forall cos sin : float -> float, cos 0%float = 1%float -> sin 0%float = 0%float ->
     interpolate_polar cos sin (Examples.ray infinity 1 2)
       (Some Examples.last_bin_masked) Nearest_class
     = Ok (Examples.ray infinity 1 1)) /\
  PrimFloat.is_finite infinity = false /\
  (forall cos sin : float -> float, cos 0%float = 1%float -> sin 0%float = 0%float ->
     interpolate_polar cos sin (mkarray float64 [1; 2] [nan; 1%float])
       (Some (mkmask [1; 2] [false; true])) Nearest_class
     = Raise IndexError).
Proof.
  split; [|split; [reflexivity|]]; intros cos sin Hc Hs.
  - unfold interpolate_polar, first_pass. cbn [shape Examples.ray].
    rewrite (one_ray_grid3 cos sin Hc Hs). vm_compute. reflexivity.
  - unfold interpolate_polar, first_pass. cbn [shape].
    rewrite (one_ray_grid2 cos sin Hc Hs). vm_compute. reflexivity.
Qed.

(** C7 as stated fails. No bin is masked, and the NaN in the first bin
    comes back as the value of the nearest bin. *)
Lemma interpolate_polar_replaces_nan :
  (forall cos sin : float -> float, cos 0%float = 1%float -> sin 0%float = 0%float ->
     interpolate_polar cos sin (Examples.ray nan 1 2) None Nearest_class
     = Ok (Examples.ray 1 1 2)) /\
  Examples.ray 1 1 2 <> Examples.ray nan 1 2.
Proof.
  split; [|discriminate]. intros cos sin Hc Hs.
  unfold interpolate_polar, first_pass. cbn [shape Examples.ray].
  rewrite (one_ray_grid3 cos sin Hc Hs). vm_compute. reflexivity.
Qed.

Lemma interpolate_polar_no_mask_witness :
  interpolate_polar Examples.cos_ray0 Examples.sin_ray0
    (Examples.ray 1 2 3) None Nearest_class
  = Ok (Examples.ray 1 2 3).
Proof.
  apply (interpolate_polar_no_mask _ _ _ None Nearest_class 1 3
           [0.5; 1.5; 2.5]%float [0; 0; 0]%float).
  - reflexivity.
  - reflexivity.
  - reflexivity.
  - exact I.
  - split; [|split; reflexivity]. by apply one_ray_grid3.
  - apply Nearest_empty_answer.
Defined.

Lemma one_ray_bins_near : bins_near [0.5; 1.5; 2.5]%float [0; 0; 0]%float.
Proof.
  intros x y x' y' Hx Hy Hx' Hy'.
  repeat match goal with
         | H : _ ∈ _ :: _ |- _ => apply elem_of_cons in H as [->|H]
         | H : _ ∈ [] |- _ => by apply elem_of_nil in H
         end; vm_compute; reflexivity.
Defined.

Lemma interpolate_polar_no_nan_witness :
  let field := Examples.ray 1 2 nan in
  let bx := [0.5; 1.5; 2.5]%float in
  let by_ := [0; 0; 0]%float in
  interpolate_polar Examples.cos_ray0 Examples.sin_ray0 field None Nearest_class
  = Ok (Examples.ray 1 2 2) /\
  source_bin field None 0 1 /\ source_bin field None 1 2 /\
  exists st out,
    first_pass Examples.cos_ray0 Examples.sin_ray0 field None Nearest_class = Ok st /\
    interpolate_polar Examples.cos_ray0 Examples.sin_ray0 field None Nearest_class = Ok out /\
    shape out = [1; 3] /\
    Forall (fun x => PrimFloat.is_nan x = false) (data out) /\
    exists a b k v xk yk,
      bx !! 2 = Some a /\ by_ !! 2 = Some b /\
      source_bin field None k v /\ bx !! k = Some xk /\ by_ !! k = Some yk /\
      data out !! 2 = Some v /\
      forall k' v' x' y',
        source_bin field None k' v' -> bx !! k' = Some x' -> by_ !! k' = Some y' ->
        (cKDTree.distance [a; b] [xk; yk]
         <=? cKDTree.distance [a; b] [x'; y'])%float = true.
Proof.
  cbv zeta.
  split; [vm_compute; reflexivity|].
  split; [repeat split; reflexivity|]. split; [repeat split; reflexivity|].
  destruct (interpolate_polar_no_nan Examples.cos_ray0 Examples.sin_ray0
              (Examples.ray 1 2 nan) None Nearest_class 1 3
              [0.5; 1.5; 2.5]%float [0; 0; 0]%float eq_refl eq_refl I)
    as [[st Hst] Hall].
  - split; [|split; reflexivity]. by apply one_ray_grid3.
  - exact one_ray_bins_near.
  - exists 0, 1%float. repeat split; reflexivity.
  - destruct (Hall st Hst) as (out & Hout & Hshape & Hnan & _ & Hnear).
    exists st, out. split; [exact Hst|]. split; [exact Hout|]. split; [exact Hshape|].
    split; [exact Hnan|].
    vm_compute in Hst. injection Hst as <-.
    exact (Hnear 2 nan eq_refl eq_refl).
Defined.

(** ** [interpolate] on 1-d values: the claim *)

(** C8. On a 1-d value array [interpolate] drops the source rows whose
    value is not finite, coordinates and values alike, builds one
    interpolator on the rows left and calls it on the values left. For
    sources [[0],[1],[2]], values [1, NaN, 3] and the target [[1]] the rows
    left are ([0], 1) and ([2], 3), and [Idw] with two neighbours returns
    2.0: under every [pow], every summation that gives 1 + 1 = 2 and every
    inner product that gives 0.5 * 1 + 0.5 * 3 = 2, operations that are all
    exact. *)
Theorem interpolate_1d_drops_invalid (src : ndarray) (trg : coords) (vals : ndarray)
    (I : Interpolator) (n : nat) (s : list nat) :
  shape src = n :: s -> shape vals = [n] -> length (data vals) = n ->
  interpolate (CoordArray src) trg vals I = interpolate_valid_rows src trg vals I
  /\ valid_rows (mkarray float64 [3; 1] [0; 1; 2]%float) (Examples.values [1; nan; 3]%float)
     = [([0], 1); ([2], 3)]%float
  /\ forall (add_reduce : list float -> float) (ddot : list float -> list float -> float)
       (pow : float -> float -> float),
       add_reduce [1; 1]%float = 2%float ->
       ddot [0.5; 0.5]%float [1; 3]%float = 2%float ->
       interpolate (Examples.points [0; 1; 2]%float) (Examples.points [1]%float)
         (Examples.values [1; nan; 3]%float) (Idw_class add_reduce ddot pow 2 2%float)
       = Ok (mkarray float32 [1] [2%float]).
Proof.
  intros Hsrc Hvals Hlen. split; [by apply (interpolate_1d _ _ _ _ n s)|].
  split; [vm_compute; reflexivity|]. intros add_reduce ddot pow Hsum Hdot.
  cbv -[np.round_f4 PrimFloat.div]. change (1 / 1)%float with 1%float. rewrite Hsum.
  change (1 / 2)%float with 0.5%float. rewrite Hdot. reflexivity.
Qed.

Lemma interpolate_1d_drops_invalid_witness :
  let src := mkarray float64 [3; 1] [0; 1; 2]%float in
  let vals := Examples.values [1; nan; 3]%float in
  interpolate (CoordArray src) (Examples.points [1]%float) vals Nearest_class
  = interpolate_valid_rows src (Examples.points [1]%float) vals Nearest_class.
Proof.
  cbv zeta.
  exact (proj1 (interpolate_1d_drops_invalid
                  (mkarray float64 [3; 1] [0; 1; 2]%float) (Examples.points [1]%float)
                  (Examples.values [1; nan; 3]%float) Nearest_class 3 [1]
                  eq_refl eq_refl eq_refl)).
Defined.

(** * Further properties of the module *)

(** ** Coordinate arguments *)

(** X1. [_make_coord_arrays] on an array: it returns exactly for arrays of
    rank 1 and 2 and raises the exception on 3-d arrays for every other
    rank, rank 0 included. What it returns is a 2-d array with the entries,
    the dtype and the first-axis length (the number of points) of its
    argument, and normalising that result once more changes nothing. *)
Theorem make_coord_arrays_array (a : ndarray) :
  (np.ndim a <> 1 -> np.ndim a <> 2 ->
   IpolBase._make_coord_arrays (CoordArray a)
   = Raise (Exception "Cannot deal wih 3-d arrays, yet.")) /\
  (np.ndim a = 1 \/ np.ndim a = 2 ->
   is_ok (IpolBase._make_coord_arrays (CoordArray a)) = true) /\
  (forall r, IpolBase._make_coord_arrays (CoordArray a) = Ok r ->
     np.ndim r = 2 /\ dtype_of r = dtype_of a /\ data r = data a /\
     np.len r = np.len a /\ (np.wf a -> np.wf r) /\
     IpolBase._make_coord_arrays (CoordArray r) = Ok r).
Proof.
  unfold IpolBase._make_coord_arrays, np.ndim, np.len, np.wf.
  destruct a as [dt [|n [|m [|k s]]] d]; simpl.
  - split; [done|]. split; [intros [|]; done|]. done.
  - split; [done|]. split; [done|]. intros r [= <-]. simpl.
    rewrite !size_cons, size_nil. repeat split; try done; lia.
  - split; [done|]. split; [done|]. intros r [= <-]. simpl. done.
  - split; [done|]. split; [intros [|]; done|]. done.
Qed.

Lemma concat_uniform_lookup {A} (sz : nat) (rs : list (list A)) (i j : nat) (r : list A) :
  Forall (fun r => length r = sz) rs -> rs !! i = Some r -> j < sz ->
  concat rs !! (i * sz + j) = r !! j.
Proof.
  intros Hall. revert i. induction Hall as [|r0 rs Hr0 _ IH]; intros i Hi Hj; [done|].
  destruct i as [|i]; simpl in *.
  - injection Hi as ->. apply lookup_app_l. lia.
  - rewrite lookup_app_r by lia. replace (sz + i * sz + j - length r0) with (i * sz + j) by lia.
    by apply IH.
Qed.

Lemma columns_data_lookup (cols : list (list float)) (n i j : nat) (c : list float) :
  Forall (fun c' => length c' = n) cols -> i < n -> cols !! j = Some c ->
  concat (map (fun i => map (fun c' => default nan (c' !! i)) cols) (seq 0 n))
    !! (i * length cols + j) = c !! i.
Proof.
  intros Hall Hi Hj.
  assert (Hj' : j < length cols) by (by eapply lookup_lt_Some).
  rewrite (concat_uniform_lookup (length cols) _ i j
             (map (fun c' : list float => default nan (c' !! i)) cols)).
  - rewrite list_lookup_fmap, Hj. simpl.
    rewrite Forall_forall in Hall.
    assert (Hc : length c = n) by (apply Hall; by eapply list_elem_of_lookup_2).
    destruct (lookup_lt_is_Some_2 c i) as [x Hx]; [lia|]. by rewrite Hx.
  - apply Forall_map, Forall_forall. intros k _. simpl. by rewrite length_map.
  - rewrite list_lookup_fmap, lookup_seq_lt by done. done.
  - done.
Qed.

(** X2. [_make_coord_arrays] on a list or tuple of coordinate arrays, one
    per axis and each with [n] entries (of whatever shape): the result has
    one row per point and one column per axis, and entry (i, j) is the
    [i]-th entry of the [j]-th array. *)
Theorem make_coord_arrays_sequence (items : list ndarray) (n : nat) :
  items <> [] ->
  Forall (fun it => np.wf it /\ np.size (shape it) = n) items ->
  exists r,
    IpolBase._make_coord_arrays (CoordSeq items) = Ok r /\
    shape r = [n; length items] /\ np.wf r /\
    forall i j it, i < n -> items !! j = Some it ->
      data r !! (i * length items + j) = data it !! i.
Proof.
  intros Hne Hall. unfold IpolBase._make_coord_arrays, IpolBase.columns.
  set (cols := map (fun item => data (np.ravel item)) items).
  assert (Hcols : Forall (fun c' => length c' = n) cols).
  { unfold cols. apply Forall_map. eapply Forall_impl; [exact Hall|].
    intros it [Hwf Hn]. simpl. unfold np.wf in Hwf. congruence. }
  assert (Hlen : length cols = length items) by (unfold cols; by rewrite length_map).
  destruct cols as [|c cols'] eqn:Hc; [by destruct items|].
  rewrite <- Hc in *.
  assert (Hcn : length c = n).
  { rewrite Hc in Hcols. by apply Forall_cons in Hcols as [? _]. }
  assert (Hb : forallb (fun c' => length c' =? length c) cols = true).
  { apply forallb_forall. intros c' Hin. apply Nat.eqb_eq. rewrite Hcn.
    rewrite Forall_forall in Hcols. apply Hcols. by apply list_elem_of_In. }
  rewrite Hb. eexists. split; [reflexivity|]. simpl. rewrite Hcn, Hlen.
  split; [done|]. split.
  - unfold np.wf. simpl. rewrite (concat_length_uniform (length cols)).
    + rewrite length_map, length_seq, !size_cons, size_nil. lia.
    + apply Forall_map, Forall_forall. intros k _. simpl. by rewrite length_map.
  - intros i j it Hi Hj. rewrite <- Hlen.
    apply (columns_data_lookup cols n i j (data it) Hcols Hi).
    unfold cols. by rewrite list_lookup_fmap, Hj.
Qed.

Lemma make_coord_arrays_sequence_witness :
  let x := mkarray float64 [3] [0; 1; 2]%float in
  let y := mkarray float64 [3] [5; 6; 7]%float in
  exists r,
    IpolBase._make_coord_arrays (CoordSeq [x; y]) = Ok r /\
    shape r = [3; 2] /\ data r = [0; 5; 1; 6; 2; 7]%float.
Proof.
  cbv zeta.
  destruct (make_coord_arrays_sequence
              [mkarray float64 [3] [0; 1; 2]%float; mkarray float64 [3] [5; 6; 7]%float] 3)
    as (r & Hr & Hs & _ & _).
  - discriminate.
  - repeat constructor.
  - exists r. split; [exact Hr|]. split; [exact Hs|].
    vm_compute in Hr. injection Hr as <-. reflexivity.
Defined.

(** ** [Nearest] and [Linear] *)

Lemma mapR_Raise {A B} (f : A -> result B) (e : exn) (l : list A) :
  Forall (fun x => is_ok (f x) = true \/ f x = Raise e) l ->
  Exists (fun x => f x = Raise e) l -> mapR f l = Raise e.
Proof.
  intros Hall Hex. induction Hex as [x l Hx|x l _ IH]; simpl.
  - by rewrite Hx.
  - apply Forall_cons in Hall as [[Hok|Hr] Hall].
    + destruct (f x); [|done]. simpl. by rewrite (IH Hall).
    + by rewrite Hr.
Qed.

Lemma take_rows_row (a : ndarray) (n : nat) (s : list nat) (ix : list nat) (j i : nat) :
  np.wf a -> shape a = n :: s -> Forall (fun i => i < n) ix -> ix !! j = Some i ->
  np.row (mkarray (dtype_of a) (length ix :: s) (concat (map (np.row a) ix))) j
  = np.row a i.
Proof.
  intros Hwf Hs Hix Hj.
  assert (Hrs : Forall (fun r => length r = np.size s) (map (np.row a) ix)).
  { apply Forall_map. eapply Forall_impl; [exact Hix|]. intros k Hk. simpl.
    by apply (row_length a n s). }
  pose proof (rows_of_concat (dtype_of a) (length ix) s (map (np.row a) ix)
                (length_map _ _) Hrs) as Hrows.
  assert (Hlt : j < length ix) by (by eapply lookup_lt_Some).
  pose proof (rows_lookup (mkarray (dtype_of a) (length ix :: s)
                             (concat (map (np.row a) ix))) _ s j eq_refl Hlt) as Hl.
  rewrite Hrows, list_lookup_fmap, Hj in Hl. simpl in Hl. by injection Hl.
Qed.

(** X3. [Nearest.__call__]: values whose first-axis length is not the
    number of source points fail the assertion, whatever the threshold; with
    the right length, a stored index outside the values (the spatial index
    reports a target without neighbour so) raises IndexError; and otherwise
    the call without threshold returns, in the dtype of the values and
    unrounded, one item per target: the item of the values at the stored
    index of that target. *)
Theorem Nearest_call_rows (self : Nearest.t) (vals : ndarray) (n : nat) (s : list nat) :
  shape vals = n :: s -> np.wf vals ->
  (n <> Nearest.numsources self ->
   forall maxdist, Nearest.__call__ self vals maxdist = Raise AssertionError) /\
  (n = Nearest.numsources self -> Exists (fun i => n <= i) (Nearest.ix self) ->
   forall maxdist, Nearest.__call__ self vals maxdist = Raise IndexError) /\
  (n = Nearest.numsources self -> Forall (fun i => i < n) (Nearest.ix self) ->
   exists out,
     Nearest.__call__ self vals None = Ok out /\
     dtype_of out = dtype_of vals /\ shape out = length (Nearest.ix self) :: s /\
     forall j i, Nearest.ix self !! j = Some i -> np.row out j = np.row vals i).
Proof.
  intros Hs Hwf. unfold Nearest.__call__, IpolBase._check_shape, np.len. rewrite Hs.
  cbn [bind]. split; [|split].
  - intros Hn maxdist. by rewrite decide_False.
  - intros Hn Hex maxdist. rewrite decide_True by done. cbn [bind].
    unfold np.take_rows. rewrite Hs.
    rewrite (mapR_Raise _ IndexError); [done| |].
    + apply Forall_forall. intros i _. destruct (i <? n); auto.
    + eapply Exists_impl; [exact Hex|]. intros i Hi. simpl.
      apply Nat.ltb_ge in Hi. by rewrite Hi.
  - intros Hn Hall. rewrite decide_True by done. cbn [bind].
    rewrite (take_rows_Ok vals n s _ Hs Hall). cbn [bind].
    eexists. split; [reflexivity|]. split; [done|]. split; [done|].
    intros j i Hj. by apply (take_rows_row vals n s).
Qed.

Lemma Nearest_call_rows_witness :
  let vals := mkarray float64 [2; 2] [1; 2; 3; 4]%float in
  exists nn out,
    Nearest.__init__ (Examples.points [0; 10]%float) (Examples.points [1; 8; 4]%float) = Ok nn /\
    Nearest.__call__ nn vals None = Ok out /\
    shape out = [3; 2] /\ np.row out 1 = np.row vals 1 /\
    (forall maxdist, Nearest.__call__ nn (Examples.values [1; 2; 3]%float) maxdist
                     = Raise AssertionError).
Proof.
  cbv zeta.
  assert (Hinit : Nearest.__init__ (Examples.points [0; 10]%float)
                    (Examples.points [1; 8; 4]%float)
                  = Ok (Nearest.mk 3 2 (cKDTree.mk 2 1 [[0]; [10]]%float)
                          [1; 2; 4]%float [0; 1; 0]))
    by (vm_compute; reflexivity).
  eexists. 
  destruct (Nearest_call_rows (Nearest.mk 3 2 (cKDTree.mk 2 1 [[0]; [10]]%float)
                                 [1; 2; 4]%float [0; 1; 0])
              (mkarray float64 [2; 2] [1; 2; 3; 4]%float) 2 [2] eq_refl eq_refl)
    as (_ & _ & Hok).
  destruct (Hok eq_refl) as (out & Hcall & _ & Hshape & Hrows).
  { repeat constructor. }
  destruct (Nearest_call_rows (Nearest.mk 3 2 (cKDTree.mk 2 1 [[0]; [10]]%float)
                                 [1; 2; 4]%float [0; 1; 0])
              (Examples.values [1; 2; 3]%float) 3 [] eq_refl eq_refl)
    as (Hbad & _ & _).
  exists out. split; [exact Hinit|]. split; [exact Hcall|]. split; [exact Hshape|].
  split; [exact (Hrows 1 1 eq_refl)|]. apply Hbad. discriminate.
Defined.

(** X4. The distance threshold of [Nearest] on 1-d values: the entry of a
    target is NaN where its stored distance exceeds [maxdist] and the value
    at its stored index otherwise (also where the stored distance is NaN,
    which exceeds nothing); the dtype of the values is kept, but for an
    integer one, which becomes float64 to hold the NaN. *)
Theorem Nearest_call_maxdist_1d (self : Nearest.t) (vals : ndarray) (maxdist : float) :
  shape vals = [Nearest.numsources self] -> np.wf vals ->
  length (Nearest.dists self) = length (Nearest.ix self) ->
  Forall (fun i => i < Nearest.numsources self) (Nearest.ix self) ->
  Nearest.__call__ self vals (Some maxdist)
  = Ok (mkarray (np.with_nan (dtype_of vals)) [length (Nearest.ix self)]
          (zip_with (fun d i => if (maxdist <? d)%float then nan
                                else default nan (data vals !! i))
             (Nearest.dists self) (Nearest.ix self))).
Proof.
  intros Hs Hwf Hlen Hall. unfold Nearest.__call__, IpolBase._check_shape, np.len.
  rewrite Hs. cbn [bind]. rewrite decide_True by done. cbn [bind].
  destruct vals as [dt sh d]. simpl in *. subst sh.
  unfold np.wf in Hwf. simpl in Hwf. rewrite size_cons, size_nil, Nat.mul_1_r in Hwf.
  rewrite <- Hwf in *. rewrite take_rows_1d_data by done. cbn [bind].
  unfold np.where3. cbn [shape data dtype_of]. rewrite length_map, Hlen.
  unfold np.broadcast_shapes. simpl. rewrite decide_True by done. cbn [bind option_map np.or_raise].
  change (reverse [length (Nearest.ix self)]) with [length (Nearest.ix self)].
  rewrite !broadcast_to_same by (by rewrite length_map). cbn [bind np.or_raise].
  do 2 f_equal.
  rewrite zip_with_fmap_l, zip_with_fmap_r. done.
Qed.

Lemma Nearest_call_maxdist_1d_witness :
  Nearest.__call__
    (Nearest.mk 2 2 (cKDTree.mk 2 1 [[0]; [10]]%float) [1; 4]%float [0; 0])
    (Examples.values [7; 8]%float) (Some 2%float)
  = Ok (mkarray float64 [2] [7; nan]%float).
Proof.
  refine (Nearest_call_maxdist_1d
            (Nearest.mk 2 2 (cKDTree.mk 2 1 [[0]; [10]]%float) [1; 4]%float [0; 0])
            (Examples.values [7; 8]%float) 2%float eq_refl eq_refl eq_refl _).
  repeat constructor.
Defined.

(** X5. [Linear.__init__] takes the lengths of its arguments as they are
    given, before the conversion: built from a list or tuple of coordinate
    arrays it records the number of arrays (the number of axes) as its
    number of source points. Its [__call__] then fails the assertion on
    every value array whose first axis has another length, whatever the
    number of points, and hands the others to scipy's interpolator together
    with the fill value. *)
Theorem Linear_counts_axes
    (LinearNDInterpolator : ndarray -> ndarray -> float -> ndarray -> result ndarray)
    (items : list ndarray) (trg : coords) (self : Linear.t) (vals : ndarray)
    (fill_value : float) (n : nat) (s : list nat) :
  Linear.__init__ (CoordSeq items) trg = Ok self -> shape vals = n :: s ->
  Linear.numsources self = length items /\
  (n <> length items ->
   Linear.__call__ LinearNDInterpolator self vals fill_value = Raise AssertionError) /\
  (n = length items ->
   Linear.__call__ LinearNDInterpolator self vals fill_value
   = LinearNDInterpolator (Linear.src self) vals fill_value (Linear.trg self)).
Proof.
  intros Hinit Hs. unfold Linear.__init__ in Hinit.
  apply bind_Ok in Hinit as (s0 & _ & Hinit). apply bind_Ok in Hinit as (g & _ & Hinit).
  apply bind_Ok in Hinit as (nt & _ & Hinit). simpl in Hinit. injection Hinit as <-.
  simpl. split; [done|].
  unfold Linear.__call__, IpolBase._check_shape, np.len. rewrite Hs. simpl.
  split; intros Hn; [by rewrite decide_False|by rewrite decide_True].
Qed.

Lemma Linear_counts_axes_witness :
  let x := mkarray float64 [3] [0; 1; 2]%float in
  let y := mkarray float64 [3] [5; 6; 7]%float in
  let self := Linear.mk (mkarray float64 [3; 2] [0; 5; 1; 6; 2; 7]%float)
                (mkarray float64 [1; 1] [1]%float) 1 2 in
  Linear.__init__ (CoordSeq [x; y]) (Examples.points [1]%float) = Ok self /\
  Linear.numsources self = 2 /\
  forall L, Linear.__call__ L self (Examples.values [1; 2; 3]%float) nan
            = Raise AssertionError.
Proof.
  cbv zeta.
  assert (Hinit : Linear.__init__
                    (CoordSeq [mkarray float64 [3] [0; 1; 2]%float;
                               mkarray float64 [3] [5; 6; 7]%float])
                    (Examples.points [1]%float)
                  = Ok (Linear.mk (mkarray float64 [3; 2] [0; 5; 1; 6; 2; 7]%float)
                          (mkarray float64 [1; 1] [1]%float) 1 2))
    by (vm_compute; reflexivity).
  split; [exact Hinit|]. split; [reflexivity|]. intros L.
  refine (proj1 (proj2 (Linear_counts_axes L _ _ _ (Examples.values [1; 2; 3]%float) nan 3 []
                          Hinit eq_refl)) _).
  discriminate.
Defined.

(** ** [Idw] with one neighbour, and without any *)

Lemma where1_all_false (c : list bool) : Forall (fun b => b = false) c -> np.where1 c = [].
Proof.
  intros H. apply where1_none. unfold np.any. apply not_true_is_false. intros Hex.
  apply existsb_exists in Hex as (b & Hin & Hb). rewrite Forall_forall in H.
  apply list_elem_of_In in Hin. rewrite (H b Hin) in Hb. done.
Qed.

Lemma loop_no_neighbour (add_reduce : list float -> float)
    (ddot : list float -> list float -> float) (pow : float -> float -> float)
    (self : Idw.t) (vals : ndarray)
    (todo : list (list float * list nat)) (j : nat) (interpol : ndarray) :
  Idw.nnearest self <> 1 ->
  Exists (fun q => Forall (fun d => PrimFloat.is_finite d = false) q.1) todo ->
  is_ok (Idw.loop add_reduce ddot pow self vals todo j interpol) = false.
Proof.
  intros Hk Hex. revert j interpol.
  induction Hex as [[dist ix] todo Hbad|[dist ix] todo _ IH]; intros j interpol; simpl.
  - unfold Idw.target. rewrite where1_all_false by (by apply Forall_map).
    simpl. by rewrite decide_False.
  - destruct (Idw.target add_reduce ddot pow self vals dist ix); [|done]. simpl.
    destruct (np.setitem interpol j _); [|done]. simpl. apply IH.
Qed.

(** X7. An evaluation of [Idw] with [nnearest] other than 1 does not return
    when some target has no neighbour at a finite distance (the spatial
    index reports the missing neighbours at distance [inf]): no retained
    distance is left for [dist[0]]. When the first target is such a one,
    the exception is IndexError. *)
Theorem Idw_call_no_neighbour (add_reduce : list float -> float)
    (ddot : list float -> list float -> float) (pow : float -> float -> float)
    (self : Idw.t)
    (vals : ndarray) :
  Idw.nnearest self <> 1 ->
  length (Idw.ix self) = length (Idw.dists self) ->
  Exists (fun dist => Forall (fun d => PrimFloat.is_finite d = false) dist)
    (Idw.dists self) ->
  is_ok (Idw.__call__ add_reduce ddot pow self vals) = false /\
  (forall dist dists', Idw.dists self = dist :: dists' ->
     Forall (fun d => PrimFloat.is_finite d = false) dist ->
     Idw.__call__ add_reduce ddot pow self vals = Raise IndexError).
Proof.
  intros Hk Hlen Hex. unfold Idw.__call__.
  destruct (shape vals) as [|n s]; [split; [done|]; by intros|].
  rewrite interpol_init. cbn [bind]. split.
  - apply loop_no_neighbour; [done|].
    apply Exists_exists in Hex as (dist & Hin & Hbad).
    apply list_elem_of_lookup in Hin as [k Hk'].
    destruct (lookup_lt_is_Some_2 (Idw.ix self) k) as [ix Hix].
    { rewrite Hlen. by eapply lookup_lt_Some. }
    apply Exists_exists. exists (dist, ix). split; [|done].
    apply (list_elem_of_lookup_2 _ k). apply lookup_zip_with_Some. eauto.
  - intros dist dists' Hd Hbad. rewrite Hd in *.
    destruct (Idw.ix self) as [|ix ixs]; [done|]. simpl.
    unfold Idw.target. rewrite where1_all_false by (by apply Forall_map).
    simpl. by rewrite decide_False.
Qed.

Lemma Idw_call_no_neighbour_witness :
  let self := Idw.mk 1 1 2 2%float (cKDTree.mk 1 1 [[-1e308]]%float)
                [[infinity; infinity]] [[1; 1]] in
  Idw.__init__ (Examples.points [-1e308]%float) (Examples.points [1e308]%float) 2 2%float
  = Ok self /\
  forall add_reduce ddot pow vals, Idw.__call__ add_reduce ddot pow self vals = Raise IndexError.
Proof.
  cbv zeta. split; [vm_compute; reflexivity|]. intros add_reduce ddot pow vals.
  refine (proj2 (Idw_call_no_neighbour add_reduce ddot pow
                   (Idw.mk 1 1 2 2%float (cKDTree.mk 1 1 [[-1e308]]%float)
                      [[infinity; infinity]] [[1; 1]]) vals _ eq_refl _) _ _ eq_refl _).
  - discriminate.
  - left. repeat constructor.
  - repeat constructor.
Defined.

Lemma knn_length (tr : cKDTree.t) (k : nat) (x : list float) :
  length (cKDTree.knn tr k x) = k.
Proof.
  unfold cKDTree.knn. rewrite length_app, length_replicate, length_take. lia.
Qed.

Lemma knn_finite_index (tr : cKDTree.t) (k : nat) (x : list float) (d : float) (i : nat) :
  (d, i) ∈ cKDTree.knn tr k x -> PrimFloat.is_finite d = true ->
  i < length (cKDTree.points tr).
Proof.
  unfold cKDTree.knn. intros Hin Hfin. apply elem_of_app in Hin as [Hin|Hin].
  - apply elem_of_take in Hin as (? & Hin & _). apply list_elem_of_lookup_2 in Hin.
    apply neighbours_elem_of in Hin as (y & Hy & _). by eapply lookup_lt_Some.
  - apply elem_of_replicate in Hin as [[= -> ->] _]. done.
Qed.

(** The tables of [Idw] with one neighbour and of [Nearest] built from the
    same coordinates: one list of query answers of one entry each. *)
Lemma one_neighbour_tables (src trg : coords) (p : float) (idw : Idw.t) (nn : Nearest.t) :
  Idw.__init__ src trg 1 p = Ok idw -> Nearest.__init__ src trg = Ok nn ->
  Idw.nnearest idw = 1 /\ Idw.numsources idw = Nearest.numsources nn /\
  exists q : list (float * nat),
    Idw.dists idw = map (fun e => [e.1]) q /\ Idw.ix idw = map (fun e => [e.2]) q /\
    Nearest.dists nn = q.*1 /\ Nearest.ix nn = q.*2 /\
    Forall (fun e => PrimFloat.is_finite e.1 = true -> e.2 < Nearest.numsources nn) q.
Proof.
  unfold Idw.__init__, Nearest.__init__. intros Hi Hn.
  apply bind_Ok in Hi as (src' & Hsrc & Hi). rewrite Hsrc in Hn. cbn [bind] in Hn.
  apply bind_Ok in Hi as (trg' & Htrg & Hi). rewrite Htrg in Hn. cbn [bind] in Hn.
  apply bind_Ok in Hi as (nt & Hnt & Hi). rewrite Hnt in Hn. cbn [bind] in Hn.
  apply bind_Ok in Hi as (ns & Hns & Hi). rewrite Hns in Hn. cbn [bind] in Hn.
  apply bind_Ok in Hi as (tree & Htree & Hi). rewrite Htree in Hn. cbn [bind] in Hn.
  apply bind_Ok in Hi as (q & Hq & [= <-]). rewrite Hq in Hn. cbn [bind] in Hn.
  injection Hn as <-. simpl. split; [done|]. split; [done|].
  unfold cKDTree.build in Htree. unfold np.len in Hns.
  destruct (shape src') as [|n0 [|m [|? ?]]] eqn:Hs; try done.
  injection Hns as <-. injection Htree as <-.
  unfold cKDTree.query in Hq. destruct (shape trg') as [|? [|dm [|? ?]]]; try done.
  destruct (decide _) as [_|]; [|done]. simpl in Hq. injection Hq as <-. simpl.
  set (tr := cKDTree.mk n0 m (np.rows src')).
  assert (Hone : forall x, exists e, cKDTree.knn tr 1 x = [e]).
  { intros x. pose proof (knn_length tr 1 x) as Hl.
    destruct (cKDTree.knn tr 1 x) as [|e [|? ?]]; try done. eauto. }
  exists (map (fun x => default (infinity, n0) (head (cKDTree.knn tr 1 x))) (np.rows trg')).
  rewrite !map_map. repeat split.
  - apply map_ext. intros x. destruct (Hone x) as [en ->]. done.
  - apply map_ext. intros x. destruct (Hone x) as [en ->]. done.
  - apply map_ext. intros x. destruct (Hone x) as [en ->]. done.
  - apply map_ext. intros x. destruct (Hone x) as [en ->]. done.
  - apply Forall_map, Forall_forall. intros x _. simpl.
    destruct (Hone x) as [[d i] He]. rewrite He. simpl. intros Hfin.
    assert (Hin : (d, i) ∈ cKDTree.knn tr 1 x) by (rewrite He; left).
    apply knn_finite_index in Hin; [|done]. simpl in Hin.
    rewrite rows_length in Hin. unfold np.nrows in Hin. by rewrite Hs in Hin.
Qed.

(** X6. [Idw] with [nnearest = 1] "defaults to nearest neighbour": built
    from the same coordinates as a [Nearest] interpolator whose targets all
    have a neighbour at a finite distance, and called on the same values of
    rank 1 or 2 with one item per source point, it returns what [Nearest]
    returns converted to float32. The power plays no part. *)
Theorem Idw_one_neighbour_is_Nearest (add_reduce : list float -> float)
    (ddot : list float -> list float -> float) (pow : float -> float -> float)
    (src trg : coords)
    (p : float) (idw : Idw.t) (nn : Nearest.t) (vals : ndarray) (s : list nat) :
  Idw.__init__ src trg 1 p = Ok idw -> Nearest.__init__ src trg = Ok nn ->
  np.wf vals -> shape vals = Nearest.numsources nn :: s -> length s <= 1 ->
  Forall (fun d => PrimFloat.is_finite d = true) (Nearest.dists nn) ->
  exists out,
    Nearest.__call__ nn vals None = Ok out /\
    Idw.__call__ add_reduce ddot pow idw vals = Ok (np.astype float32 out).
Proof.
  intros Hidw Hnn Hwf Hs Hrank Hfin.
  destruct (one_neighbour_tables src trg p idw nn Hidw Hnn)
    as (Hk & Hns & q & Hd & Hix & Hnd & Hnix & Hq).
  set (n := Nearest.numsources nn) in *.
  assert (Hall : Forall (fun i => i < n) (Nearest.ix nn)).
  { rewrite Hnix. apply Forall_fmap. rewrite Hnd in Hfin.
    apply Forall_fmap in Hfin. apply Forall_forall. intros e He. simpl.
    rewrite Forall_forall in Hq, Hfin. apply Hq; [done|]. by apply Hfin. }
  (* what Nearest returns *)
  exists (mkarray (dtype_of vals) (length (Nearest.ix nn) :: s)
            (concat (map (np.row vals) (Nearest.ix nn)))).
  split.
  { unfold Nearest.__call__, IpolBase._check_shape, np.len. rewrite Hs. cbn [bind].
    rewrite decide_True by done. cbn [bind]. by rewrite (take_rows_Ok vals n s). }
  (* Idw returns *)
  assert (Hfin' : Forall (fun dist => exists d, d ∈ dist /\ PrimFloat.is_finite d = true)
                    (Idw.dists idw)).
  { rewrite Hd. apply Forall_map. rewrite Hnd in Hfin. apply Forall_fmap in Hfin.
    eapply Forall_impl; [exact Hfin|]. intros e He. simpl. exists e.1. split; [left|done]. }
  destruct (Idw_init_neighbours src trg 1 p idw n Hidw) as [Hlen Hwithin];
    [rewrite Hns; done|done|].
  destruct (is_ok_true _ (Idw_call_Ok add_reduce ddot pow idw vals n s Hwf Hs Hrank Hlen Hwithin))
    as [out Hcall].
  rewrite Hcall. f_equal.
  destruct (Idw_call_spec add_reduce ddot pow idw vals out Hwf Hcall)
    as (Hdt & Hshape & Hwfo & Hrows).
  rewrite Hs in Hshape, Hrows. simpl in Hshape, Hrows.
  assert (Hlq : length (Idw.dists idw) = length q) by (by rewrite Hd, length_map).
  assert (Hlix : length (Nearest.ix nn) = length q) by (by rewrite Hnix, length_fmap).
  (* row by row *)
  assert (Hout : np.rows out
                 = map (fun i => map (np.cast (dtype_of vals) float32) (np.row vals i))
                     (Nearest.ix nn)).
  { apply list_eq. intros j. rewrite list_lookup_fmap.
    destruct (decide (j < length q)) as [Hj|Hj].
    - destruct (lookup_lt_is_Some_2 q j Hj) as [[d i] Hqj].
      rewrite (rows_lookup out _ s j Hshape) by lia.
      rewrite Hnix, list_lookup_fmap, Hqj. simpl. f_equal.
      destruct (Hrows j [d] [i]) as (wz & dd & Hwz & Hdd & Hrow).
      { apply lookup_zip_with_Some. exists [d], [i]. split; [done|].
        rewrite Hd, Hix, !list_lookup_fmap, Hqj. done. }
      rewrite Hrow.
      assert (Hfd : PrimFloat.is_finite d = true).
      { rewrite Hnd in Hfin. apply Forall_fmap in Hfin. rewrite Forall_forall in Hfin.
        apply (Hfin (d, i)). by eapply list_elem_of_lookup_2. }
      assert (Hi : i < n).
      { rewrite Forall_forall in Hq. apply (Hq (d, i)); [|done].
        by eapply list_elem_of_lookup_2. }
      unfold Idw.target in Hwz. simpl in Hwz. rewrite Hfd in Hwz. simpl in Hwz.
      rewrite decide_True in Hwz by done.
      rewrite (take_rows_Ok vals n s [i] Hs) in Hwz by (by constructor).
      injection Hwz as <-. simpl in Hdd. rewrite app_nil_r in Hdd.
      rewrite size_cons, Nat.mul_1_l in Hdd.
      apply broadcast_to_flat in Hdd; [done|].
      rewrite length_map. by apply (row_length vals n s).
    - rewrite !lookup_ge_None_2; [done| |].
      + rewrite Hlix. lia.
      + rewrite rows_length. unfold np.nrows. rewrite Hshape. simpl. lia. }
  destruct out as [dto sho dout]. simpl in *. subst dto sho. unfold np.astype. simpl.
  f_equal.
  - by rewrite Hlq, Hlix.
  - pose proof (data_concat_rows _ _ s Hwfo eq_refl) as Hdata. simpl in Hdata.
    rewrite Hdata, Hout. clear. induction (Nearest.ix nn) as [|i l IH]; simpl; [done|].
    by rewrite map_app, IH.
Qed.

Lemma Idw_one_neighbour_is_Nearest_witness :
  exists out,
    Nearest.__call__
      (Nearest.mk 1 2 (cKDTree.mk 2 1 [[0]; [4]]%float) [1]%float [0])
      (Examples.values [0.1; 2]%float) None = Ok out /\
    forall add_reduce ddot pow,
      Idw.__call__ add_reduce ddot pow
        (Idw.mk 1 2 1 2%float (cKDTree.mk 2 1 [[0]; [4]]%float) [[1]]%float [[0]])
        (Examples.values [0.1; 2]%float) = Ok (np.astype float32 out).
Proof.
  assert (Hi : Idw.__init__ (Examples.points [0; 4]%float) (Examples.points [1]%float) 1 2%float
               = Ok (Idw.mk 1 2 1 2%float (cKDTree.mk 2 1 [[0]; [4]]%float) [[1]]%float [[0]]))
    by (vm_compute; reflexivity).
  assert (Hn : Nearest.__init__ (Examples.points [0; 4]%float) (Examples.points [1]%float)
               = Ok (Nearest.mk 1 2 (cKDTree.mk 2 1 [[0]; [4]]%float) [1]%float [0]))
    by (vm_compute; reflexivity).
  assert (Hfin : Forall (fun d => PrimFloat.is_finite d = true) [1]%float)
    by (repeat constructor).
  destruct (Idw_one_neighbour_is_Nearest Examples.add_reduce Examples.ddot
              Examples.unused_pow _ _ _ _ _
              (Examples.values [0.1; 2]%float) [] Hi Hn eq_refl eq_refl (Nat.le_0_l 1) Hfin)
    as (out & Hout & _).
  exists out. split; [exact Hout|]. intros add_reduce ddot pow.
  destruct (Idw_one_neighbour_is_Nearest add_reduce ddot pow _ _ _ _ _
              (Examples.values [0.1; 2]%float) [] Hi Hn eq_refl eq_refl (Nat.le_0_l 1) Hfin)
    as (out' & Hout' & Hcall).
  rewrite Hout in Hout'. injection Hout' as <-. exact Hcall.
Defined.

(** ** [interpolate] *)

(** X8. [interpolate] returns only for value arrays of rank 1 or 2: on every
    other rank, rank 0 included, it raises, whatever the interpolator. *)
Theorem interpolate_returns_rank (src trg : coords) (vals : ndarray) (I : Interpolator) :
  is_ok (interpolate src trg vals I) = true -> np.ndim vals = 1 \/ np.ndim vals = 2.
Proof.
  unfold interpolate. destruct (np.ndim vals) as [|[|[|k]]]; auto.
  - destruct (negb _); [done|]. by destruct (init I src trg).
  - destruct (negb _); [done|]. by destruct (init I src trg).
Qed.

Lemma interpolate_returns_rank_witness :
  let vals := Examples.values [1; nan; 3]%float in
  is_ok (interpolate (Examples.points [0; 1; 2]%float) (Examples.points [1]%float) vals
           Nearest_class) = true /\
  (np.ndim vals = 1 \/ np.ndim vals = 2).
Proof.
  cbv zeta.
  assert (H : is_ok (interpolate (Examples.points [0; 1; 2]%float)
                       (Examples.points [1]%float) (Examples.values [1; nan; 3]%float)
                       Nearest_class) = true) by (vm_compute; reflexivity).
  split; [exact H|]. exact (interpolate_returns_rank _ _ _ _ H).
Defined.

Lemma where_from_all_true (c : list bool) (k : nat) :
  Forall (fun b => b = true) c -> np.where_from k c = seq k (length c).
Proof.
  intros H. revert k. induction H as [|b c -> _ IH]; intros k; simpl; [done|].
  by rewrite IH.
Qed.

Lemma take_rows_all (a : ndarray) (n : nat) (s : list nat) :
  np.wf a -> shape a = n :: s -> np.take_rows a (seq 0 n) = Ok a.
Proof.
  intros Hwf Hs.
  assert (Hall : Forall (fun i => i < n) (seq 0 n)).
  { apply Forall_forall. intros i Hi. apply elem_of_seq in Hi. lia. }
  rewrite (take_rows_Ok a n s _ Hs Hall).
  assert (Hrows : map (np.row a) (seq 0 n) = np.rows a).
  { apply list_eq. intros i. rewrite list_lookup_fmap.
    destruct (decide (i < n)) as [Hi|Hi].
    - by rewrite lookup_seq_lt, (rows_lookup a n s) by done.
    - rewrite lookup_seq_ge by lia. rewrite lookup_ge_None_2; [done|].
      rewrite rows_length. unfold np.nrows. rewrite Hs. simpl. lia. }
  rewrite Hrows, <- (data_concat_rows a n s Hwf Hs), length_seq.
  destruct a as [dt sh d]. simpl in *. by subst sh.
Qed.

(** X9. On 1-d values without a NaN or an infinity [interpolate] is the
    interpolator itself: it is built on all the source points and called on
    the values as they are. *)
Theorem interpolate_1d_clean (src : ndarray) (trg : coords) (vals : ndarray)
    (I : Interpolator) (n : nat) (s : list nat) :
  shape src = n :: s -> np.wf src -> shape vals = [n] -> np.wf vals ->
  Forall (fun v => PrimFloat.is_finite v = true) (data vals) ->
  interpolate (CoordArray src) trg vals I
  = (let* ip := init I (CoordArray src) trg in call I ip vals).
Proof.
  intros Hs Hwf Hv Hwfv Hfin. unfold interpolate, np.ndim. rewrite Hv. simpl.
  assert (Hlen : length (data vals) = n).
  { unfold np.wf in Hwfv. rewrite Hv, size_cons, size_nil in Hwfv. lia. }
  unfold np.where1, np.isfinite. rewrite where_from_all_true by (by apply Forall_map).
  rewrite length_map, Hlen, (take_rows_all src n s Hwf Hs). cbn [bind].
  destruct (init I (CoordArray src) trg) as [ip|]; [|done]. cbn [bind].
  by rewrite (take_rows_all vals n [] Hwfv Hv).
Qed.

Lemma interpolate_1d_clean_witness :
  let src := mkarray float64 [2; 1] [0; 4]%float in
  let vals := Examples.values [1; 3]%float in
  interpolate (CoordArray src) (Examples.points [1]%float) vals Nearest_class
  = (let* ip := init Nearest_class (CoordArray src) (Examples.points [1]%float) in
     call Nearest_class ip vals).
Proof.
  cbv zeta.
  refine (interpolate_1d_clean (mkarray float64 [2; 1] [0; 4]%float) _
            (Examples.values [1; 3]%float) Nearest_class 2 [1]
            eq_refl eq_refl eq_refl eq_refl _).
  repeat constructor.
Defined.

Lemma scatter_blocks_one (d : list float) (offs : list nat) (blocks : list (list float)) :
  Forall (fun b => length b = 1) blocks -> Forall (fun o => o < length d) offs ->
  length (np.scatter_blocks d 1 offs blocks) = length d /\
  forall k, k ∉ offs -> np.scatter_blocks d 1 offs blocks !! k = d !! k.
Proof.
  intros Hb. revert d blocks Hb. induction offs as [|o offs IH]; intros d blocks Hb Ho.
  - simpl. split; [done|]. done.
  - destruct blocks as [|b blocks]; [by split|]. simpl.
    apply Forall_cons in Hb as [Hb1 Hb]. apply Forall_cons in Ho as [Ho1 Ho].
    assert (Hlen : length (take o d ++ b ++ drop (o + 1) d) = length d).
    { rewrite !length_app, length_take, length_drop. lia. }
    destruct (IH (take o d ++ b ++ drop (o + 1) d) blocks Hb) as [Hl Hk].
    { by rewrite Hlen. }
    split; [lia|]. intros k Hnot. apply not_elem_of_cons in Hnot as [Hko Hnot].
    rewrite (Hk k Hnot).
    destruct (decide (k < o)) as [Hlt|Hge].
    + rewrite lookup_app_l by (rewrite length_take; lia). by rewrite lookup_take_lt.
    + rewrite lookup_app_r by (rewrite length_take; lia). rewrite length_take.
      rewrite lookup_app_r by lia. rewrite lookup_drop. f_equal. lia.
Qed.

Lemma setitem_col_inv (a v a' : ndarray) (ix : list nat) (i n0 n1 : nat) (s2 : list nat) :
  shape a = n0 :: n1 :: s2 -> np.setitem_col a ix i v = Ok a' ->
  Forall (fun r => r < n0) ix /\ i < n1 /\
  exists d,
    np.broadcast_to (shape v) (map (np.cast (dtype_of v) (dtype_of a)) (data v))
      (length ix :: s2) = Some d /\
    a' = mkarray (dtype_of a) (shape a)
           (np.scatter_blocks (data a) (np.size s2)
              (map (fun r => (r * n1 + i) * np.size s2) ix)
              (np.chunks (length ix) (np.size s2) d)).
Proof.
  intros Hs. unfold np.setitem_col. rewrite Hs.
  destruct (forallb _ ix && (i <? n1)) eqn:Hb; [|done].
  apply andb_true_iff in Hb as [Hix Hi]. apply forallb_lt in Hix. apply Nat.ltb_lt in Hi.
  intros H. apply bind_Ok in H as (d & Hd & [= <-]).
  split; [done|]. split; [done|]. exists d. split; [|done].
  destruct (np.broadcast_to _ _ _); simpl in Hd; congruence.
Qed.

Lemma Nearest_returns_wf : returns_wf Nearest_class.
Proof.
  intros ip v r Hwf H. simpl in H. unfold Nearest.__call__ in H.
  apply bind_Ok in H as (_ & _ & H). apply bind_Ok in H as (out & Hout & [= <-]).
  by eapply take_rows_wf.
Qed.

(** One turn of the column loop keeps the dtype, the shape and the size of
    a 2-d result, and every entry that is no NaN in the first result. *)
Lemma interpolate_column_keeps (src trg : coords) (vals : ndarray) (I : Interpolator)
    (r0 res res' : ndarray) (i T m : nat) :
  returns_wf I -> shape r0 = [T; m] ->
  dtype_of res = dtype_of r0 -> shape res = [T; m] -> np.wf res ->
  (forall k x, data r0 !! k = Some x -> PrimFloat.is_nan x = false ->
               data res !! k = Some x) ->
  interpolate_column src trg vals I (np.where_first_last (shape r0) (np.isnan r0)) res i
  = Ok res' ->
  dtype_of res' = dtype_of r0 /\ shape res' = [T; m] /\ np.wf res' /\
  (forall k x, data r0 !! k = Some x -> PrimFloat.is_nan x = false ->
               data res' !! k = Some x).
Proof.
  intros HI Hs0 Hdt Hs Hwf Hkeep H. unfold interpolate_column in H.
  apply bind_Ok in H as (col & _ & H). apply bind_Ok in H as (sg & _ & H).
  apply bind_Ok in H as (g & _ & H). apply bind_Ok in H as (ip & _ & H).
  apply bind_Ok in H as (good & Hgood & H). apply bind_Ok in H as (v & Hv & H).
  apply bind_Ok in H as (tmp & Htmp & H).
  set (broken := map fst (filter _ _)) in H.
  apply (setitem_col_inv _ _ _ _ _ T m [] Hs) in H as (Hix & Hi & d & Hd & ->).
  simpl. rewrite Hs, size_nil.
  assert (Hlen : length (data res) = T * m).
  { unfold np.wf in Hwf. rewrite Hs, !size_cons, size_nil in Hwf. lia. }
  assert (Hwfv : np.wf v).
  { apply take_ix_length in Hgood.
    destruct (np.where1 _) as [|? ?] eqn:Hw in Hv; [done|]. injection Hv as <-.
    unfold np.wf. simpl. rewrite !size_cons, size_nil, Hgood, Hw. simpl. lia. }
  assert (Hdl : length d = length broken * 1).
  { apply broadcast_to_length in Hd.
    - by rewrite Hd, size_cons, size_nil.
    - rewrite length_map. cbn [np.ravel shape data]. rewrite size_cons, size_nil.
      pose proof (HI ip v tmp Hwfv Htmp) as Hwft. unfold np.wf in Hwft. lia. }
  destruct (scatter_blocks_one (data res)
              (map (fun r => (r * m + i) * 1) broken)
              (np.chunks (length broken) 1 d)) as [Hl Hother].
  { by apply chunks_Forall_length. }
  { apply Forall_map. eapply Forall_impl; [exact Hix|]. intros r Hr. simpl in *.
    rewrite Hlen, Nat.mul_1_r.
    assert (Hle : S r * m <= T * m) by (apply Nat.mul_le_mono_r; lia).
    simpl in Hle. lia. }
  split; [done|]. split; [done|]. split.
  { unfold np.wf. simpl. rewrite Hl, Hlen, !size_cons, size_nil. lia. }
  intros k x Hk Hx. rewrite Hother; [by apply Hkeep|].
  intros Hin. apply list_elem_of_fmap in Hin as (r & -> & Hr).
  apply list_elem_of_fmap in Hr as ([r' i'] & -> & Hr).
  apply list_elem_of_filter in Hr as [Hi' Hr]. simpl in Hi'. subst i'.
  unfold np.where_first_last in Hr. rewrite Hs0 in Hr. simpl in Hr.
  apply list_elem_of_fmap in Hr as (k' & Heq & Hk').
  rewrite size_cons, size_nil, Nat.mul_1_r in Heq. injection Heq as Hr' Hi'.
  apply where1_spec in Hk'. unfold np.isnan in Hk'. rewrite list_lookup_fmap in Hk'.
  simpl in Hk.
  replace ((r' * m + i) * 1) with k' in Hk
    by (pose proof (Nat.div_mod_eq k' m); subst r' i; lia).
  rewrite Hk in Hk'. simpl in Hk'. congruence.
Qed.

Lemma interpolate_columns_keeps (src trg : coords) (vals : ndarray) (I : Interpolator)
    (r0 : ndarray) (T m : nat) (cols : list nat) (res out : ndarray) :
  returns_wf I -> shape r0 = [T; m] ->
  dtype_of res = dtype_of r0 -> shape res = [T; m] -> np.wf res ->
  (forall k x, data r0 !! k = Some x -> PrimFloat.is_nan x = false ->
               data res !! k = Some x) ->
  interpolate_columns src trg vals I (np.where_first_last (shape r0) (np.isnan r0)) cols res
  = Ok out ->
  dtype_of out = dtype_of r0 /\ shape out = [T; m] /\ np.wf out /\
  (forall k x, data r0 !! k = Some x -> PrimFloat.is_nan x = false ->
               data out !! k = Some x).
Proof.
  intros HI Hs0. revert res. induction cols as [|i cols IH]; intros res Hdt Hs Hwf Hkeep H.
  - simpl in H. injection H as <-. done.
  - simpl in H. apply bind_Ok in H as (res' & Hres' & H).
    destruct (interpolate_column_keeps src trg vals I r0 res res' i T m HI Hs0 Hdt Hs Hwf
                Hkeep Hres') as (Hdt' & Hs' & Hwf' & Hkeep').
    by apply (IH res').
Qed.

(** X10. On 2-d values [interpolate] builds one interpolator on all the
    source points and calls it on the values as they are. When that first
    result holds no NaN it is returned as it is and no other interpolator
    is built. When it does and is a 2-d array, the columns with a NaN are
    interpolated anew; what [interpolate] then returns has the dtype and
    the shape of the first result, and every entry of the first result that
    is no NaN is still in its place: only NaN entries are rewritten. *)
Theorem interpolate_2d_keeps (src trg : coords) (vals : ndarray) (I : Interpolator)
    (ip : instance I) (r0 : ndarray) :
  np.ndim vals = 2 -> init I src trg = Ok ip -> call I ip vals = Ok r0 ->
  (np.any (np.isnan r0) = false -> interpolate src trg vals I = Ok r0) /\
  (forall T m out,
     returns_wf I -> np.wf vals -> shape r0 = [T; m] ->
     interpolate src trg vals I = Ok out ->
     dtype_of out = dtype_of r0 /\ shape out = shape r0 /\
     forall k x, data r0 !! k = Some x -> PrimFloat.is_nan x = false ->
                 data out !! k = Some x).
Proof.
  intros Hnd Hinit Hcall. unfold interpolate. rewrite Hnd, Hinit. cbn [bind].
  rewrite Hcall. cbn [bind]. split.
  - intros Hnan. unfold np.where_first_last. by rewrite (where1_none _ Hnan).
  - intros T m out HI Hwf Hs0 H.
    destruct (interpolate_columns_keeps src trg vals I r0 T m _ r0 out HI Hs0 eq_refl Hs0
                (HI ip vals r0 Hwf Hcall) (fun k x Hk _ => Hk) H)
      as (Hdt & Hs & _ & Hkeep).
    rewrite Hs0. done.
Qed.

Lemma interpolate_2d_keeps_witness :
  let vals := mkarray float64 [2; 2] [1; nan; 3; 4]%float in
  let r0 := mkarray float64 [2; 2] [1; nan; 3; 4]%float in
  let out := mkarray float64 [2; 2] [1; 4; 3; 4]%float in
  call Nearest_class (Nearest.mk 2 2 (cKDTree.mk 2 1 [[0]; [10]]%float) [1; 2]%float [0; 1])
    vals = Ok r0 /\
  interpolate (Examples.points [0; 10]%float) (Examples.points [1; 8]%float) vals
    Nearest_class = Ok out /\
  dtype_of out = dtype_of r0 /\ shape out = shape r0 /\
  forall k x, data r0 !! k = Some x -> PrimFloat.is_nan x = false -> data out !! k = Some x.
Proof.
  cbv zeta.
  assert (Hinit : init Nearest_class (Examples.points [0; 10]%float)
                    (Examples.points [1; 8]%float)
                  = Ok (Nearest.mk 2 2 (cKDTree.mk 2 1 [[0]; [10]]%float)
                          [1; 2]%float [0; 1])) by (vm_compute; reflexivity).
  assert (Hcall : call Nearest_class
                    (Nearest.mk 2 2 (cKDTree.mk 2 1 [[0]; [10]]%float) [1; 2]%float [0; 1])
                    (mkarray float64 [2; 2] [1; nan; 3; 4]%float)
                  = Ok (mkarray float64 [2; 2] [1; nan; 3; 4]%float))
    by (vm_compute; reflexivity).
  assert (Hout : interpolate (Examples.points [0; 10]%float) (Examples.points [1; 8]%float)
                   (mkarray float64 [2; 2] [1; nan; 3; 4]%float) Nearest_class
                 = Ok (mkarray float64 [2; 2] [1; 4; 3; 4]%float))
    by (vm_compute; reflexivity).
  split; [exact Hcall|]. split; [exact Hout|].
  exact (proj2 (interpolate_2d_keeps (Examples.points [0; 10]%float)
                  (Examples.points [1; 8]%float)
                  (mkarray float64 [2; 2] [1; nan; 3; 4]%float) Nearest_class
                  (Nearest.mk 2 2 (cKDTree.mk 2 1 [[0]; [10]]%float) [1; 2]%float [0; 1])
                  (mkarray float64 [2; 2] [1; nan; 3; 4]%float) eq_refl Hinit Hcall)
           2 2 (mkarray float64 [2; 2] [1; 4; 3; 4]%float)
           Nearest_returns_wf eq_refl eq_refl Hout).
Defined.

(** ** [interpolate_polar] *)

Lemma reshape_inv (a r : ndarray) (s : list nat) :
  np.reshape a s = Ok r -> r = mkarray (dtype_of a) s (data a).
Proof. unfold np.reshape. destruct (decide _); [by intros [= <-]|done]. Qed.

(** What a returned result has in common with the field. *)
Lemma interpolate_polar_inv (cos sin : float -> float) (field : ndarray)
    (mask : option mask_array) (I : Interpolator) (out : ndarray) :
  interpolate_polar cos sin field mask I = Ok out ->
  exists nrays nbins rest,
    shape field = nrays :: nbins :: rest /\
    dtype_of out = dtype_of field /\ shape out = [nrays; nbins] /\
    length (data out) = length (data field) /\
    forall k x, used_mask field mask !! k <> Some true -> data field !! k = Some x ->
                PrimFloat.is_nan x = false -> data out !! k = Some x.
Proof.
  unfold interpolate_polar. intros H.
  apply bind_Ok in H as (st & Hfirst & H). apply bind_Ok in H as (fd & Hfall & H).
  destruct (shape field) as [|nrays [|nbins rest]] eqn:Hs; [done|done|].
  apply reshape_inv in H as ->. exists nrays, nbins, rest. split; [done|]. simpl.
  (* the first pass writes the masked bins only *)
  assert (H1 : dtype_of (filled_data st) = dtype_of field /\
               length (data (filled_data st)) = length (data field) /\
               forall k, used_mask field mask !! k <> Some true ->
                         data (filled_data st) !! k = data field !! k).
  { unfold first_pass in Hfirst. rewrite Hs in Hfirst.
    apply bind_Ok in Hfirst as (b & _ & Hfirst).
    apply bind_Ok in Hfirst as (sx & _ & Hfirst).
    apply bind_Ok in Hfirst as (sy & _ & Hfirst).
    apply bind_Ok in Hfirst as (tx & _ & Hfirst).
    apply bind_Ok in Hfirst as (ty & _ & Hfirst).
    apply bind_Ok in Hfirst as (values & _ & Hfirst).
    apply bind_Ok in Hfirst as (filling & _ & Hfirst).
    apply bind_Ok in Hfirst as (fd1 & Hset & [= <-]). simpl.
    apply setitem_ix_inv in Hset as (_ & d & _ & ->). simpl. split; [done|].
    split; [apply scatter_length|].
    intros k Hk. apply scatter_notin. by rewrite where1_spec. }
  destruct H1 as (Hdt1 & Hlen1 & Hkeep1).
  (* the fallback pass writes the NaN entries only *)
  unfold fallback_pass in Hfall. destruct (np.any _) in Hfall.
  - apply bind_Ok in Hfall as (tx & _ & Hfall). apply bind_Ok in Hfall as (ty & _ & Hfall).
    apply bind_Ok in Hfall as (filling & _ & Hfall).
    apply setitem_ix_inv in Hfall as (_ & d & _ & ->). simpl.
    split; [done|]. split; [done|]. split; [by rewrite scatter_length|].
    intros k x Hk Hx Hnan.
    rewrite scatter_notin; [by rewrite Hkeep1|].
    rewrite where1_spec. unfold np.isnan. rewrite list_lookup_fmap, Hkeep1, Hx by done.
    simpl. congruence.
  - injection Hfall as <-. split; [done|]. split; [done|]. split; [done|].
    intros k x Hk Hx _. by rewrite Hkeep1.
Qed.

(** X11. [interpolate_polar] leaves alone what it has no reason to touch:
    whenever it returns, the result has the dtype of the field and the shape
    (rays, bins), and every bin that is not masked and holds no NaN has the
    value it had, whatever the interpolator. *)
Theorem interpolate_polar_keeps (cos sin : float -> float) (field : ndarray)
    (mask : option mask_array) (I : Interpolator) (out : ndarray) :
  interpolate_polar cos sin field mask I = Ok out ->
  exists nrays nbins rest,
    shape field = nrays :: nbins :: rest /\
    dtype_of out = dtype_of field /\ shape out = [nrays; nbins] /\
    forall k x, used_mask field mask !! k <> Some true -> data field !! k = Some x ->
                PrimFloat.is_nan x = false -> data out !! k = Some x.
Proof.
  intros H.
  destruct (interpolate_polar_inv cos sin field mask I out H)
    as (nrays & nbins & rest & Hs & Hdt & Hso & _ & Hkeep).
  exists nrays, nbins, rest. auto.
Qed.

Lemma interpolate_polar_keeps_witness :
  let field := Examples.ray 1 2 5%float in
  let out := Examples.ray 1 2 2%float in
  interpolate_polar Examples.cos_ray0 Examples.sin_ray0 field
    (Some Examples.last_bin_masked) Nearest_class = Ok out /\
  exists nrays nbins rest,
    shape field = nrays :: nbins :: rest /\
    dtype_of out = dtype_of field /\ shape out = [nrays; nbins] /\
    forall k x, used_mask field (Some Examples.last_bin_masked) !! k <> Some true ->
                data field !! k = Some x -> PrimFloat.is_nan x = false ->
                data out !! k = Some x.
Proof.
  cbv zeta.
  assert (H : interpolate_polar Examples.cos_ray0 Examples.sin_ray0
                (Examples.ray 1 2 5%float) (Some Examples.last_bin_masked) Nearest_class
              = Ok (Examples.ray 1 2 2%float)) by (vm_compute; reflexivity).
  split; [exact H|].
  exact (interpolate_polar_keeps Examples.cos_ray0 Examples.sin_ray0
           (Examples.ray 1 2 5%float) (Some Examples.last_bin_masked) Nearest_class
           (Examples.ray 1 2 2%float) H).
Defined.

Lemma multiply_Raise (x y : list float) :
  length x <> length y -> length x <> 1 -> length y <> 1 ->
  np.multiply x y = Raise ValueError.
Proof.
  intros Hxy Hx Hy. unfold np.multiply. rewrite decide_False by done.
  destruct x as [|a [|? ?]]; [|done|]; by destruct y as [|b [|? ?]].
Qed.

Lemma tile_length (l : list float) (n : nat) : length (np.tile l n) = n * length l.
Proof.
  unfold np.tile. rewrite (concat_length_uniform (length l)).
  - by rewrite length_replicate.
  - apply Forall_forall. intros r Hr. by apply elem_of_replicate in Hr as [-> _].
Qed.

Lemma repeat_length (l : list float) (n : nat) : length (np.repeat l n) = length l * n.
Proof.
  unfold np.repeat. rewrite (concat_length_uniform n).
  - by rewrite length_map.
  - apply Forall_map, Forall_forall. intros x _. simpl. by rewrite length_replicate.
Qed.

(** X12. The azimuths of the bins come from [np.arange(0, 360, 360. / rays)],
    whose length is the rounded-up quotient of two floating-point numbers.
    Where that yields more azimuths than there are rays (as it does for 161
    rays, where it yields 162) the products with the ranges have no common
    shape: [interpolate_polar] raises ValueError on every field with that
    number of rays, whatever its values, its mask and the interpolator. *)
Theorem interpolate_polar_azimuth_count (cos sin : float -> float) (field : ndarray)
    (mask : option mask_array) (I : Interpolator) (nrays nbins : nat) :
  shape field = [nrays; nbins] -> 1 < nrays -> 0 < nbins ->
  length (np.arange 0.5 (np.of_nat nbins + 0.5) 1) = nbins ->
  nrays < length (np.arange 0 360 (360 / np.of_nat nrays)) ->
  interpolate_polar cos sin field mask I = Raise ValueError.
Proof.
  intros Hs Hrays Hbins Hranges Hmore.
  unfold interpolate_polar, first_pass. rewrite Hs.
  unfold bin_coordinates. rewrite decide_False by lia.
  rewrite multiply_Raise; [done| | |].
  - rewrite length_map. unfold polar_angles, polar_ranges.
    rewrite repeat_length, tile_length, length_map, Hranges. nia.
  - rewrite length_map. unfold polar_angles. rewrite repeat_length, length_map. nia.
  - unfold polar_ranges. rewrite tile_length, Hranges. nia.
Qed.

Lemma interpolate_polar_azimuth_count_witness :
  length (np.arange 0 360 (360 / np.of_nat 161)) = 162 /\
  forall cos sin d mask I,
    interpolate_polar cos sin (mkarray float64 [161; 3] d) mask I = Raise ValueError.
Proof.
  assert (H : length (np.arange 0 360 (360 / np.of_nat 161)) = 162)
    by (vm_compute; reflexivity).
  split; [exact H|]. intros cos sin d mask I.
  refine (interpolate_polar_azimuth_count cos sin (mkarray float64 [161; 3] d) mask I
            161 3 eq_refl _ _ _ _).
  - lia.
  - lia.
  - vm_compute. reflexivity.
  - rewrite H. lia.
Defined.

(** X13. Fields that [interpolate_polar] cannot take: on an array with fewer
    than two axes it raises IndexError (there is no [data.shape[1]]), and
    on a field without rays ZeroDivisionError (from [360. / data.shape[0]]),
    whatever the mask and the interpolator. *)
Theorem interpolate_polar_degenerate (cos sin : float -> float) (field : ndarray)
    (mask : option mask_array) (I : Interpolator) :
  (np.ndim field < 2 -> interpolate_polar cos sin field mask I = Raise IndexError) /\
  (forall nbins rest, shape field = 0 :: nbins :: rest ->
     interpolate_polar cos sin field mask I = Raise ZeroDivisionError).
Proof.
  unfold interpolate_polar, first_pass, np.ndim. split.
  - intros Hr. destruct (shape field) as [|? [|? ?]]; [done|done|simpl in Hr; lia].
  - intros nbins rest ->. reflexivity.
Qed.

(** ** The values under the mask *)

Lemma delete_from_ext (k : nat) (l1 l2 : list float) (ix : list nat) :
  length l1 = length l2 ->
  (forall j, (k + j) ∉ ix -> l1 !! j = l2 !! j) ->
  np.delete_from k l1 ix = np.delete_from k l2 ix.
Proof.
  revert k l2. induction l1 as [|x l1 IH]; intros k l2 Hlen Hagree.
  - by destruct l2.
  - destruct l2 as [|y l2]; [done|]. simpl.
    assert (Htail : np.delete_from (S k) l1 ix = np.delete_from (S k) l2 ix).
    { apply IH; [simpl in Hlen; lia|]. intros j Hj. apply (Hagree (S j)).
      by replace (k + S j) with (S k + j) by lia. }
    rewrite Htail. destruct (bool_decide (k ∈ ix)) eqn:Hk; [done|].
    apply bool_decide_eq_false in Hk.
    specialize (Hagree 0). rewrite Nat.add_0_r in Hagree. specialize (Hagree Hk).
    simpl in Hagree. congruence.
Qed.

Lemma scatter_ext (d1 d2 : list float) (ix : list nat) (v : list float) :
  length d1 = length d2 -> length v = length ix ->
  (forall k, k ∉ ix -> d1 !! k = d2 !! k) ->
  np.scatter d1 ix v = np.scatter d2 ix v.
Proof.
  revert d1 d2 v. induction ix as [|i ix IH]; intros d1 d2 v Hlen Hv Hagree.
  - destruct v; [|done]. simpl. apply list_eq. intros k. apply Hagree. apply not_elem_of_nil.
  - destruct v as [|x v]; [done|]. simpl. apply IH.
    + by rewrite !length_insert.
    + simpl in Hv. lia.
    + intros k Hk. destruct (decide (k = i)) as [->|Hne].
      * destruct (decide (i < length d1)) as [Hi|Hi].
        -- rewrite !list_lookup_insert_eq by lia. done.
        -- rewrite !lookup_ge_None_2; [done| |]; rewrite length_insert; lia.
      * rewrite !list_lookup_insert_ne by done. apply Hagree.
        apply not_elem_of_cons. done.
Qed.

Lemma interpolate_1d_returns_wf (src trg : coords) (vals r : ndarray) (I : Interpolator) :
  returns_wf I -> np.ndim vals = 1 -> np.wf vals ->
  interpolate src trg vals I = Ok r -> np.wf r.
Proof.
  intros HI Hnd Hwf. unfold interpolate. rewrite Hnd. intros H.
  apply bind_Ok in H as (s & _ & H). apply bind_Ok in H as (ip & _ & H).
  apply bind_Ok in H as (v & Hv & H). eapply HI; [|exact H]. by eapply take_rows_wf.
Qed.

(** The result does not depend on the values of the masked bins. *)
Lemma interpolate_polar_ext (cos sin : float -> float) (f1 f2 : ndarray)
    (mask : option mask_array) (I : Interpolator) (nrays nbins : nat) :
  returns_wf I ->
  shape f1 = [nrays; nbins] -> shape f2 = [nrays; nbins] -> dtype_of f1 = dtype_of f2 ->
  length (data f1) = length (data f2) ->
  (forall k, used_mask f1 mask !! k <> Some true -> data f1 !! k = data f2 !! k) ->
  interpolate_polar cos sin f1 mask I = interpolate_polar cos sin f2 mask I.
Proof.
  intros HI Hs1 Hs2 Hdt Hlen Hagree.
  assert (Hmask : used_mask f1 mask = used_mask f2 mask).
  { unfold used_mask. by rewrite Hs1, Hs2. }
  unfold interpolate_polar. rewrite Hs1, Hs2.
  assert (Hfirst : first_pass cos sin f1 mask I = first_pass cos sin f2 mask I).
  { unfold first_pass. rewrite Hs1, Hs2, <- Hmask, <- Hdt.
    set (clutter := np.where1 (used_mask f1 mask)).
    destruct (bin_coordinates cos sin nrays nbins) as [b|]; [|done]. cbn [bind].
    destruct (np.delete b.1 clutter) as [sx|]; [|done]. cbn [bind].
    destruct (np.delete b.2 clutter) as [sy|]; [|done]. cbn [bind].
    destruct (np.take_ix b.1 clutter) as [tx|]; [|done]. cbn [bind].
    destruct (np.take_ix b.2 clutter) as [ty|]; [|done]. cbn [bind].
    assert (Hdel : np.delete (data f1) clutter = np.delete (data f2) clutter).
    { unfold np.delete. rewrite Hlen. destruct (forallb _ clutter); [|done]. f_equal.
      apply delete_from_ext; [done|]. intros j Hj. apply Hagree.
      unfold clutter in Hj. by rewrite where1_spec in Hj. }
    rewrite <- Hdel. destruct (np.delete (data f1) clutter) as [values|]; [|done].
    cbn [bind].
    destruct (interpolate (xy sx sy) (xy tx ty) (np.array1 (dtype_of f1) values) I)
      as [filling|] eqn:Hfill; [|done]. cbn [bind].
    assert (Hwf : np.wf filling).
    { eapply (interpolate_1d_returns_wf _ _ _ _ I HI); [| |exact Hfill]; [done|].
      unfold np.wf. simpl. rewrite size_cons, size_nil. lia. }
    unfold np.setitem_ix. cbn [np.ravel data dtype_of shape]. rewrite Hlen, Hs1, Hs2, Hdt.
    destruct (forallb _ clutter); [|done].
    destruct (np.broadcast_to _ _ _) as [d|] eqn:Hd; [|done]. cbn [np.or_raise bind].
    do 3 f_equal. apply scatter_ext; [done| |].
    - apply broadcast_to_length in Hd.
      + rewrite Hd, size_cons, size_nil. lia.
      + by rewrite length_map.
    - intros k Hk. apply Hagree. unfold clutter in Hk. by rewrite where1_spec in Hk. }
  by rewrite Hfirst.
Qed.

(** X14. [interpolate_polar] never reads the values of the masked bins: two
    fields of the same shape and dtype that agree on every bin that is not
    masked get the same result (or the same exception). In particular
    filling is idempotent: on a field whose unmasked bins hold no NaN, the
    result filled once more under the same mask is the result itself. Both
    hold for every interpolator class that returns well-formed arrays. *)
Theorem interpolate_polar_masked_values (cos sin : float -> float) (field : ndarray)
    (mask : option mask_array) (I : Interpolator) (nrays nbins : nat) :
  returns_wf I -> shape field = [nrays; nbins] -> np.wf field ->
  (forall f2, shape f2 = [nrays; nbins] -> dtype_of f2 = dtype_of field -> np.wf f2 ->
     (forall k, used_mask field mask !! k <> Some true -> data field !! k = data f2 !! k) ->
     interpolate_polar cos sin field mask I = interpolate_polar cos sin f2 mask I) /\
  (forall out,
     (forall k x, used_mask field mask !! k <> Some true -> data field !! k = Some x ->
                  PrimFloat.is_nan x = false) ->
     interpolate_polar cos sin field mask I = Ok out ->
     interpolate_polar cos sin out mask I = Ok out).
Proof.
  intros HI Hs Hwf. split.
  - intros f2 Hs2 Hdt Hwf2 Hagree.
    apply (interpolate_polar_ext cos sin field f2 mask I nrays nbins); try done.
    unfold np.wf in *. by rewrite Hwf, Hwf2, Hs, Hs2.
  - intros out Hnan Hout.
    destruct (interpolate_polar_inv cos sin field mask I out Hout)
      as (nrays' & nbins' & rest & Hs' & Hdt & Hso & Hlen & Hkeep).
    rewrite Hs in Hs'. injection Hs' as <- <- <-.
    rewrite <- Hout. symmetry.
    apply (interpolate_polar_ext cos sin field out mask I nrays nbins); try done.
    intros k Hk. destruct (data field !! k) as [x|] eqn:Hx.
    + symmetry. apply Hkeep; [done|done|]. by apply (Hnan k).
    + symmetry. apply lookup_ge_None. rewrite Hlen. by apply lookup_ge_None.
Qed.

Lemma interpolate_polar_masked_values_witness :
  interpolate_polar Examples.cos_ray0 Examples.sin_ray0 (Examples.ray 1 2 5%float)
    (Some Examples.last_bin_masked) Nearest_class
  = interpolate_polar Examples.cos_ray0 Examples.sin_ray0 (Examples.ray 1 2 77%float)
      (Some Examples.last_bin_masked) Nearest_class /\
  interpolate_polar Examples.cos_ray0 Examples.sin_ray0 (Examples.ray 1 2 2%float)
    (Some Examples.last_bin_masked) Nearest_class
  = Ok (Examples.ray 1 2 2%float).
Proof.
  destruct (interpolate_polar_masked_values Examples.cos_ray0 Examples.sin_ray0
              (Examples.ray 1 2 5%float) (Some Examples.last_bin_masked) Nearest_class 1 3
              Nearest_returns_wf eq_refl eq_refl) as [Hext Hidem].
  split.
  - apply (Hext (Examples.ray 1 2 77%float) eq_refl eq_refl eq_refl).
    intros [|[|[|k]]] Hk; try reflexivity. by destruct Hk.
  - apply Hidem; [|vm_compute; reflexivity].
    intros [|[|[|k]]] x Hk Hx; try (injection Hx as <-; reflexivity); done.
Defined.

(** ** The regular expressions of [parse_covariogram] *)

Lemma starts_with_app (l r : list ascii) : re.starts_with l (l ++ r) = Some r.
Proof.
  induction l as [|a l IH]; simpl; [by destruct r|]. by rewrite Ascii.eqb_refl.
Qed.

Lemma starts_with_Some (l s r : list ascii) : re.starts_with l s = Some r -> s = l ++ r.
Proof.
  revert s. induction l as [|a l IH]; intros s H.
  - destruct s; simpl in H; by injection H as <-.
  - destruct s as [|c s]; [done|]. simpl in H.
    destruct (Ascii.eqb a c) eqn:Hac; [|done]. apply Ascii.eqb_eq in Hac as ->.
    simpl. f_equal. by apply IH.
Qed.

Lemma span_run (g r : list ascii) :
  forallb re.is_num g = true -> (forall c r', r = c :: r' -> re.is_num c = false) ->
  re.span (g ++ r) = length g.
Proof.
  intros Hg Hr. induction g as [|c g IH]; simpl in *.
  - destruct r as [|c r']; [done|]. simpl. by rewrite (Hr c r').
  - apply andb_true_iff in Hg as [-> Hg]. by rewrite IH.
Qed.

Lemma span_le (s : list ascii) : re.span s <= length s.
Proof. induction s as [|c s IH]; simpl; [done|]. destruct (re.is_num c); simpl; lia. Qed.

(** A run of digits and dots that is followed by something else does not
    reach the end. *)
Lemma span_last (s : list ascii) (c : ascii) :
  last s = Some c -> re.is_num c = false -> forall t, re.span (s ++ t) < length s.
Proof.
  intros Hl Hc t. induction s as [|x s IH]; [done|]. simpl.
  destruct s as [|y s].
  - simpl in Hl. injection Hl as ->. rewrite Hc. lia.
  - destruct (re.is_num x); [|lia]. apply IH in Hl. simpl in *. lia.
Qed.

Lemma backtrack_Some (cont : list ascii -> option (list (list ascii))) (s : list ascii)
    (k : nat) (gs : list (list ascii)) :
  re.backtrack cont s k = Some gs ->
  exists k' gs', 0 < k' <= k /\ cont (drop k' s) = Some gs' /\ gs = take k' s :: gs'.
Proof.
  induction k as [|k IH]; [done|]. cbn [re.backtrack].
  destruct (cont (drop (S k) s)) as [gs'|] eqn:Hc.
  - intros [= <-]. exists (S k), gs'. split; [lia|done].
  - intros H. destruct (IH H) as (k' & gs' & ? & ? & ?). exists k', gs'. split; [lia|done].
Qed.

Lemma backtrack_None (cont : list ascii -> option (list (list ascii))) (s : list ascii)
    (k : nat) :
  (forall k', 0 < k' <= k -> cont (drop k' s) = None) -> re.backtrack cont s k = None.
Proof.
  induction k as [|k IH]; intros H; [done|]. cbn [re.backtrack].
  rewrite (H (S k)) by lia. apply IH. intros k' Hk'. apply H. lia.
Qed.

(** A term is matched by its pattern, whatever follows it that does not
    begin with a digit or a dot, and the groups are its numbers. *)
Lemma match_here_term_text (p : re.pattern) (groups : list (list ascii)) (rest : list ascii) :
  delimited p = true -> fits p groups ->
  (forall c r', rest = c :: r' -> re.is_num c = false) ->
  re.match_here p (term_text p groups ++ rest) = Some groups.
Proof.
  intros Hp Hfit Hrest. revert groups Hp Hfit.
  induction p as [|[|l] p IH]; intros groups Hp Hfit.
  - simpl in *. by subst.
  - destruct groups as [|g groups]; [done|]. destruct Hfit as (Hne & Hnum & Hfit).
    simpl in Hp. apply andb_true_iff in Hp as [Hnext Hp].
    cbn [term_text re.match_here]. rewrite <- app_assoc.
    rewrite span_run; [|done|].
    + destruct g as [|c g]; [done|]. cbn [length re.backtrack].
      rewrite <- (length_cons c g).
      rewrite drop_app_length, (IH groups Hp Hfit), take_app_length. done.
    + intros c r' Hr. destruct p as [|[|[|c' l']] p']; try done.
      * simpl in Hr. by apply (Hrest c r').
      * simpl in Hr. injection Hr as <- _. by apply negb_true_iff.
  - simpl in Hp. cbn [term_text re.match_here].
    assert (Heq : forall gs, (l ++ term_text p gs) ++ rest = l ++ (term_text p gs ++ rest))
      by (intros; by rewrite <- app_assoc).
    destruct groups; rewrite Heq, starts_with_app; by apply IH.
Qed.

(** A match holds every character of the texts of its pattern. *)
Lemma match_here_chars (p : re.pattern) (s : list ascii) (groups : list (list ascii)) :
  re.match_here p s = Some groups ->
  forall l c, re.text l ∈ p -> c ∈ l -> c ∈ s.
Proof.
  revert s groups. induction p as [|[|l0] p IH]; intros s groups H l c Hl Hc.
  - by apply elem_of_nil in Hl.
  - cbn [re.match_here] in H. apply backtrack_Some in H as (k & gs' & _ & H & _).
    apply elem_of_cons in Hl as [Hl|Hl]; [done|].
    specialize (IH _ _ H l c Hl Hc).
    rewrite <- (take_drop k s). apply elem_of_app. by right.
  - cbn [re.match_here] in H. destruct (re.starts_with l0 s) as [rest|] eqn:Hst; [|done].
    apply starts_with_Some in Hst as ->. apply elem_of_app.
    apply elem_of_cons in Hl as [[= ->]|Hl]; [by left|]. right. by apply (IH _ _ H l c).
Qed.

Lemma search_chars (p : re.pattern) (s : list ascii) (groups : list (list ascii)) :
  re.search p s = Some groups ->
  forall l c, re.text l ∈ p -> c ∈ l -> c ∈ s.
Proof.
  induction s as [|x s IH]; intros H l c Hl Hc; simpl in H.
  - destruct (re.match_here p []) eqn:Hm; [|done]. by apply (match_here_chars p [] _ Hm l c).
  - destruct (re.match_here p (x :: s)) eqn:Hm.
    + by apply (match_here_chars p _ _ Hm l c).
    + apply elem_of_cons. right. by apply (IH H l c).
Qed.

Lemma search_here (p : re.pattern) (s : list ascii) (groups : list (list ascii)) :
  re.match_here p s = Some groups -> re.search p s = Some groups.
Proof. intros H. destruct s; simpl; by rewrite H. Qed.

(** A text with a parenthesis and without digits and dots does not begin
    anywhere in front of a number unless a parenthesis stands there. *)
Lemma starts_with_junk (l b t : list ascii) :
  "("%char ∈ l -> forallb (fun c => negb (re.is_num c)) l = true ->
  "("%char ∉ b -> (forall c t', t = c :: t' -> re.is_num c = true) ->
  t <> [] -> re.starts_with l (b ++ t) = None.
Proof.
  intros Hin Hl Hb Ht Hne. revert b Hb. induction l as [|a l IH]; intros b Hb.
  - by apply elem_of_nil in Hin.
  - simpl in Hl. apply andb_true_iff in Hl as [Ha Hl]. apply negb_true_iff in Ha.
    destruct b as [|x b]; simpl.
    + destruct t as [|c t']; [done|]. simpl.
      destruct (Ascii.eqb a c) eqn:Hac; [|done]. apply Ascii.eqb_eq in Hac as ->.
      rewrite (Ht c t') in Ha; done.
    + destruct (Ascii.eqb a x) eqn:Hax; [|done]. apply Ascii.eqb_eq in Hax as ->.
      apply not_elem_of_cons in Hb as [Hx Hb].
      apply IH; [|done|done]. apply elem_of_cons in Hin as [Hin|Hin]; [done|done].
Qed.

(** No match begins in what is written in front of a term. *)
Lemma match_here_junk (p : re.pattern) (b t : list ascii) (c : ascii) :
  opens p -> "("%char ∉ b -> last b = Some c -> re.is_num c = false ->
  (forall c t', t = c :: t' -> re.is_num c = true) -> t <> [] ->
  re.match_here p (b ++ t) = None.
Proof.
  intros (l & p' & -> & Hin & Hl) Hb Hlast Hc Ht Hne. cbn [re.match_here].
  apply backtrack_None. intros k Hk.
  pose proof (span_last b c Hlast Hc t) as Hspan.
  rewrite drop_app_le by lia.
  rewrite (starts_with_junk l (drop k b) t); try done.
  intros Hd. apply Hb. rewrite <- (take_drop k b). apply elem_of_app. by right.
Qed.

Lemma search_junk (p : re.pattern) (b t : list ascii) :
  opens p -> ignored b ->
  (forall c t', t = c :: t' -> re.is_num c = true) -> t <> [] ->
  re.search p (b ++ t) = re.search p t.
Proof.
  intros Hp (Hb & _ & Hlast) Ht Hne. induction b as [|x b IH]; [done|].
  cbn [app re.search].
  destruct (last (x :: b)) as [c|] eqn:Hl; [|by apply last_None in Hl].
  change (x :: b ++ t) with ((x :: b) ++ t).
  rewrite (match_here_junk p (x :: b) t c); try done; [|by apply Hlast].
  apply not_elem_of_cons in Hb as [_ Hb]. apply IH; [done|].
  intros c' Hc'. apply Hlast. destruct b as [|y b]; [done|]. simpl in Hl. congruence.
Qed.

(** ** Terms and models *)

Lemma has_elem_of (c : ascii) (s : list ascii) : has c s = true <-> c ∈ s.
Proof.
  unfold has. rewrite existsb_exists. split.
  - intros (x & Hin & Hx). apply Ascii.eqb_eq in Hx as ->. by apply list_elem_of_In.
  - intros Hin. exists c. split; [by apply list_elem_of_In|apply Ascii.eqb_refl].
Qed.

Lemma texts_elem_of (p : re.pattern) (c : ascii) :
  c ∈ texts p <-> exists l, re.text l ∈ p /\ c ∈ l.
Proof.
  unfold texts. induction p as [|[|l0] p IH]; simpl.
  - split; [by intros ?%elem_of_nil|]. intros (l & Hl & _). by apply elem_of_nil in Hl.
  - rewrite IH. split; intros (l & Hl & Hc); exists l; (split; [|done]).
    + by apply elem_of_cons; right.
    + by apply elem_of_cons in Hl as [|].
  - rewrite elem_of_app, IH. split.
    + intros [Hc|(l & Hl & Hc)].
      * exists l0. split; [apply elem_of_cons; by left|done].
      * exists l. split; [apply elem_of_cons; by right|done].
    + intros (l & Hl & Hc). apply elem_of_cons in Hl as [[= ->]|Hl]; [by left|].
      right. eauto.
Qed.

Lemma term_text_chars (p : re.pattern) (groups : list (list ascii)) (c : ascii) :
  fits p groups -> c ∈ term_text p groups -> c ∈ texts p \/ re.is_num c = true.
Proof.
  revert groups. induction p as [|[|l] p IH]; intros groups Hfit Hc.
  - by apply elem_of_nil in Hc.
  - destruct groups as [|g groups]; [done|]. destruct Hfit as (_ & Hnum & Hfit).
    cbn [term_text] in Hc. apply elem_of_app in Hc as [Hc|Hc].
    + right. rewrite forallb_forall in Hnum. apply Hnum. by apply list_elem_of_In.
    + destruct (IH groups Hfit Hc) as [H|H]; [left|by right]. done.
  - assert (Hc' : c ∈ l \/ c ∈ term_text p groups).
    { destruct groups; cbn [term_text] in Hc; by apply elem_of_app in Hc. }
    destruct Hc' as [Hc'|Hc'].
    + left. unfold texts. simpl. apply elem_of_app. by left.
    + simpl in Hfit. destruct (IH groups Hfit Hc') as [H|H]; [left|by right].
      unfold texts in *. simpl. apply elem_of_app. by right.
Qed.

(** A term begins with a digit or a dot. *)
Lemma term_text_head (p : re.pattern) (groups : list (list ascii)) :
  opens p -> fits p groups ->
  term_text p groups <> [] /\
  forall c t', term_text p groups = c :: t' -> re.is_num c = true.
Proof.
  intros (l & p' & -> & _) Hfit. destruct groups as [|[|c g] groups]; try done.
  - by destruct Hfit.
  - destruct Hfit as (_ & Hnum & _). simpl in Hnum. apply andb_true_iff in Hnum as [Hc _].
    split; [done|]. cbn [term_text]. intros c' t' [= <- _]. done.
Qed.

(** A pattern finds its own terms and no term of a pattern that is told
    apart from it. *)
Lemma search_own (p : re.pattern) (groups : list (list ascii)) (n : nat) :
  delimited p = true -> fits p groups ->
  re.search p (term_text p groups ++ replicate n " "%char) = Some groups.
Proof.
  intros Hp Hfit. apply search_here, match_here_term_text; [done|done|].
  intros c r' Hr. destruct n; [done|]. simpl in Hr. by injection Hr as <- _.
Qed.

Lemma search_other (p p' : re.pattern) (groups : list (list ascii)) (n : nat) :
  told_apart p p' = true -> has " "%char (texts p) = true -> fits p groups ->
  re.search p' (term_text p groups ++ replicate n " "%char) = None.
Proof.
  intros Hap Hsp Hfit.
  destruct (re.search p' (term_text p groups ++ _)) as [gs|] eqn:Hs; [|done].
  unfold told_apart in Hap. apply existsb_exists in Hap as (c & Hin & Hc).
  apply andb_true_iff in Hc as [Hnum Hno]. apply negb_true_iff in Hnum, Hno.
  apply list_elem_of_In, texts_elem_of in Hin as (l & Hl & Hcl).
  pose proof (search_chars p' _ _ Hs l c Hl Hcl) as Hc.
  apply elem_of_app in Hc as [Hc|Hc].
  - apply (term_text_chars p groups c Hfit) in Hc as [Hc|Hc]; [|congruence].
    apply has_elem_of in Hc. congruence.
  - apply elem_of_replicate in Hc as [-> _]. congruence.
Qed.

Lemma search_no_parenthesis (p : re.pattern) (s : list ascii) :
  opens p -> "("%char ∉ s -> re.search p s = None.
Proof.
  intros (l & p' & -> & Hin & _) Hs.
  destruct (re.search _ s) as [gs|] eqn:H; [|done]. exfalso. apply Hs.
  apply (search_chars _ _ _ H l); [|done]. apply elem_of_cons. right. apply elem_of_cons. by left.
Qed.

(** *** The eight patterns *)

Lemma patterns_delimited (j : nat) (p : re.pattern) :
  patterns !! j = Some p -> delimited p = true.
Proof.
  intros H. do 8 (destruct j as [|j]; [injection H as <-; reflexivity|]). done.
Qed.

Lemma patterns_open (j : nat) (p : re.pattern) : patterns !! j = Some p -> opens p.
Proof.
  intros H.
  do 8 (destruct j as [|j];
        [injection H as <-; eexists _, _; split; [reflexivity|];
         split; [apply list_elem_of_In; simpl; auto 10|reflexivity]|]).
  done.
Qed.

Lemma patterns_apart (i j : nat) (p p' : re.pattern) :
  patterns !! i = Some p -> patterns !! j = Some p' -> i <> j -> told_apart p p' = true.
Proof.
  intros Hi Hj Hne.
  do 8 (destruct i as [|i];
        [injection Hi as <-;
         do 8 (destruct j as [|j]; [injection Hj as <-; (done || reflexivity)|]); done|]).
  done.
Qed.

Lemma patterns_no_plus (j : nat) (p : re.pattern) :
  patterns !! j = Some p -> has "+"%char (texts p) = false.
Proof.
  intros H. do 8 (destruct j as [|j]; [injection H as <-; reflexivity|]). done.
Qed.

Lemma patterns_blank (j : nat) (p : re.pattern) :
  patterns !! j = Some p -> has " "%char (texts p) = true.
Proof.
  intros H. do 8 (destruct j as [|j]; [injection H as <-; reflexivity|]). done.
Qed.

(** *** [split] *)

Lemma split_no_sep (sep : ascii) (s : list ascii) : sep ∉ s -> split sep s = [s].
Proof.
  induction s as [|c s IH]; intros Hs; [done|]. simpl.
  apply not_elem_of_cons in Hs as [Hc Hs].
  destruct (Ascii.eqb c sep) eqn:Hcs; [apply Ascii.eqb_eq in Hcs; congruence|].
  by rewrite IH.
Qed.

Lemma split_app (sep : ascii) (a b : list ascii) :
  sep ∉ a -> split sep (a ++ sep :: b) = a :: split sep b.
Proof.
  induction a as [|c a IH]; intros Ha; simpl.
  - by rewrite Ascii.eqb_refl.
  - apply not_elem_of_cons in Ha as [Hc Ha].
    destruct (Ascii.eqb c sep) eqn:Hcs; [apply Ascii.eqb_eq in Hcs; congruence|].
    by rewrite IH.
Qed.

Lemma split_joined (parts : list (list ascii)) :
  parts <> [] -> Forall (fun w => "+"%char ∉ w) parts ->
  split "+" (joined parts) = parts.
Proof.
  intros Hne Hall. induction Hall as [|w parts Hw Hall IH]; [done|].
  destruct parts as [|w' parts]; simpl.
  - by apply split_no_sep.
  - rewrite split_app by done. f_equal. by apply IH.
Qed.

Lemma split_chars (sep : ascii) (s w : list ascii) (c : ascii) :
  w ∈ split sep s -> c ∈ w -> c ∈ s.
Proof.
  revert w. induction s as [|x s IH]; intros w Hw Hc; simpl in Hw.
  - apply list_elem_of_singleton in Hw as ->. done.
  - destruct (Ascii.eqb x sep).
    + apply elem_of_cons in Hw as [->|Hw]; [by apply elem_of_nil in Hc|].
      apply elem_of_cons. right. by apply (IH w).
    + destruct (split sep s) as [|w0 ws] eqn:Hsp.
      * apply list_elem_of_singleton in Hw as ->. apply list_elem_of_singleton in Hc as ->.
        apply elem_of_cons. by left.
      * apply elem_of_cons in Hw as [->|Hw].
        -- apply elem_of_cons in Hc as [->|Hc]; apply elem_of_cons; [by left|right].
           apply (IH w0); [apply elem_of_cons; by left|done].
        -- apply elem_of_cons. right. apply (IH w); [apply elem_of_cons; by right|done].
Qed.

Lemma written_no_plus (t : term) : well_written t -> "+"%char ∉ written t.
Proof.
  intros (Hj & Hfit & _ & Hplus & _). unfold written. intros Hin.
  apply elem_of_app in Hin as [Hin|Hin]; [done|].
  apply elem_of_app in Hin as [Hin|Hin]; [|by apply elem_of_replicate in Hin as [? _]].
  unfold pattern_of in *.
  destruct (lookup_lt_is_Some_2 patterns (which t) Hj) as [p Hp].
  rewrite Hp in Hfit, Hin.
  apply (term_text_chars p _ _ Hfit) in Hin as [Hin|Hin]; [|done].
  apply has_elem_of in Hin. by rewrite (patterns_no_plus _ _ Hp) in Hin.
Qed.

(** What every pattern finds in a well-written term: the pattern of the
    term its numbers, the others nothing. *)
Lemma search_written (t : term) (i : nat) (p : re.pattern) :
  well_written t -> patterns !! i = Some p ->
  re.search p (written t) = if decide (i = which t) then Some (numbers t) else None.
Proof.
  intros (Hj & Hfit & Hjunk) Hi. unfold written, pattern_of in *.
  destruct (lookup_lt_is_Some_2 patterns (which t) Hj) as [q Hq]. rewrite Hq in Hfit |- *.
  destruct (term_text_head q (numbers t) (patterns_open _ _ Hq) Hfit) as [Hne Hhead].
  rewrite (search_junk p (junk t) _ (patterns_open _ _ Hi) Hjunk).
  - destruct (decide (i = which t)) as [->|Hne'].
    + rewrite Hq in Hi. injection Hi as <-. apply search_own; [|done].
      by apply (patterns_delimited (which t)).
    + apply search_other; [|by apply (patterns_blank (which t))|done].
      by apply (patterns_apart (which t) i).
  - intros c t' Ht. destruct (term_text q (numbers t)) as [|c0 tt] eqn:Htt; [done|].
    simpl in Ht. injection Ht as <- _. by apply (Hhead c0 tt).
  - by destruct (term_text q (numbers t)).
Qed.

(** ** [parse_covariogram] *)

Section CovariogramFacts.
Variable float_of_str : list ascii -> result float.
Variables cov_nug cov_lin cov_sph cov_exp cov_gau cov_mat cov_pow cov_cau
  : ndarray -> list float -> result ndarray.

Local Notation "'funs'" :=
  (cov_funs cov_nug cov_lin cov_sph cov_exp cov_gau cov_mat cov_pow cov_cau).
Local Notation "'patterns_loop'" :=
  (over_patterns float_of_str cov_nug cov_lin cov_sph cov_exp cov_gau cov_mat cov_pow cov_cau).
Local Notation "'subparts_loop'" :=
  (over_subparts float_of_str cov_nug cov_lin cov_sph cov_exp cov_gau cov_mat cov_pow cov_cau).
Local Notation "'parse'" :=
  (parse_covariogram float_of_str cov_nug cov_lin cov_sph cov_exp cov_gau cov_mat cov_pow
     cov_cau).

Lemma over_patterns_none (subpart : list ascii) (todo : list re.pattern) (j0 : nat)
    (funcs : list covariance) :
  Forall (fun p => re.search p subpart = None) todo ->
  patterns_loop subpart j0 todo funcs = Ok funcs.
Proof.
  intros H. revert j0. induction H as [|p todo Hp _ IH]; intros j0; simpl; [done|].
  by rewrite Hp.
Qed.

Lemma over_patterns_one (subpart : list ascii) (j : nat) (groups : list (list ascii))
    (func : ndarray -> list float -> result ndarray) (params : list float)
    (todo : list re.pattern) (j0 : nat) (funcs : list covariance) :
  funs !! j = Some func -> mapR float_of_str groups = Ok params ->
  (forall i p, todo !! i = Some p ->
     re.search p subpart = if decide (j0 + i = j) then Some groups else None) ->
  patterns_loop subpart j0 todo funcs
  = Ok (funcs ++ if decide (j0 <= j < j0 + length todo) then [_make_cov func params] else []).
Proof.
  intros Hfunc Hparams. revert j0 funcs.
  induction todo as [|p todo IH]; intros j0 funcs H.
  - simpl. rewrite decide_False by lia. by rewrite app_nil_r.
  - cbn [over_patterns]. rewrite (H 0 p eq_refl), Nat.add_0_r.
    assert (Htail : forall i q, todo !! i = Some q ->
              re.search q subpart = if decide (S j0 + i = j) then Some groups else None).
    { intros i q Hq. rewrite (H (S i) q Hq). by replace (j0 + S i) with (S j0 + i) by lia. }
    destruct (decide (j0 = j)) as [->|Hne].
    + rewrite Hparams, Hfunc. cbn [bind np.or_raise]. rewrite (IH _ _ Htail).
      rewrite decide_False by lia. rewrite decide_True by (simpl; lia).
      by rewrite app_nil_r.
    + rewrite (IH _ _ Htail). f_equal. f_equal.
      destruct (decide (S j0 <= j < S j0 + length todo)),
               (decide (j0 <= j < j0 + length (p :: todo))); simpl in *; try done; lia.
Qed.

Lemma over_subparts_written (ts : list term)
    (found : list ((ndarray -> list float -> result ndarray) * list float))
    (funcs : list covariance) :
  Forall well_written ts ->
  Forall2 (fun t fp => funs !! which t = Some fp.1 /\
                       mapR float_of_str (numbers t) = Ok fp.2) ts found ->
  subparts_loop (map written ts) funcs
  = Ok (funcs ++ map (fun fp => _make_cov fp.1 fp.2) found).
Proof.
  intros Hwell Hfound. revert funcs.
  induction Hfound as [|t fp ts found [Hfunc Hparams] _ IH]; intros funcs.
  - simpl. by rewrite app_nil_r.
  - apply Forall_cons in Hwell as [Ht Hwell]. cbn [map over_subparts].
    rewrite (over_patterns_one (written t) (which t) (numbers t) fp.1 fp.2 patterns 0 funcs
               Hfunc Hparams).
    + rewrite decide_True by (destruct Ht as [Hj _]; lia). cbn [bind].
      rewrite (IH Hwell). by rewrite <- app_assoc.
    + intros i p Hi. simpl. by apply search_written.
Qed.

(** X15. Writing and reading a covariance model: for every list of terms,
    each written after one of the eight patterns with texts of digits and
    dots for its numbers, the terms joined by plus signs are parsed to the
    sum of the covariance functions they name, in the order of the terms and
    with the parameters that [float] gives for the number texts. What
    stands in front of a term is not read, as long as it holds no
    parenthesis and no plus sign and does not end in a digit or dot: a
    minus sign is ignored, and so is a mantissa up to the [e] of
    ['1e5 Exp(2)'], of which only the [5] is read. Blanks may follow a
    term. *)
Theorem parse_covariogram_terms (ts : list term)
    (found : list ((ndarray -> list float -> result ndarray) * list float)) :
  Forall well_written ts ->
  Forall2 (fun t fp => funs !! which t = Some fp.1 /\
                       mapR float_of_str (numbers t) = Ok fp.2) ts found ->
  parse (joined (map written ts))
  = Ok (sum_of (map (fun fp => _make_cov fp.1 fp.2) found)).
Proof.
  intros Hwell Hfound. unfold parse_covariogram.
  destruct ts as [|t ts].
  - apply Forall2_nil_inv_l in Hfound as ->. reflexivity.
  - rewrite split_joined.
    + by rewrite (over_subparts_written _ found []).
    + done.
    + apply Forall_map. eapply Forall_impl; [exact Hwell|]. intros t'. apply written_no_plus.
Qed.

Lemma over_subparts_none (subparts : list (list ascii)) (funcs : list covariance) :
  Forall (fun w => "("%char ∉ w) subparts -> subparts_loop subparts funcs = Ok funcs.
Proof.
  intros H. induction H as [|w subparts Hw _ IH]; cbn [over_subparts]; [done|].
  rewrite over_patterns_none; [done|].
  apply Forall_forall. intros p Hp. apply list_elem_of_lookup in Hp as [j Hj].
  apply search_no_parenthesis; [|done]. by apply (patterns_open j).
Qed.

(** X16. A model without an opening parenthesis names no covariance
    function (every pattern asks for one): [parse_covariogram] returns
    all the same, and what it returns raises TypeError on every argument,
    from the [reduce] of an empty list. *)
Theorem parse_covariogram_no_term (cov_model : list ascii) :
  "("%char ∉ cov_model ->
  parse cov_model = Ok (sum_of []) /\
  forall h, sum_of [] h = Raise TypeError.
Proof.
  intros Hno. split; [|done]. unfold parse_covariogram.
  rewrite over_subparts_none; [done|].
  apply Forall_forall. intros w Hw Hin. apply Hno. by apply (split_chars "+" _ w).
Qed.

End CovariogramFacts.

Lemma parse_covariogram_terms_witness :
  let parse := parse_covariogram Examples.digit (Examples.cov 0) (Examples.cov 1)
                 (Examples.cov 2) (Examples.cov 3) (Examples.cov 4) (Examples.cov 5)
                 (Examples.cov 6) (Examples.cov 7) in
  parse (list_ascii_of_string "-1 Nug(2) + 3e7 Exp(4)"%string)
  = Ok (sum_of [_make_cov (Examples.cov 0) [1; 2]%float;
                _make_cov (Examples.cov 3) [7; 4]%float]).
Proof.
  cbv zeta.
  pose (s := list_ascii_of_string).
  refine (parse_covariogram_terms Examples.digit (Examples.cov 0) (Examples.cov 1)
            (Examples.cov 2) (Examples.cov 3) (Examples.cov 4) (Examples.cov 5)
            (Examples.cov 6) (Examples.cov 7)
            [mk_term (s "-"%string) 0 [s "1"%string; s "2"%string] 1;
             mk_term (s " 3e"%string) 3 [s "7"%string; s "4"%string] 0]
            [(Examples.cov 0, [1; 2]%float); (Examples.cov 3, [7; 4]%float)] _ _).
  - repeat constructor; simpl; try lia; try discriminate;
      try (intros Hin; apply list_elem_of_In in Hin; simpl in Hin; intuition discriminate);
      try (intros c [= <-]; reflexivity).
  - repeat constructor.
Defined.

Lemma parse_covariogram_no_term_witness :
  parse_covariogram Examples.digit (Examples.cov 0) (Examples.cov 1)
    (Examples.cov 2) (Examples.cov 3) (Examples.cov 4) (Examples.cov 5)
    (Examples.cov 6) (Examples.cov 7) (list_ascii_of_string "1.0 Nug 0.5 + Exp"%string)
  = Ok (sum_of []).
Proof.
  refine (proj1 (parse_covariogram_no_term Examples.digit (Examples.cov 0) (Examples.cov 1)
                   (Examples.cov 2) (Examples.cov 3) (Examples.cov 4) (Examples.cov 5)
                   (Examples.cov 6) (Examples.cov 7)
                   (list_ascii_of_string "1.0 Nug 0.5 + Exp"%string) _)).
  intros Hin. apply list_elem_of_In in Hin. simpl in Hin. intuition discriminate.
Defined.

(** ** What the constructors record *)

Lemma knn_index_le (tr : cKDTree.t) (k : nat) (x : list float) (d : float) (i : nat) :
  length (cKDTree.points tr) = cKDTree.n tr ->
  (d, i) ∈ cKDTree.knn tr k x -> i <= cKDTree.n tr.
Proof.
  unfold cKDTree.knn. intros Hn Hin. apply elem_of_app in Hin as [Hin|Hin].
  - apply elem_of_take in Hin as (? & Hin & _). apply list_elem_of_lookup_2 in Hin.
    apply neighbours_elem_of in Hin as (y & Hy & _). apply lookup_lt_Some in Hy. lia.
  - apply elem_of_replicate in Hin as [[= -> ->] _]. done.
Qed.

(** X17. [Nearest] and [Idw] count points, not arguments: whenever the
    constructor returns, source and target coordinates have been brought to
    2-d arrays with the same number of columns, [numsources] and
    [numtargets] are their numbers of rows, and the tables of distances and
    indices hold one entry ([Nearest]) or one row of [nnearest] entries
    ([Idw]) per target, with no index above [numsources]. *)
Theorem constructors_count_points (src trg : coords) :
  (forall nn, Nearest.__init__ src trg = Ok nn ->
     exists s t m,
       IpolBase._make_coord_arrays src = Ok s /\ IpolBase._make_coord_arrays trg = Ok t /\
       shape s = [Nearest.numsources nn; m] /\ shape t = [Nearest.numtargets nn; m] /\
       length (Nearest.dists nn) = Nearest.numtargets nn /\
       length (Nearest.ix nn) = Nearest.numtargets nn /\
       Forall (fun i => i <= Nearest.numsources nn) (Nearest.ix nn)) /\
  (forall k p idw, Idw.__init__ src trg k p = Ok idw ->
     exists s t m,
       IpolBase._make_coord_arrays src = Ok s /\ IpolBase._make_coord_arrays trg = Ok t /\
       shape s = [Idw.numsources idw; m] /\ shape t = [Idw.numtargets idw; m] /\
       Idw.nnearest idw = k /\
       length (Idw.dists idw) = Idw.numtargets idw /\
       length (Idw.ix idw) = Idw.numtargets idw /\
       Forall (fun r => length r = k) (Idw.dists idw) /\
       Forall (fun r => length r = k /\ Forall (fun i => i <= Idw.numsources idw) r)
         (Idw.ix idw)).
Proof.
  split.
  - intros nn H. unfold Nearest.__init__ in H.
    apply bind_Ok in H as (s & Hs & H). apply bind_Ok in H as (t & Ht & H).
    apply bind_Ok in H as (nt & Hnt & H). apply bind_Ok in H as (ns & Hns & H).
    apply bind_Ok in H as (tree & Htree & H). apply bind_Ok in H as (q & Hq & [= <-]).
    unfold cKDTree.build in Htree. unfold np.len in Hns, Hnt.
    destruct (shape s) as [|n0 [|m [|? ?]]] eqn:Hss; try done.
    injection Hns as <-. injection Htree as <-.
    unfold cKDTree.query in Hq. destruct (shape t) as [|T [|dm [|? ?]]] eqn:Hst; try done.
    injection Hnt as <-. destruct (decide _) as [Hm|]; [|done]. simpl in Hm, Hq. subst dm.
    injection Hq as <-. exists s, t, m. simpl.
    rewrite !length_map, rows_length. unfold np.nrows. rewrite Hst. simpl.
    repeat split; try done.
    apply Forall_map, Forall_map, Forall_map, Forall_forall. intros x _. simpl.
    set (tr := cKDTree.mk n0 m (np.rows s)).
    pose proof (knn_length tr 1 x) as Hl.
    destruct (cKDTree.knn tr 1 x) as [|[d i] [|? ?]] eqn:Hk; try done. simpl.
    apply (knn_index_le tr 1 x d i); [|rewrite Hk; left].
    simpl. rewrite rows_length. unfold np.nrows. by rewrite Hss.
  - intros k p idw H. unfold Idw.__init__ in H.
    apply bind_Ok in H as (s & Hs & H). apply bind_Ok in H as (t & Ht & H).
    apply bind_Ok in H as (nt & Hnt & H). apply bind_Ok in H as (ns & Hns & H).
    apply bind_Ok in H as (tree & Htree & H). apply bind_Ok in H as (q & Hq & [= <-]).
    unfold cKDTree.build in Htree. unfold np.len in Hns, Hnt.
    destruct (shape s) as [|n0 [|m [|? ?]]] eqn:Hss; try done.
    injection Hns as <-. injection Htree as <-.
    unfold cKDTree.query in Hq. destruct (shape t) as [|T [|dm [|? ?]]] eqn:Hst; try done.
    injection Hnt as <-. destruct (decide _) as [Hm|]; [|done]. simpl in Hm. subst dm.
    destruct (decide _) as [|_]; [done|]. injection Hq as <-. exists s, t, m. simpl.
    rewrite !length_map, rows_length. unfold np.nrows. rewrite Hst. simpl.
    set (tr := cKDTree.mk n0 m (np.rows s)).
    repeat split; try done.
    + apply Forall_map, Forall_map, Forall_forall. intros x _. simpl.
      by rewrite length_map, knn_length.
    + apply Forall_map, Forall_map, Forall_forall. intros x _. simpl.
      rewrite length_map, knn_length. split; [done|].
      apply Forall_map, Forall_forall. intros [d i] Hin. simpl.
      apply (knn_index_le tr k x d i); [|done].
      simpl. rewrite rows_length. unfold np.nrows. by rewrite Hss.
Qed.

Lemma constructors_count_points_witness :
  exists s t m,
    IpolBase._make_coord_arrays (Examples.points [0; 4]%float) = Ok s /\
    IpolBase._make_coord_arrays (Examples.points [1]%float) = Ok t /\
    shape s = [2; m] /\ shape t = [1; m] /\
    length (Idw.dists Examples.between) = 1 /\
    Forall (fun r => length r = 2) (Idw.dists Examples.between).
Proof.
  destruct (proj2 (constructors_count_points (Examples.points [0; 4]%float)
                     (Examples.points [1]%float)) 2 2%float Examples.between between_init)
    as (s & t & m & Hs & Ht & Hss & Hst & _ & Hd & _ & Hrows & _).
  exists s, t, m. repeat split; assumption.
Defined.

